(** * POD batch front-end: the orchestration core of [App.tsx]

    A shallow embedding of the state handling of the React component [App]
    and of its [EditModal]: folder import, the per-batch runner
    ([processBatch]), the fleet controller ([processAll]), the editing
    session (undo / redo / regenerate) and file-name sanitisation.

    Conventions.
    - A JavaScript string is the sequence of its UTF-16 code units.
    - A React state cell is a field of a record; a handler is a function of
      the values its closure captured at render time (the _snapshot_) and it
      produces the ordered list of state updates it queues.  Updates are
      applied to the _live_ state, which may differ from the snapshot when
      the handler is asynchronous.
    - The generative service, [FileReader], [URL.createObjectURL] and
      [Math.random] are outside the program; they appear as oracles. *)

From Stdlib Require DecimalString DecimalNat.
From Stdlib Require Import String Ascii NArith Bool Arith Lia List Permutation.
Import ListNotations.

#[local] Arguments firstn : simpl never.

(* ================================================================== *)
(** * JavaScript strings *)
(* ================================================================== *)

Module JS.

Definition jsstring := list N.

(** An ASCII literal as a sequence of code units. *)
Definition lit (s : string) : jsstring :=
  map N_of_ascii (list_ascii_of_string s).

(** [a === b] on strings. *)
Fixpoint streq (a b : jsstring) : bool :=
  match a, b with
  | [], [] => true
  | x :: a', y :: b' => N.eqb x y && streq a' b'
  | _, _ => false
  end.

(** [s.startsWith(p)] *)
Fixpoint startsWith (s p : jsstring) : bool :=
  match p, s with
  | [], _ => true
  | y :: p', x :: s' => N.eqb x y && startsWith s' p'
  | _ :: _, [] => false
  end.

(** [s.includes(p)] *)
Fixpoint includes (s p : jsstring) : bool :=
  startsWith s p ||
  match s with
  | [] => false
  | _ :: s' => includes s' p
  end.

(** [s.split(sep)] for a one-code-unit separator: the result is never the
    empty array (the empty string splits into one empty segment). *)
Fixpoint split (sep : N) (s : jsstring) : list jsstring :=
  match s with
  | [] => [[]]
  | c :: rest =>
      if N.eqb c sep then [] :: split sep rest
      else match split sep rest with
           | [] => [[c]]
           | w :: ws => (c :: w) :: ws
           end
  end.

(** The class [[a-zA-Z0-9 ]] of the regular expressions of [cleanFileName]. *)
Definition isAlnum (c : N) : bool :=
  (((97 <=? c) && (c <=? 122)) || ((65 <=? c) && (c <=? 90)) ||
   ((48 <=? c) && (c <=? 57)))%N.

Definition isAlnumOrSpace (c : N) : bool := isAlnum c || (c =? 32)%N.

(** The class [\s] (ECMAScript WhiteSpace and LineTerminator), which is
    also what [trim] strips. *)
Definition isWhiteSpace (c : N) : bool :=
  (((9 <=? c) && (c <=? 13)) || (c =? 32) || (c =? 160) || (c =? 5760) ||
   ((8192 <=? c) && (c <=? 8202)) || (c =? 8232) || (c =? 8233) ||
   (c =? 8239) || (c =? 8287) || (c =? 12288) || (c =? 65279))%N.

(** [s.replace(/[^a-zA-Z0-9 ]/g, ' ')]: without the [u] flag the pattern
    matches one code unit at a time. *)
Definition replaceNonAlnum (s : jsstring) : jsstring :=
  map (fun c => if isAlnumOrSpace c then c else 32%N) s.

(** [s.replace(/\s+/g, ' ')]: every maximal run of white space becomes one
    space; [inRun] says that the previous code unit was white space. *)
Fixpoint collapseFrom (inRun : bool) (s : jsstring) : jsstring :=
  match s with
  | [] => []
  | c :: rest =>
      if isWhiteSpace c
      then if inRun then collapseFrom true rest
           else 32%N :: collapseFrom true rest
      else c :: collapseFrom false rest
  end.

Definition collapseWhitespace (s : jsstring) : jsstring := collapseFrom false s.

Fixpoint trimStart (s : jsstring) : jsstring :=
  match s with
  | [] => []
  | c :: rest => if isWhiteSpace c then trimStart rest else s
  end.

Definition trimEnd (s : jsstring) : jsstring := rev (trimStart (rev s)).

(** [s.trim()] *)
Definition trim (s : jsstring) : jsstring := trimEnd (trimStart s).

(** [!s.trim()]: the string is empty or all white space. *)
Definition isBlank (s : jsstring) : bool :=
  match trim s with [] => true | _ :: _ => false end.

End JS.

Import JS.

(* ================================================================== *)
(** * File-name sanitisation *)
(* ================================================================== *)

(** [cleanFileName] (declared twice in the source, in [EditModal] and in
    [App], with the same body). *)
Definition cleanFileName (name : jsstring) : jsstring :=
  trim (collapseWhitespace (replaceNonAlnum name)).


(* ================================================================== *)
(** * Data model ([types.ts]) *)
(* ================================================================== *)

Inductive Status := idle | processing | completed | error | stopping.

Inductive Mode := normal | pro.

Definition statusEq (a b : Status) : bool :=
  match a, b with
  | idle, idle | processing, processing | completed, completed
  | error, error | stopping, stopping => true
  | _, _ => false
  end.

Definition isProMode (m : Mode) : bool :=
  match m with pro => true | normal => false end.

(** The browser's [File]: MIME type, path relative to the picked folder and
    an opaque handle on the contents. *)
Module File.
Record t := mk { type : jsstring; webkitRelativePath : jsstring; handle : N }.
End File.

Module ImageFile.
Record t := mk {
  id : jsstring;
  file : File.t;
  preview : jsstring;
  base64 : jsstring }.
End ImageFile.

Module BatchItem.
Record t := mk {
  id : jsstring;
  name : jsstring;
  images : list ImageFile.t;
  status : Status;
  processingMode : option Mode;
  resultsNormal : list jsstring;
  resultsPro : list jsstring;
  customPrompt : option jsstring;
  error : option jsstring }.

(** The object spreads of the source, one per set of overwritten fields. *)
Definition withImages (b : t) (imgs : list ImageFile.t) : t :=
  mk (id b) (name b) imgs (status b) (processingMode b)
     (resultsNormal b) (resultsPro b) (customPrompt b) (error b).

Definition withStatus (b : t) (st : Status) : t :=
  mk (id b) (name b) (images b) st (processingMode b)
     (resultsNormal b) (resultsPro b) (customPrompt b) (error b).

(** [b[isPro ? 'resultsPro' : 'resultsNormal']] *)
Definition results (isPro : bool) (b : t) : list jsstring :=
  if isPro then resultsPro b else resultsNormal b.

(** [{ ...b, [isPro ? 'resultsPro' : 'resultsNormal']: rs }] *)
Definition withResults (b : t) (isPro : bool) (rs : list jsstring) : t :=
  if isPro
  then mk (id b) (name b) (images b) (status b) (processingMode b)
          (resultsNormal b) rs (customPrompt b) (error b)
  else mk (id b) (name b) (images b) (status b) (processingMode b)
          rs (resultsPro b) (customPrompt b) (error b).
End BatchItem.

(** [editTarget]: the result an open editor is bound to. *)
Module EditTarget.
Record t := mk { batchId : jsstring; index : nat; data : jsstring; mode : Mode }.
End EditTarget.

(** One outcome of [generatePodImage]: the data URL of the generated image,
    or the [message] of the [Error] it throws (every exit of its [catch]
    block throws [new Error(...)]). *)
Inductive GenResult :=
| GenOk (b64 : jsstring)
| GenFail (message : jsstring).

(* ================================================================== *)
(** * The entity store: the updater functions given to [setBatches] *)
(* ================================================================== *)

Definition Store := list BatchItem.t.

(** [p.map(b => b.id === batchId ? f(b) : b)] *)
Definition mapById (batchId : jsstring) (f : BatchItem.t -> BatchItem.t)
    (p : Store) : Store :=
  map (fun b => if streq (BatchItem.id b) batchId then f b else b) p.

(** [xs.map((r, i) => g(r, i))], indices counted from [i]. *)
Fixpoint mapIndexedFrom {A B} (g : A -> nat -> B) (i : nat) (xs : list A)
    : list B :=
  match xs with
  | [] => []
  | x :: rest => g x i :: mapIndexedFrom g (S i) rest
  end.

Definition mapIndexed {A B} (g : A -> nat -> B) (xs : list A) : list B :=
  mapIndexedFrom g 0 xs.

(** Every call site of [setBatches], by the handler that owns it. *)
Inductive BatchesUpdate :=
| AppendBatches (newBatches : list BatchItem.t)      (* handleFolderUpload *)
| StartProcessing (batchId : jsstring) (mode : Mode) (* processBatch, entry *)
| CompleteRun (batchId : jsstring) (isPro : bool) (resUrls : list jsstring)
                                                     (* processBatch, after the loop *)
| FailRun (batchId : jsstring) (message : jsstring)  (* processBatch, catch *)
| MarkStopping (batchId : jsstring)                  (* stopBatch *)
| ReplaceResult (batchId : jsstring) (isPro : bool) (index : nat)
    (newB64 : jsstring)                              (* onEditRegenerate *)
| SaveResult (batchId : jsstring) (isPro : bool) (index : nat)
    (applyToAll : bool) (newB64 : jsstring)          (* onSave *)
| ReplaceInput (batchId imgId : jsstring) (file : File.t)
    (preview b64 : jsstring)                         (* handleInputDropReplace *)
| AddInput (batchId : jsstring) (img : ImageFile.t)  (* handleInputDropAdd *)
| DeleteInput (batchId imgId : jsstring)             (* handleDeleteInput *)
| RemoveBatch (id : jsstring).                       (* removeBatchById *)

Definition applyUpdate (u : BatchesUpdate) (p : Store) : Store :=
  match u with
  | AppendBatches newBatches => p ++ newBatches
  | StartProcessing batchId mode =>
      mapById batchId (fun b =>
        BatchItem.mk (BatchItem.id b) (BatchItem.name b) (BatchItem.images b)
          processing (Some mode)
          (BatchItem.resultsNormal b) (BatchItem.resultsPro b)
          (BatchItem.customPrompt b) None) p
  | CompleteRun batchId isPro resUrls =>
      mapById batchId (fun b =>
        BatchItem.withResults (BatchItem.withStatus b completed) isPro resUrls) p
  | FailRun batchId message =>
      mapById batchId (fun b =>
        BatchItem.mk (BatchItem.id b) (BatchItem.name b) (BatchItem.images b)
          error (BatchItem.processingMode b)
          (BatchItem.resultsNormal b) (BatchItem.resultsPro b)
          (BatchItem.customPrompt b) (Some message)) p
  | MarkStopping batchId =>
      mapById batchId (fun b => BatchItem.withStatus b stopping) p
  | ReplaceResult batchId isPro index newB64 =>
      mapById batchId (fun b =>
        BatchItem.withResults b isPro
          (mapIndexed (fun r i => if Nat.eqb i index then newB64 else r)
             (BatchItem.results isPro b))) p
  | SaveResult batchId isPro index applyToAll newB64 =>
      mapById batchId (fun b =>
        BatchItem.withResults b isPro
          (mapIndexed
             (fun r i => if Nat.eqb i index || applyToAll then newB64 else r)
             (BatchItem.results isPro b))) p
  | ReplaceInput batchId imgId file preview b64 =>
      mapById batchId (fun b =>
        BatchItem.withImages b
          (map (fun i => if streq (ImageFile.id i) imgId
                         then ImageFile.mk (ImageFile.id i) file preview b64
                         else i)
               (BatchItem.images b))) p
  | AddInput batchId img =>
      mapById batchId (fun b =>
        BatchItem.withImages b (firstn 5 (BatchItem.images b ++ [img]))) p
  | DeleteInput batchId imgId =>
      mapById batchId (fun b =>
        BatchItem.withImages b
          (filter (fun i => negb (streq (ImageFile.id i) imgId))
                  (BatchItem.images b))) p
  | RemoveBatch id =>
      filter (fun item => negb (streq (BatchItem.id item) id)) p
  end.

(* ================================================================== *)
(** * Component state and queued updates *)
(* ================================================================== *)

(** The [useState] cells of [App] and, while an editor is mounted, those of
    [EditModal].  The cells [zoomImage], [hasProKey] and [adjustments] play no
    part in the store and are left out. *)
Record State := mkState {
  batches : Store;
  isProcessingAll : bool;
  shouldStopGlobal : bool;
  outputsPerBatch : nat;
  editTarget : option EditTarget.t;
  prompt : jsstring;
  isRegenerating : bool;
  history : list jsstring;
  redoStack : list jsstring }.

Definition initialState : State :=
  mkState [] false false 1 None [] false [] [].

(** What a handler does, in program order: the state updates it queues, the
    points where it is suspended on the generation client, and the calls it
    makes to the outside. *)
Inductive Action :=
| SetBatches (u : BatchesUpdate)
| SetIsProcessingAll (v : bool)
| SetShouldStopGlobal (v : bool)
| SetOutputsPerBatch (n : nat)
| SetEditTarget (t : option EditTarget.t)
| SetEditTargetData (newB64 : jsstring)
    (* setEditTarget(prev => prev ? { ...prev, data: newB64 } : null) *)
| PushHistory (image : jsstring)   (* setHistory(prev => [...prev, image]) *)
| PopHistory                       (* setHistory(prev => prev.slice(0, -1)) *)
| PushRedo (image : jsstring)      (* setRedoStack(prev => [...prev, image]) *)
| PopRedo                          (* setRedoStack(prev => prev.slice(0, -1)) *)
| ClearRedo                        (* setRedoStack([]) *)
| SetIsRegenerating (v : bool)
| SetPrompt (s : jsstring)
| AwaitGenerate (images : list ImageFile.t) (customPrompt : option jsstring)
    (sourceImage : option jsstring) (isPro : bool) (outcome : GenResult)
    (* await generatePodImage(images, customPrompt, sourceImage, isPro) *)
| AlertProKeyRequired
| AlertRegenerateError (message : jsstring)
| HandleConnectKey.

Definition applyAction (a : Action) (s : State) : State :=
  match a with
  | SetBatches u =>
      mkState (applyUpdate u (batches s)) (isProcessingAll s)
        (shouldStopGlobal s) (outputsPerBatch s) (editTarget s) (prompt s)
        (isRegenerating s) (history s) (redoStack s)
  | SetIsProcessingAll v =>
      mkState (batches s) v (shouldStopGlobal s) (outputsPerBatch s)
        (editTarget s) (prompt s) (isRegenerating s) (history s) (redoStack s)
  | SetShouldStopGlobal v =>
      mkState (batches s) (isProcessingAll s) v (outputsPerBatch s)
        (editTarget s) (prompt s) (isRegenerating s) (history s) (redoStack s)
  | SetOutputsPerBatch n =>
      mkState (batches s) (isProcessingAll s) (shouldStopGlobal s) n
        (editTarget s) (prompt s) (isRegenerating s) (history s) (redoStack s)
  | SetEditTarget (Some t) =>
      mkState (batches s) (isProcessingAll s) (shouldStopGlobal s)
        (outputsPerBatch s) (Some t) (prompt s) (isRegenerating s)
        (history s) (redoStack s)
  | SetEditTarget None =>
      (* the editor unmounts: its cells are gone, the next one starts afresh *)
      mkState (batches s) (isProcessingAll s) (shouldStopGlobal s)
        (outputsPerBatch s) None [] false [] []
  | SetEditTargetData newB64 =>
      mkState (batches s) (isProcessingAll s) (shouldStopGlobal s)
        (outputsPerBatch s)
        (match editTarget s with
         | Some prev =>
             Some (EditTarget.mk (EditTarget.batchId prev)
                     (EditTarget.index prev) newB64 (EditTarget.mode prev))
         | None => None
         end)
        (prompt s) (isRegenerating s) (history s) (redoStack s)
  | PushHistory image =>
      mkState (batches s) (isProcessingAll s) (shouldStopGlobal s)
        (outputsPerBatch s) (editTarget s) (prompt s) (isRegenerating s)
        (history s ++ [image]) (redoStack s)
  | PopHistory =>
      mkState (batches s) (isProcessingAll s) (shouldStopGlobal s)
        (outputsPerBatch s) (editTarget s) (prompt s) (isRegenerating s)
        (removelast (history s)) (redoStack s)
  | PushRedo image =>
      mkState (batches s) (isProcessingAll s) (shouldStopGlobal s)
        (outputsPerBatch s) (editTarget s) (prompt s) (isRegenerating s)
        (history s) (redoStack s ++ [image])
  | PopRedo =>
      mkState (batches s) (isProcessingAll s) (shouldStopGlobal s)
        (outputsPerBatch s) (editTarget s) (prompt s) (isRegenerating s)
        (history s) (removelast (redoStack s))
  | ClearRedo =>
      mkState (batches s) (isProcessingAll s) (shouldStopGlobal s)
        (outputsPerBatch s) (editTarget s) (prompt s) (isRegenerating s)
        (history s) []
  | SetIsRegenerating v =>
      mkState (batches s) (isProcessingAll s) (shouldStopGlobal s)
        (outputsPerBatch s) (editTarget s) (prompt s) v
        (history s) (redoStack s)
  | SetPrompt str =>
      mkState (batches s) (isProcessingAll s) (shouldStopGlobal s)
        (outputsPerBatch s) (editTarget s) str (isRegenerating s)
        (history s) (redoStack s)
  | AwaitGenerate _ _ _ _ _ => s
  | AlertProKeyRequired => s
  | AlertRegenerateError _ => s
  | HandleConnectKey => s
  end.

(** While a handler is suspended on its [k]-th generation call, other
    handlers may run: [others k] is what they do to the live state. *)
Definition Interference := nat -> State -> State.

Definition undisturbed : Interference := fun _ s => s.

(** The live state after a handler's actions, starting from [s]; [k] counts
    the suspensions so far. *)
Fixpoint runFrom (others : Interference) (k : nat) (acts : list Action)
    (s : State) : State :=
  match acts with
  | [] => s
  | AwaitGenerate _ _ _ _ _ :: rest => runFrom others (S k) rest (others k s)
  | a :: rest => runFrom others k rest (applyAction a s)
  end.

Definition run (others : Interference) (acts : list Action) (s : State) : State :=
  runFrom others 0 acts s.

(** An event on the current render: the handler's closure holds the live
    state itself, and nothing else runs before it returns. *)
Definition dispatch (handler : State -> list Action) (s : State) : State :=
  run undisturbed (handler s) s.

(* ================================================================== *)
(** * Batch runner: [processBatch], [stopBatch] *)
(* ================================================================== *)

(** [batches.findIndex(b => b.id === batchId)]; [None] is [-1]. *)
Fixpoint findIndexFrom (batchId : jsstring) (i : nat) (bs : Store) : option nat :=
  match bs with
  | [] => None
  | b :: rest =>
      if streq (BatchItem.id b) batchId then Some i
      else findIndexFrom batchId (S i) rest
  end.

Definition findIndex (batchId : jsstring) (bs : Store) : option nat :=
  findIndexFrom batchId 0 bs.

(** [batches.find(b => b.id === batchId)] *)
Definition findBatch (batchId : jsstring) (bs : Store) : option BatchItem.t :=
  find (fun b => streq (BatchItem.id b) batchId) bs.

(** [shouldStopGlobal || (currentBatch && currentBatch.status === 'stopping')],
    both read from the closure [r] of the render that created the handler. *)
Definition stopRequested (r : State) (batchId : jsstring) : bool :=
  shouldStopGlobal r ||
  match findBatch batchId (batches r) with
  | Some currentBatch => statusEq (BatchItem.status currentBatch) stopping
  | None => false
  end.

(** How the [try] block of [processBatch] ends. *)
Inductive LoopEnd :=
| Finished (resUrls : list jsstring)   (* fell out of the loop or [break] *)
| Thrown (message : jsstring).         (* generatePodImage threw *)

(** The [for] loop: [todo] iterations remain, the counter is [i], and
    [client i] is the outcome of the call made at iteration [i]. *)
Fixpoint generateLoop (r : State) (batchId : jsstring) (batch : BatchItem.t)
    (isPro : bool) (client : nat -> GenResult) (todo i : nat)
    (resUrls : list jsstring) : list Action * LoopEnd :=
  match todo with
  | 0 => ([], Finished resUrls)
  | S todo' =>
      if stopRequested r batchId then ([], Finished resUrls)
      else
        let call := AwaitGenerate (BatchItem.images batch)
                      (BatchItem.customPrompt batch) None isPro (client i) in
        match client i with
        | GenOk b64 =>
            let (acts, e) :=
              generateLoop r batchId batch isPro client todo' (S i)
                (resUrls ++ [b64]) in
            (call :: acts, e)
        | GenFail message => ([call], Thrown message)
        end
  end.

Definition PRO_KEY_REQUIRED : jsstring := lit "PRO_KEY_REQUIRED".

(** [processBatch(batchId, mode)] of the render whose state is [r]. *)
Definition processBatch (r : State) (batchId : jsstring) (mode : Mode)
    (client : nat -> GenResult) : list Action :=
  match findIndex batchId (batches r) with
  | None => []
  | Some idx =>
      SetBatches (StartProcessing batchId mode) ::
      match nth_error (batches r) idx with
      | None => []   (* not reached: [idx] is a position of [batches] *)
      | Some batch =>
          let isPro := isProMode mode in
          let (acts, e) :=
            generateLoop r batchId batch isPro client (outputsPerBatch r) 0 [] in
          acts ++
          match e with
          | Finished resUrls => [SetBatches (CompleteRun batchId isPro resUrls)]
          | Thrown message =>
              (if includes message PRO_KEY_REQUIRED
               then [AlertProKeyRequired; HandleConnectKey] else []) ++
              [SetBatches (FailRun batchId message)]
          end
      end
  end.

Definition stopBatch (batchId : jsstring) : list Action :=
  [SetBatches (MarkStopping batchId)].

(* ================================================================== *)
(** * Fleet controller: [processAll] *)
(* ================================================================== *)

(** [for (const b of batches) { if (shouldStopGlobal) break;
    await processBatch(b.id, mode); }]; [clients k] serves the run of the
    [k]-th batch of the snapshot. *)
Fixpoint forEachBatch (r : State) (mode : Mode)
    (clients : nat -> nat -> GenResult) (k : nat) (bs : Store) : list Action :=
  match bs with
  | [] => []
  | b :: rest =>
      if shouldStopGlobal r then []
      else processBatch r (BatchItem.id b) mode (clients k) ++
           forEachBatch r mode clients (S k) rest
  end.

Definition processAll (r : State) (mode : Mode)
    (clients : nat -> nat -> GenResult) : list Action :=
  SetIsProcessingAll true :: SetShouldStopGlobal false ::
  forEachBatch r mode clients 0 (batches r) ++
  [SetIsProcessingAll false].

(** The handler of the Emergency Stop button. *)
Definition emergencyStop : list Action :=
  [SetShouldStopGlobal true; SetIsProcessingAll false].

(* ================================================================== *)
(** * Editing session: [EditModal] and its callbacks in [App] *)
(* ================================================================== *)

(** The [onSave] prop that [App] passes to the editor. *)
Definition onSave (r : State) (newB64 : jsstring) (applyToAll : bool)
    : list Action :=
  match editTarget r with
  | None => []   (* no editor is mounted *)
  | Some t =>
      let isPro := isProMode (EditTarget.mode t) in
      SetBatches (SaveResult (EditTarget.batchId t) isPro (EditTarget.index t)
                    applyToAll newB64) ::
      (if applyToAll then [] else [SetEditTargetData newB64])
  end.

(** [onEditRegenerate(prompt, currentImage)]: the [try]/[catch] swallows a
    failure of the client after an [alert]. *)
Definition onEditRegenerate (r : State) (prompt currentImage : jsstring)
    (outcome : GenResult) : list Action :=
  match editTarget r with
  | None => []
  | Some t =>
      let isPro := isProMode (EditTarget.mode t) in
      AwaitGenerate [] (Some prompt) (Some currentImage) isPro outcome ::
      match outcome with
      | GenOk newB64 =>
          [SetEditTargetData newB64;
           SetBatches (ReplaceResult (EditTarget.batchId t) isPro
                         (EditTarget.index t) newB64)]
      | GenFail message => [AlertRegenerateError message]
      end
  end.

(** [handleRegenerate] of the editor; [image] is the [data] of the target. *)
Definition handleRegenerate (outcome : GenResult) (r : State) : list Action :=
  match editTarget r with
  | None => []
  | Some t =>
      let image := EditTarget.data t in
      if isBlank (prompt r) then []
      else
        [PushHistory image; ClearRedo; SetIsRegenerating true] ++
        onEditRegenerate r (prompt r) image outcome ++
        [SetIsRegenerating false; SetPrompt []]
  end.

(** [xs[xs.length - 1]] *)
Definition lastItem (xs : list jsstring) : option jsstring :=
  nth_error xs (length xs - 1).

Definition handleUndo (r : State) : list Action :=
  match editTarget r with
  | None => []
  | Some t =>
      let image := EditTarget.data t in
      if Nat.eqb (length (history r)) 0 then []
      else match lastItem (history r) with
           | None => []   (* not reached: the stack is not empty *)
           | Some previous =>
               [PushRedo image; PopHistory] ++ onSave r previous false
           end
  end.

Definition handleRedo (r : State) : list Action :=
  match editTarget r with
  | None => []
  | Some t =>
      let image := EditTarget.data t in
      if Nat.eqb (length (redoStack r)) 0 then []
      else match lastItem (redoStack r) with
           | None => []   (* not reached: the stack is not empty *)
           | Some next =>
               [PushHistory image; PopRedo] ++ onSave r next false
           end
  end.

(** The image the editor shows: its [image] prop. *)
Definition currentImage (s : State) : option jsstring :=
  option_map EditTarget.data (editTarget s).

(** The store entry the editor is bound to: [b[key][index]] of each batch
    whose id is the target's. *)
Definition targetEntries (s : State) : list (option jsstring) :=
  match editTarget s with
  | None => []
  | Some t =>
      map (fun b => nth_error
                      (BatchItem.results (isProMode (EditTarget.mode t)) b)
                      (EditTarget.index t))
          (filter (fun b => streq (BatchItem.id b) (EditTarget.batchId t))
                  (batches s))
  end.

(* ================================================================== *)
(** * Input images: folder import, drop, delete *)
(* ================================================================== *)

(** What the browser supplies. *)
Record Browser := mkBrowser {
  (** the [k]-th value of [Math.random().toString(36).substr(2, 9)] *)
  randomId : nat -> jsstring;
  (** [URL.createObjectURL(f)] *)
  createObjectURL : File.t -> jsstring;
  (** [fileToBase64(f)]: the data URL, or [None] when the reader fails and
      the promise is rejected *)
  fileToBase64 : File.t -> option jsstring }.

(** The own properties of [grouped], in creation order. *)
Definition Grouped := list (jsstring * list File.t).

(** The property names every object inherits from [Object.prototype]: for
    these [grouped[name]] is a truthy value without a [push] method. *)
Definition objectPrototypeKeys : list jsstring :=
  map lit ["constructor"; "__defineGetter__"; "__defineSetter__";
           "hasOwnProperty"; "__lookupGetter__"; "__lookupSetter__";
           "isPrototypeOf"; "propertyIsEnumerable"; "toString"; "valueOf";
           "__proto__"; "toLocaleString"]%string.

Definition hasOwn (name : jsstring) (grouped : Grouped) : bool :=
  existsb (fun e => streq (fst e) name) grouped.

(** [if (!grouped[name]) grouped[name] = []; grouped[name].push(f);]
    [None] is the [TypeError] of calling a missing [push]. *)
Definition pushGrouped (name : jsstring) (f : File.t) (grouped : Grouped)
    : option Grouped :=
  if hasOwn name grouped
  then Some (map (fun e => if streq (fst e) name
                           then (fst e, snd e ++ [f]) else e) grouped)
  else if existsb (streq name) objectPrototypeKeys then None
  else Some (grouped ++ [(name, [f])]).

Definition IMAGE_SLASH : jsstring := lit "image/".

(** The name a file is filed under, if the [forEach] callback files it. *)
Definition groupName (f : File.t) : option jsstring :=
  if negb (startsWith (File.type f) IMAGE_SLASH) then None
  else
    let parts := split 47%N (File.webkitRelativePath f) in
    if Nat.ltb 2 (length parts)
    then nth_error parts (length parts - 2)
    else None.

(** [files.forEach(f => { ... })] *)
Fixpoint groupFiles (files : list File.t) (grouped : Grouped) : option Grouped :=
  match files with
  | [] => Some grouped
  | f :: rest =>
      match groupName f with
      | None => groupFiles rest grouped
      | Some name =>
          match pushGrouped name f grouped with
          | None => None
          | Some grouped' => groupFiles rest grouped'
          end
      end
  end.

(** Property keys that are array indices: canonical decimal numerals below
    [2^32 - 1].  [Object.entries] lists them first, in numeric order. *)
Definition isDigit (c : N) : bool := ((48 <=? c) && (c <=? 57))%N.

Definition numeral (s : jsstring) : N :=
  fold_left (fun acc c => (10 * acc + (c - 48))%N) s 0%N.

Definition arrayIndex (key : jsstring) : option N :=
  match key with
  | [] => None
  | c :: rest =>
      if forallb isDigit key
           && (negb (N.eqb c 48) || Nat.eqb (length rest) 0)
           && (numeral key <? 4294967295)%N
      then Some (numeral key) else None
  end.

Definition isArrayIndex (key : jsstring) : bool :=
  match arrayIndex key with Some _ => true | None => false end.

Fixpoint insertByIndex (e : jsstring * list File.t)
    (sorted : Grouped) : Grouped :=
  match sorted with
  | [] => [e]
  | e' :: rest =>
      if (numeral (fst e) <=? numeral (fst e'))%N then e :: sorted
      else e' :: insertByIndex e rest
  end.

Definition sortByIndex (es : Grouped) : Grouped :=
  fold_right insertByIndex [] es.

(** [Object.entries(grouped)] *)
Definition objectEntries (grouped : Grouped) : Grouped :=
  sortByIndex (filter (fun e => isArrayIndex (fst e)) grouped) ++
  filter (fun e => negb (isArrayIndex (fst e))) grouped.

(** [fs.slice(0, 5).map(async f => ({ id, file, preview, base64 }))] under
    [Promise.all]: the ids are drawn in order, any rejection rejects all. *)
Fixpoint makeImages (B : Browser) (fs : list File.t) (k : nat)
    : option (list ImageFile.t) * nat :=
  match fs with
  | [] => (Some [], k)
  | f :: rest =>
      let id := randomId B k in
      let '(imgs, k') := makeImages B rest (S k) in
      (match fileToBase64 B f, imgs with
       | Some b64, Some imgs' =>
           Some (ImageFile.mk id f (createObjectURL B f) b64 :: imgs')
       | _, _ => None
       end, k')
  end.

Fixpoint makeBatches (B : Browser) (entries : Grouped) (k : nat)
    : option (list BatchItem.t) * nat :=
  match entries with
  | [] => (Some [], k)
  | (name, fs) :: rest =>
      let id := randomId B k in
      let '(imgs, k1) := makeImages B (firstn 5 fs) (S k) in
      let '(more, k2) := makeBatches B rest k1 in
      (match imgs, more with
       | Some imgs', Some more' =>
           Some (BatchItem.mk id name imgs' idle None [] [] None None :: more')
       | _, _ => None
       end, k2)
  end.

(** The [newBatches] of [handleFolderUpload], or [None] when the handler's
    promise is rejected before it reaches [setBatches]; [k] is the number
    of random ids drawn so far. *)
Definition importedBatches (B : Browser) (files : list File.t) (k : nat)
    : option (list BatchItem.t) :=
  match groupFiles files [] with
  | None => None
  | Some grouped => fst (makeBatches B (objectEntries grouped) k)
  end.

Definition handleFolderUpload (B : Browser) (files : list File.t) (k : nat)
    : list Action :=
  match importedBatches B files k with
  | None => []
  | Some newBatches => [SetBatches (AppendBatches newBatches)]
  end.

Definition handleInputDropReplace (B : Browser) (batchId imgId : jsstring)
    (file : File.t) : list Action :=
  if negb (startsWith (File.type file) IMAGE_SLASH) then []
  else match fileToBase64 B file with
       | None => []
       | Some b64 =>
           [SetBatches (ReplaceInput batchId imgId file
                          (createObjectURL B file) b64)]
       end.

Definition handleInputDropAdd (B : Browser) (batchId : jsstring)
    (file : File.t) (k : nat) : list Action :=
  if negb (startsWith (File.type file) IMAGE_SLASH) then []
  else match fileToBase64 B file with
       | None => []
       | Some b64 =>
           [SetBatches (AddInput batchId
                          (ImageFile.mk (randomId B k) file
                             (createObjectURL B file) b64))]
       end.

Definition handleDeleteInput (batchId imgId : jsstring) : list Action :=
  [SetBatches (DeleteInput batchId imgId)].

Definition removeBatchById (id : jsstring) : list Action :=
  [SetBatches (RemoveBatch id)].

(* ================================================================== *)
(** * Observations on traces and sample data *)
(* ================================================================== *)

(** The outcomes of the generation calls a handler awaited, in order. *)
Fixpoint calls (acts : list Action) : list GenResult :=
  match acts with
  | [] => []
  | AwaitGenerate _ _ _ _ outcome :: rest => outcome :: calls rest
  | _ :: rest => calls rest
  end.

(** The runs a handler started: one [StartProcessing] each. *)
Fixpoint runsStarted (acts : list Action) : nat :=
  match acts with
  | [] => 0
  | SetBatches (StartProcessing _ _) :: rest => S (runsStarted rest)
  | _ :: rest => runsStarted rest
  end.

(* ================================================================== *)
(** * Vocabulary of the results *)
(* ================================================================== *)

(** The words of a name: its maximal runs of ASCII letters and digits.  A
    letter or digit followed by another one joins the word that follows. *)
Fixpoint words (s : jsstring) : list jsstring :=
  match s with
  | [] => []
  | c :: rest =>
      if isAlnum c then
        match rest with
        | [] => [[c]]
        | c' :: _ =>
            if isAlnum c' then
              match words rest with
              | w :: ws => (c :: w) :: ws
              | [] => [[c]]
              end
            else [c] :: words rest
        end
      else words rest
  end.

(** The words separated by single spaces. *)
Fixpoint joinWords (ws : list jsstring) : jsstring :=
  match ws with
  | [] => []
  | w :: rest =>
      match rest with
      | [] => w
      | _ :: _ => w ++ 32%N :: joinWords rest
      end
  end.

(** The first two passes of [cleanFileName] fused: letters and digits are
    copied, every run of other code units becomes one space, or nothing when
    [inRun] says that the run began earlier. *)
Fixpoint collapseSeparators (inRun : bool) (s : jsstring) : jsstring :=
  match s with
  | [] => []
  | c :: rest =>
      if isAlnum c then c :: collapseSeparators false rest
      else if inRun then collapseSeparators true rest
           else 32%N :: collapseSeparators true rest
  end.

(** The three shapes of the trace of [processBatch]. *)
Inductive RunShape (r : State) (batchId : jsstring) (mode : Mode)
    (trace : list Action) : Prop :=
| NoRun :
    findIndex batchId (batches r) = None -> trace = [] -> RunShape r batchId mode trace
| Completes (acts : list Action) (resUrls : list jsstring) :
    findIndex batchId (batches r) <> None ->
    trace = SetBatches (StartProcessing batchId mode) :: acts ++
            [SetBatches (CompleteRun batchId (isProMode mode) resUrls)] ->
    (forall s, run undisturbed acts s = s) ->
    calls acts = map GenOk resUrls ->
    length resUrls <= outputsPerBatch r ->
    RunShape r batchId mode trace
| Fails (acts notices : list Action) (oks : list jsstring) (message : jsstring) :
    trace = SetBatches (StartProcessing batchId mode) :: acts ++ notices ++
            [SetBatches (FailRun batchId message)] ->
    (forall s, run undisturbed acts s = s) ->
    (forall s, run undisturbed notices s = s) ->
    calls acts = map GenOk oks ++ [GenFail message] ->
    calls notices = [] ->
    RunShape r batchId mode trace.

(** The invariant of the input images. *)
Definition imagesBounded (p : Store) : Prop :=
  Forall (fun b => length (BatchItem.images b) <= 5) p.

Definition isAppend (u : BatchesUpdate) : bool :=
  match u with AppendBatches _ => true | _ => false end.

(** The stores the handlers can produce from the empty store of a fresh
    page: [AppendBatches] is queued by [handleFolderUpload] alone, with the
    batches it built; every other update may come with any argument. *)
Inductive Reachable (B : Browser) : Store -> Prop :=
| reach_initial : Reachable B []
| reach_import p files k newBatches :
    Reachable B p ->
    handleFolderUpload B files k = [SetBatches (AppendBatches newBatches)] ->
    Reachable B (applyUpdate (AppendBatches newBatches) p)
| reach_update p u :
    Reachable B p -> isAppend u = false -> Reachable B (applyUpdate u p).

(** The files the [forEach] callback of [handleFolderUpload] files under
    [name], in the order of the file list. *)
Definition filedUnder (name : jsstring) (files : list File.t) : list File.t :=
  filter (fun f => match groupName f with
                   | Some n => streq n name
                   | None => false
                   end) files.

(** [grouped] after the callback has seen the files [seen]. *)
Definition GroupedFor (seen : list File.t) (grouped : Grouped) : Prop :=
  NoDup (map fst grouped) /\
  (forall name fs, In (name, fs) grouped ->
                   fs = filedUnder name seen /\ fs <> []) /\
  (forall f name, In f seen -> groupName f = Some name ->
                  In name (map fst grouped)).

(** A batch as [handleFolderUpload] builds it from an entry of [grouped]. *)
Definition BuiltFrom (e : jsstring * list File.t) (b : BatchItem.t) : Prop :=
  BatchItem.name b = fst e /\
  map ImageFile.file (BatchItem.images b) = firstn 5 (snd e) /\
  BatchItem.status b = idle /\
  BatchItem.resultsNormal b = [] /\ BatchItem.resultsPro b = [].

Ltac bool_to_prop H :=
  repeat first
    [ rewrite orb_true_iff in H | rewrite andb_true_iff in H
    | rewrite N.leb_le in H | rewrite N.eqb_eq in H ].


Module Sample.

(** The shop name of the specification, with U+00E9 for the accented e. *)
Definition nekoShop : jsstring := lit "N" ++ [233%N] ++ lit "ko's Shop! #1".

Definition png (path : string) (h : N) : File.t :=
  File.mk (lit "image/png") (lit path) h.

(** Paths relative to the picked folders themselves. *)
Definition twoSegmentFiles : list File.t :=
  [png "Cats/a.png" 1; png "Cats/b.png" 2; png "Dogs/c.png" 3].

(** The same folders picked through their parent. *)
Definition threeSegmentFiles : list File.t :=
  [png "Designs/Cats/a.png" 1; png "Designs/Cats/b.png" 2;
   png "Designs/Dogs/c.png" 3].

(** Seven images in one folder. *)
Definition sevenCats : list File.t :=
  [png "Designs/Cats/1.png" 1; png "Designs/Cats/2.png" 2;
   png "Designs/Cats/3.png" 3; png "Designs/Cats/4.png" 4;
   png "Designs/Cats/5.png" 5; png "Designs/Cats/6.png" 6;
   png "Designs/Cats/7.png" 7].

Definition browser : Browser :=
  mkBrowser (fun k => lit "id" ++ [(48 + N.of_nat k)%N])
            (fun f => lit "blob:" ++ [(48 + File.handle f)%N])
            (fun f => Some (lit "data:image/png;base64," ++
                            [(64 + File.handle f)%N])).

(** What importing [sevenCats] into a fresh page appends. *)
Definition sevenCatsBatches : list BatchItem.t :=
  match importedBatches browser sevenCats 0 with
  | Some newBatches => newBatches
  | None => []
  end.

Definition image (k : nat) (f : File.t) : ImageFile.t :=
  ImageFile.mk (randomId browser k) f (createObjectURL browser f)
    (lit "data:image/png;base64," ++ [(64 + File.handle f)%N]).

Definition oldNormal : jsstring := lit "data:image/png;base64,OLDN".
Definition oldPro : jsstring := lit "data:image/png;base64,OLDP".

(** A batch that went through a run of each tier. *)
Definition cats : BatchItem.t :=
  BatchItem.mk (lit "b1") (lit "Cats")
    [image 1 (png "Designs/Cats/a.png" 1)] completed (Some pro)
    [oldNormal] [oldPro] None None.

Definition dogs : BatchItem.t :=
  BatchItem.mk (lit "b2") (lit "Dogs")
    [image 3 (png "Designs/Dogs/c.png" 3)] idle None [] [] None None.

(** Two batches loaded, two outputs per batch. *)
Definition loaded : State :=
  mkState [cats; dogs] false false 2 None [] false [] [].

Definition imageA : jsstring := lit "data:image/png;base64,AAAA".
Definition imageB : jsstring := lit "data:image/png;base64,BBBB".

(** A client whose [i]-th answer is a fresh image. *)
Definition succeeding : nat -> GenResult :=
  fun i => GenOk (lit "data:image/png;base64,NEW" ++ [(48 + N.of_nat i)%N]).

(** The message of the error that [generatePodImage] throws when the
    transport fails with the text [fetch failed]. *)
Definition fetchFailed : jsstring :=
  [76; 7895; 105]%N ++ lit " Generation: fetch failed".

(** A client whose second call fails. *)
Definition failingSecond : nat -> GenResult :=
  fun i => if Nat.eqb i 1 then GenFail fetchFailed else succeeding i.

(** The user presses STOP on batch [b1] while the first call is in flight. *)
Definition stopDuringFirstCall : Interference :=
  fun k s =>
    if Nat.eqb k 0 then run undisturbed (stopBatch (lit "b1")) s else s.

(** The user types a prompt in the editor. *)
Definition typing (text : string) (s : State) : State :=
  applyAction (SetPrompt (lit text)) s.

(** The editor was opened on the first normal result of [cats]; the image
    was regenerated twice, to [imageA] and then to [imageB]; the second
    regeneration was undone and a new prompt typed.  The editor shows
    [imageA], with one image on each stack. *)
Definition editing : State :=
  typing "make it red"
    (dispatch handleUndo
       (dispatch (handleRegenerate (GenOk imageB))
          (typing "more contrast"
             (dispatch (handleRegenerate (GenOk imageA))
                (typing "remove the text"
                   (applyAction
                      (SetEditTarget
                         (Some (EditTarget.mk (lit "b1") 0 oldNormal normal)))
                      loaded)))))).

End Sample.

(* ================================================================== *)
(** * Generation client: [generatePodImage] *)
(* ================================================================== *)

(** Truthiness of an optional string: [undefined] and the empty string are
    falsy. *)
Definition truthy (x : option jsstring) : bool :=
  match x with
  | Some (_ :: _) => true
  | _ => false
  end.

(** An optional string inside a template literal. *)
Definition render (x : option jsstring) : jsstring :=
  match x with
  | Some s => s
  | None => lit "undefined"
  end.

(** [x.split(',')[1]] *)
Definition payload (x : jsstring) : option jsstring :=
  nth_error (split 44%N x) 1.

(** The parts of a request and the request itself. *)
Inductive Part :=
| InlineData (data : option jsstring) (mimeType : jsstring)
| TextPart (text : jsstring).

Record Request := mkRequest {
  model : jsstring;
  contents : list Part;
  aspectRatio : jsstring;
  imageSize : option jsstring }.

Definition defaultPrompt : jsstring :=
    [10]%N ++ lit "    Nhi" ++ [7879]%N ++ lit "m v" ++ [7909]%N ++
    lit ": B" ++ [7841]%N ++ lit "n l" ++ [224]%N ++ lit " m" ++ [7897]%N ++
    lit "t nh" ++ [224]%N ++ lit " thi" ++ [7871]%N ++ lit "t k" ++
    [7871]%N ++ lit " Graphic Design chuy" ++ [234]%N ++ lit "n nghi" ++
    [7879]%N ++ lit "p cho th" ++ [7883]%N ++ lit " tr" ++ [432; 7901]%N ++
    lit "ng Print on Demand (POD)." ++ [10]%N ++ lit "    H" ++ [227]%N ++
    lit "y ph" ++ [226]%N ++ lit "n t" ++ [237]%N ++ lit "ch c" ++ [225]%N ++
    lit "c m" ++ [7851]%N ++ lit "u thi" ++ [7871]%N ++ lit "t k" ++
    [7871]%N ++ lit " v" ++ [224]%N ++ lit " t" ++ [7841]%N ++
    lit "o ra m" ++ [7897]%N ++ lit "t T" ++ [193]%N ++ lit "C PH" ++
    [7848]%N ++ lit "M NGH" ++ [7878]%N ++ lit " THU" ++ [7852]%N ++
    lit "T (WORKART) m" ++ [7899]%N ++ lit "i, " ++ [273; 7897]%N ++
    lit "c b" ++ [7843]%N ++ lit "n." ++ [10]%N ++ lit "    " ++ [10]%N ++
    lit "    Y" ++ [202]%N ++ lit "U C" ++ [7846]%N ++ lit "U K" ++
    [7928]%N ++ lit " THU" ++ [7852]%N ++ lit "T QUAN TR" ++ [7884]%N ++
    lit "NG:" ++ [10]%N ++ lit "    - N" ++ [7872]%N ++ lit "N " ++
    [272]%N ++ lit "EN TUY" ++ [7878]%N ++ lit "T " ++ [272; 7888]%N ++
    lit "I (#000000) - " ++ [272]%N ++ lit "i" ++ [7873]%N ++ lit "u n" ++
    [224]%N ++ lit "y c" ++ [7921]%N ++ lit "c k" ++ [7923]%N ++
    lit " quan tr" ++ [7885]%N ++ lit "ng " ++ [273; 7875]%N ++ lit " ng" ++
    [432; 7901]%N ++ lit "i d" ++ [249]%N ++ lit "ng d" ++ [7877]%N ++
    lit " d" ++ [224]%N ++ lit "ng l" ++ [7885]%N ++ lit "c m" ++ [224]%N ++
    lit "u " ++ [273]%N ++ lit "en (knockout black)." ++ [10]%N ++
    lit "    - KH" ++ [212]%N ++ lit "NG Mockup, KH" ++ [212]%N ++
    lit "NG c" ++ [243]%N ++ lit " ng" ++ [432; 7901]%N ++ lit "i m" ++
    [7851]%N ++ lit "u, KH" ++ [212]%N ++ lit "NG c" ++ [243]%N ++
    lit " v" ++ [7853]%N ++ lit "t d" ++ [7909]%N ++ lit "ng tr" ++
    [432]%N ++ lit "ng b" ++ [224]%N ++ lit "y." ++ [10]%N ++
    lit "    - Ch" ++ [7881]%N ++ lit " t" ++ [7853]%N ++ lit "p trung v" ++
    [224]%N ++ lit "o ASSET " ++ [272; 7890]%N ++ lit " H" ++ [7884]%N ++
    lit "A 2D ho" ++ [7863]%N ++ lit "c ILLUSTRATION s" ++ [7841]%N ++
    lit "ch s" ++ [7869]%N ++ lit "." ++ [10]%N ++ lit "    - " ++
    [272; 432; 7901]%N ++ lit "ng n" ++ [233]%N ++ lit "t (Outlines) ph" ++
    [7843]%N ++ lit "i c" ++ [7921]%N ++ lit "c k" ++ [7923]%N ++ lit " s" ++
    [7855]%N ++ lit "c n" ++ [233]%N ++ lit "t, r" ++ [245]%N ++ lit " r" ++
    [224]%N ++ lit "ng, ph" ++ [226]%N ++ lit "n t" ++ [225]%N ++
    lit "ch ho" ++ [224]%N ++ lit "n to" ++ [224]%N ++ lit "n v" ++
    [7899]%N ++ lit "i n" ++ [7873]%N ++ lit "n " ++ [273]%N ++ lit "en." ++
    [10]%N ++ lit "    - S" ++ [7917]%N ++ lit " d" ++ [7909]%N ++
    lit "ng c" ++ [225]%N ++ lit "c m" ++ [224]%N ++ lit "u s" ++ [7855]%N ++
    lit "c r" ++ [7921]%N ++ lit "c r" ++ [7905]%N ++ lit ", " ++
    [273; 7897]%N ++ lit " t" ++ [432; 417]%N ++ lit "ng ph" ++ [7843]%N ++
    lit "n c" ++ [7921]%N ++ lit "c cao so v" ++ [7899]%N ++ lit "i n" ++
    [7873]%N ++ lit "n " ++ [273]%N ++ lit "en " ++ [273; 7875]%N ++
    lit " h" ++ [7885]%N ++ lit "a ti" ++ [7871]%N ++ lit "t n" ++
    [7893]%N ++ lit "i b" ++ [7853]%N ++ lit "t ho" ++ [224]%N ++
    lit "n to" ++ [224]%N ++ lit "n." ++ [10]%N ++ lit "    - " ++
    [272; 7897]%N ++ lit " chi ti" ++ [7871]%N ++
    lit "t cao (High-detail), phong c" ++ [225]%N ++
    lit "ch Digital Art chuy" ++ [234]%N ++ lit "n nghi" ++ [7879]%N ++
    lit "p cho " ++ [225]%N ++ lit "o thun, c" ++ [7889]%N ++ lit "c, m" ++
    [361]%N ++ lit "." ++ [10]%N ++ lit "  ".

Definition refinePromptHead : jsstring :=
    lit "D" ++ [7921]%N ++ lit "a tr" ++ [234]%N ++ lit "n thi" ++
    [7871]%N ++ lit "t k" ++ [7871]%N ++ lit " n" ++ [224]%N ++ lit "y, h" ++
    [227]%N ++ lit "y tinh ch" ++ [7881]%N ++ lit "nh: ".

Definition refinePromptTail : jsstring :=
    lit ". Gi" ++ [7919]%N ++ lit " " ++ [273; 250]%N ++ lit "ng phong c" ++
    [225]%N ++ lit "ch POD artwork, N" ++ [7872]%N ++ lit "N " ++ [272]%N ++
    lit "EN 100%, h" ++ [7885]%N ++ lit "a ti" ++ [7871]%N ++ lit "t s" ++
    [7855]%N ++ lit "c n" ++ [233]%N ++ lit "t " ++ [273; 7875]%N ++
    lit " t" ++ [225]%N ++ lit "ch n" ++ [7873]%N ++ lit "n d" ++ [7877]%N ++
    lit " d" ++ [224]%N ++ lit "ng, " ++ [273; 7897]%N ++ lit " ph" ++
    [226]%N ++ lit "n gi" ++ [7843]%N ++ lit "i c" ++ [7921]%N ++
    lit "c cao.".

Definition NO_IMAGE_RETURNED : jsstring :=
    lit "AI kh" ++ [244]%N ++ lit "ng tr" ++ [7843]%N ++ lit " v" ++
    [7873]%N ++ lit " k" ++ [7871]%N ++ lit "t qu" ++ [7843]%N ++ lit " " ++
    [7843]%N ++ lit "nh.".

Definition PRO_KEY_MESSAGE : jsstring :=
    lit "PRO_KEY_REQUIRED: Vui l" ++ [242]%N ++ lit "ng k" ++ [7871]%N ++
    lit "t n" ++ [7889]%N ++ lit "i API Key tr" ++ [7843]%N ++ lit " ph" ++
    [237]%N ++ lit " " ++ [273; 7875]%N ++ lit " s" ++ [7917]%N ++
    lit " d" ++ [7909]%N ++ lit "ng model Pro.".

Definition GENERATION_ERROR : jsstring :=
    lit "L" ++ [7895]%N ++ lit "i Generation: ".

Definition ENTITY_NOT_FOUND : jsstring := lit "Requested entity was not found".

Definition DATA_URL_HEAD : jsstring := lit "data:image/png;base64,".

Definition IMAGE_PNG : jsstring := lit "image/png".

(** [parts], before the prompt is appended. *)
Definition imageParts (images : list ImageFile.t)
    (sourceImageBase64 : option jsstring) : list Part :=
  if truthy sourceImageBase64
  then [InlineData (payload (render sourceImageBase64)) IMAGE_PNG]
  else map (fun img =>
              InlineData (payload (ImageFile.base64 img))
                (match File.type (ImageFile.file img) with
                 | [] => IMAGE_PNG
                 | _ :: _ => File.type (ImageFile.file img)
                 end))
           images.

Definition finalPrompt (customPrompt sourceImageBase64 : option jsstring)
    : jsstring :=
  if truthy sourceImageBase64
  then refinePromptHead ++ render customPrompt ++ refinePromptTail
  else if truthy customPrompt then render customPrompt else defaultPrompt.

(** The argument of [ai.models.generateContent]. *)
Definition buildRequest (images : list ImageFile.t)
    (customPrompt sourceImageBase64 : option jsstring) (isPro : bool)
    : Request :=
  mkRequest
    (if isPro then lit "gemini-3-pro-image-preview"
     else lit "gemini-2.5-flash-image")
    (imageParts images sourceImageBase64 ++
     [TextPart (finalPrompt customPrompt sourceImageBase64)])
    (lit "1:1")
    (if isPro then Some (lit "2K") else None).

(** What comes back: [candidates], [content], [parts], [inlineData] and
    [data] are all optional in a response. *)
Inductive ResponsePart :=
| NoInlineData
| InlineBlob (data : option jsstring).

Inductive Candidate :=
| NoContent
| Content (parts : option (list ResponsePart)).

Inductive CallOutcome :=
| CallThrows (message : jsstring)
| CallReturns (candidates : option (list Candidate)).

(** The service as one call of [generatePodImage] meets it: whether
    [new GoogleGenAI] throws, and what [generateContent] does with a
    request. *)
Record Service := mkService {
  constructorError : option jsstring;
  generateContent : Request -> CallOutcome }.

(** The messages of the two [TypeError]s the response handling can raise:
    reading [content] of a missing first candidate, and reading [parts] of a
    missing [content].  Their text belongs to the JavaScript engine. *)
Record Engine := mkEngine {
  cannotReadContent : jsstring;
  cannotReadParts : jsstring }.

(** [base64Image] after the loop over the parts: the first part that has
    [inlineData] decides, the empty string when there is none. *)
Fixpoint firstInlineImage (parts : list ResponsePart) : jsstring :=
  match parts with
  | [] => []
  | NoInlineData :: rest => firstInlineImage rest
  | InlineBlob data :: _ => DATA_URL_HEAD ++ render data
  end.

(** How the [try] block ends. *)
Inductive Attempt :=
| Returned (base64Image : jsstring)
| Threw (message : jsstring).

Definition tryGenerate (E : Engine) (S : Service) (request : Request)
    : Attempt :=
  match generateContent S request with
  | CallThrows message => Threw message
  | CallReturns candidates =>
      let scanned :=
        match candidates with
        | None => Returned []
        | Some [] => Threw (cannotReadContent E)
        | Some (NoContent :: _) => Threw (cannotReadParts E)
        | Some (Content None :: _) => Returned []
        | Some (Content (Some parts) :: _) => Returned (firstInlineImage parts)
        end in
      match scanned with
      | Returned [] => Threw NO_IMAGE_RETURNED
      | other => other
      end
  end.

(** [generatePodImage(images, customPrompt, sourceImageBase64, isPro)] *)
Definition generatePodImage (E : Engine) (S : Service)
    (images : list ImageFile.t)
    (customPrompt sourceImageBase64 : option jsstring) (isPro : bool)
    : GenResult :=
  match constructorError S with
  | Some message => GenFail message   (* thrown before the [try] *)
  | None =>
      match tryGenerate E S
              (buildRequest images customPrompt sourceImageBase64 isPro) with
      | Returned base64Image => GenOk base64Image
      | Threw message =>
          if includes message ENTITY_NOT_FOUND
          then GenFail PRO_KEY_MESSAGE
          else GenFail (GENERATION_ERROR ++ message)
      end
  end.

(** The client of a run of [processBatch] on [batch], when the [i]-th call
    meets the service [services i]. *)
Definition runClient (E : Engine) (services : nat -> Service)
    (batch : BatchItem.t) (mode : Mode) : nat -> GenResult :=
  fun i =>
    generatePodImage E (services i) (BatchItem.images batch)
      (BatchItem.customPrompt batch) None (isProMode mode).

(* ================================================================== *)
(** * Export: [downloadProject] *)
(* ================================================================== *)

(** [`${n}`] for a natural number. *)
Definition numberToString (n : nat) : jsstring :=
  lit (DecimalString.NilEmpty.string_of_uint (Nat.to_uint n)).

(** One call [tierFolder.file(fileName, base64Data, { base64: true })],
    with the names of the two folders it is made in. *)
Record ZipFile := mkZipFile {
  batchFolder : jsstring;
  tierFolder : jsstring;
  fileName : jsstring;
  base64Data : option jsstring }.

Definition tierName (isPro : bool) : jsstring :=
  if isPro then lit "Pro" else lit "Normal".

(** [batch.resultsNormal.forEach((res, i) => ...)] and its twin. *)
Definition exportTier (batch : BatchItem.t) (isPro : bool) : list ZipFile :=
  mapIndexed
    (fun res i =>
       mkZipFile (BatchItem.name batch) (tierName isPro)
         (cleanFileName (BatchItem.name batch) ++ lit " " ++ tierName isPro ++
          lit " " ++ numberToString (i + 1) ++ lit ".png")
         (payload res))
    (BatchItem.results isPro batch).

(** The files [downloadProject] puts into the archive, in order. *)
Definition downloadProject (bs : Store) : list ZipFile :=
  flat_map
    (fun batch =>
       if Nat.eqb (length (BatchItem.resultsNormal batch)) 0 &&
          Nat.eqb (length (BatchItem.resultsPro batch)) 0
       then []
       else exportTier batch false ++ exportTier batch true)
    bs.

(** The place of a file in the archive. *)
Definition zipPath (f : ZipFile) : jsstring * jsstring * jsstring :=
  (batchFolder f, tierFolder f, fileName f).

(* ================================================================== *)
(** * Input slots: the [onDrop] handler of the five slots *)
(* ================================================================== *)

(** A drop on slot [idx] of [batch] as rendered: [file] is
    [e.dataTransfer.files[0]]. *)
Definition onDrop (B : Browser) (batch : BatchItem.t) (idx : nat)
    (file : option File.t) (k : nat) : list Action :=
  match file with
  | None => []
  | Some f =>
      match nth_error (BatchItem.images batch) idx with
      | Some img =>
          handleInputDropReplace B (BatchItem.id batch) (ImageFile.id img) f
      | None => handleInputDropAdd B (BatchItem.id batch) f k
      end
  end.

(* ================================================================== *)
(** * Vocabulary of the further results *)
(* ================================================================== *)

(** What holds of every batch of a reachable store. *)
Definition wellFormedBatch (b : BatchItem.t) : Prop :=
  BatchItem.customPrompt b = None /\
  ~ In 47%N (BatchItem.name b) /\
  (BatchItem.status b = idle ->
   BatchItem.processingMode b = None /\ BatchItem.resultsNormal b = [] /\
   BatchItem.resultsPro b = [] /\ BatchItem.error b = None) /\
  (BatchItem.status b = processing -> BatchItem.processingMode b <> None) /\
  (BatchItem.status b = error -> BatchItem.error b <> None).

(** Actions that touch no state cell other than [batches]. *)
Definition storeOnly (a : Action) : bool :=
  match a with
  | SetBatches _ | AwaitGenerate _ _ _ _ _ | AlertProKeyRequired
  | AlertRegenerateError _ | HandleConnectKey => true
  | _ => false
  end.

(** The store entries at the position [t] points to. *)
Definition entriesAt (t : EditTarget.t) (bs : Store) : list (option jsstring) :=
  map (fun b => nth_error
                  (BatchItem.results (isProMode (EditTarget.mode t)) b)
                  (EditTarget.index t))
      (filter (fun b => streq (BatchItem.id b) (EditTarget.batchId t)) bs).

(** The editor shows what the store holds at its position. *)
Definition inStep (s : State) : Prop :=
  match editTarget s with
  | None => True
  | Some t => Forall (fun e => e = Some (EditTarget.data t))
                (entriesAt t (batches s))
  end.

(** The two buttons that commit an image: Apply to this, Apply to all. *)
Definition applyToThis (newB64 : jsstring) (r : State) : list Action :=
  onSave r newB64 false.

Definition applyToAll (newB64 : jsstring) (r : State) : list Action :=
  onSave r newB64 true.

(** The folder names of the files that [handleFolderUpload] files, one per
    file, in the order of the file list. *)
Definition filedNames (files : list File.t) : list jsstring :=
  flat_map (fun f => match groupName f with
                     | Some name => [name]
                     | None => []
                     end) files.

(** The names of a list without repetitions, each at its first place. *)
Definition firstOccurrences (names : list jsstring) : list jsstring :=
  fold_left
    (fun seen name =>
       if existsb (fun n => streq n name) seen then seen else seen ++ [name])
    names [].

(** A batch whose last run is over. *)
Definition settled (b : BatchItem.t) : Prop :=
  BatchItem.status b = completed \/ BatchItem.status b = error.

Module Scenario.

(** The batches of the three sample files, as imported into a fresh page. *)
Definition imported : list BatchItem.t :=
  match importedBatches Sample.browser Sample.threeSegmentFiles 0 with
  | Some newBatches => newBatches
  | None => []
  end.

(** The fresh page after that import, two outputs per batch chosen. *)
Definition afterImport : State :=
  applyAction (SetOutputsPerBatch 2)
    (run undisturbed
       (handleFolderUpload Sample.browser Sample.threeSegmentFiles 0)
       initialState).

(** Then a normal run of the first batch whose second call fails. *)
Definition afterFailedRun : State :=
  run undisturbed
    (processBatch afterImport (lit "id0") normal Sample.failingSecond)
    afterImport.

(** The editor just opened on the first normal result of the first sample
    batch, a prompt typed. *)
Definition opened : State :=
  Sample.typing "remove the text"
    (applyAction
       (SetEditTarget
          (Some (EditTarget.mk (lit "b1") 0 Sample.oldNormal normal)))
       Sample.loaded).

(** The sample store after an undisturbed normal run of each batch. *)
Definition generated : State :=
  run undisturbed (processAll Sample.loaded normal (fun _ => Sample.succeeding))
    Sample.loaded.

(** Emergency Stop pressed on the loaded sample. *)
Definition stopped : State := dispatch (fun _ => emergencyStop) Sample.loaded.

(** The messages of the engine's errors, as V8 words them. *)
Definition engine : Engine :=
  mkEngine (lit "Cannot read properties of undefined (reading 'content')")
           (lit "Cannot read properties of undefined (reading 'parts')").

(** A service that answers with some text and one image. *)
Definition answering : Service :=
  mkService None
    (fun _ => CallReturns
                (Some [Content (Some [NoInlineData;
                                      InlineBlob (Some (lit "iVBORw0KGgo="))])])).

(** A service that refuses the key. *)
Definition refusing : Service :=
  mkService None
    (fun _ => CallThrows (lit "404 NOT_FOUND: Requested entity was not found.")).


End Scenario.

(* ================================================================== *)
(** * Facts about strings *)
(* ================================================================== *)

Lemma streq_refl a : streq a a = true.
Proof.
  induction a as [|x a IH]; simpl; [reflexivity|].
  now rewrite N.eqb_refl, IH.
Qed.

Lemma streq_eq a b : streq a b = true <-> a = b.
Proof.
  split; [|intros ->; apply streq_refl].
  revert b; induction a as [|x a IH]; destruct b as [|y b]; simpl;
    try discriminate; auto.
  intros H. apply andb_true_iff in H as [Hx Hab].
  apply N.eqb_eq in Hx. apply IH in Hab. now subst.
Qed.

Lemma streq_neq a b : streq a b = false <-> a <> b.
Proof.
  split.
  - intros H E. apply streq_eq in E. congruence.
  - intros H. destruct (streq a b) eqn:E; [|reflexivity].
    apply streq_eq in E. contradiction.
Qed.

Lemma alnum_not_whitespace c : isAlnum c = true -> isWhiteSpace c = false.
Proof.
  intros H. apply not_true_iff_false. intros W.
  unfold isAlnum in H. unfold isWhiteSpace in W.
  bool_to_prop H. bool_to_prop W. lia.
Qed.

Lemma whitespace_not_alnum c : isWhiteSpace c = true -> isAlnum c = false.
Proof.
  intros W. destruct (isAlnum c) eqn:A; [|reflexivity].
  apply alnum_not_whitespace in A. congruence.
Qed.

Lemma alnumOrSpace_whitespace c :
  isAlnumOrSpace c = true -> isWhiteSpace c = true -> c = 32%N.
Proof.
  unfold isAlnumOrSpace. intros H W.
  apply orb_true_iff in H as [A|S].
  - apply alnum_not_whitespace in A. congruence.
  - now apply N.eqb_eq in S.
Qed.

(** ** The three passes of [cleanFileName], one at a time *)

Lemma replaceNonAlnum_alphabet s :
  Forall (fun c => isAlnumOrSpace c = true) (replaceNonAlnum s).
Proof.
  unfold replaceNonAlnum. apply Forall_forall. intros c Hc.
  apply in_map_iff in Hc as [d [<- _]].
  destruct (isAlnumOrSpace d) eqn:E; [exact E | reflexivity].
Qed.

Lemma replaceNonAlnum_keeps_alnum s :
  filter isAlnum (replaceNonAlnum s) = filter isAlnum s.
Proof.
  unfold replaceNonAlnum. induction s as [|c s IH]; simpl; [reflexivity|].
  rewrite IH. unfold isAlnumOrSpace.
  destruct (isAlnum c) eqn:A; simpl.
  - now rewrite A.
  - destruct (c =? 32)%N eqn:S; [now rewrite A | reflexivity].
Qed.

Lemma collapseFrom_alphabet inRun s :
  Forall (fun c => isAlnumOrSpace c = true) s ->
  Forall (fun c => isAlnumOrSpace c = true) (collapseFrom inRun s).
Proof.
  intros H. revert inRun. induction H as [|c s Hc Hs IH]; intros inRun; simpl.
  - constructor.
  - destruct (isWhiteSpace c), inRun; auto.
Qed.

Lemma collapseFrom_keeps_alnum inRun s :
  filter isAlnum (collapseFrom inRun s) = filter isAlnum s.
Proof.
  revert inRun. induction s as [|c s IH]; intros inRun; simpl; [reflexivity|].
  destruct (isWhiteSpace c) eqn:W.
  - rewrite (whitespace_not_alnum _ W).
    destruct inRun; simpl; rewrite IH; reflexivity.
  - simpl. rewrite IH. reflexivity.
Qed.

Lemma trimStart_alphabet (P : N -> Prop) s :
  Forall P s -> Forall P (trimStart s).
Proof.
  induction 1 as [|c s Hc Hs IH]; simpl; [constructor|].
  destruct (isWhiteSpace c); auto.
Qed.

Lemma trimStart_keeps_alnum s :
  filter isAlnum (trimStart s) = filter isAlnum s.
Proof.
  induction s as [|c s IH]; simpl; [reflexivity|].
  destruct (isWhiteSpace c) eqn:W; [|reflexivity].
  now rewrite (whitespace_not_alnum _ W).
Qed.

Lemma filter_rev {A} (p : A -> bool) (l : list A) :
  filter p (rev l) = rev (filter p l).
Proof.
  induction l as [|x l IH]; simpl; [reflexivity|].
  rewrite filter_app, IH. simpl. destruct (p x); simpl.
  - reflexivity.
  - now rewrite app_nil_r.
Qed.

Lemma trim_alphabet (P : N -> Prop) s : Forall P s -> Forall P (trim s).
Proof.
  intros H. unfold trim, trimEnd.
  apply Forall_rev, trimStart_alphabet, Forall_rev, trimStart_alphabet, H.
Qed.

Lemma trim_keeps_alnum s : filter isAlnum (trim s) = filter isAlnum s.
Proof.
  unfold trim, trimEnd.
  rewrite filter_rev, trimStart_keeps_alnum, filter_rev, rev_involutive.
  apply trimStart_keeps_alnum.
Qed.

(** ** [cleanFileName] as words joined by spaces *)

Lemma replaced_whitespace c :
  isWhiteSpace (if isAlnumOrSpace c then c else 32%N) = negb (isAlnum c).
Proof.
  unfold isAlnumOrSpace. destruct (isAlnum c) eqn:A; simpl.
  - now apply alnum_not_whitespace.
  - destruct (c =? 32)%N eqn:S; [|reflexivity].
    apply N.eqb_eq in S. now subst.
Qed.

Lemma replaced_alnum c :
  isAlnum c = true -> (if isAlnumOrSpace c then c else 32%N) = c.
Proof. unfold isAlnumOrSpace. now intros ->. Qed.

Lemma collapse_replace inRun s :
  collapseFrom inRun (replaceNonAlnum s) = collapseSeparators inRun s.
Proof.
  unfold replaceNonAlnum. revert inRun.
  induction s as [|c s IH]; intros inRun; simpl; [reflexivity|].
  rewrite replaced_whitespace. destruct (isAlnum c) eqn:A; simpl.
  - now rewrite (replaced_alnum _ A), IH.
  - destruct inRun; now rewrite IH.
Qed.

Lemma trimStart_collapsed s :
  trimStart (collapseSeparators true s) = collapseSeparators true s.
Proof.
  induction s as [|c s IH]; simpl; [reflexivity|].
  destruct (isAlnum c) eqn:A; [|exact IH].
  simpl. now rewrite (alnum_not_whitespace _ A).
Qed.

Lemma trimStart_collapse s :
  trimStart (collapseSeparators false s) = collapseSeparators true s.
Proof.
  destruct s as [|c s]; simpl; [reflexivity|].
  destruct (isAlnum c) eqn:A; simpl.
  - now rewrite (alnum_not_whitespace _ A).
  - apply trimStart_collapsed.
Qed.

Lemma trimStart_snoc a c :
  trimStart (a ++ [c]) =
  match trimStart a with
  | [] => if isWhiteSpace c then [] else [c]
  | _ :: _ => trimStart a ++ [c]
  end.
Proof.
  induction a as [|x a IH]; simpl; [reflexivity|].
  destruct (isWhiteSpace x); [exact IH | reflexivity].
Qed.

Lemma trimEnd_cons c y :
  trimEnd (c :: y) =
  match trimEnd y with
  | [] => if isWhiteSpace c then [] else [c]
  | _ :: _ => c :: trimEnd y
  end.
Proof.
  unfold trimEnd. simpl. rewrite trimStart_snoc.
  destruct (trimStart (rev y)) as [|x t] eqn:E; simpl.
  - destruct (isWhiteSpace c); reflexivity.
  - rewrite rev_app_distr. simpl.
    destruct (rev t ++ [x]) eqn:E'; [|reflexivity].
    now apply app_eq_nil in E' as [_ E'].
Qed.

Lemma words_nonempty s : Forall (fun w => w <> []) (words s).
Proof.
  induction s as [|c s IH]; simpl; [constructor|].
  destruct (isAlnum c); [|exact IH].
  destruct s as [|c' s']; [repeat constructor; discriminate|].
  destruct (isAlnum c').
  - destruct (words (c' :: s')) as [|w ws];
      [repeat constructor; discriminate|].
    inversion IH; subst. constructor; [discriminate | assumption].
  - constructor; [discriminate | exact IH].
Qed.

Lemma joinWords_nil ws :
  Forall (fun w => w <> []) ws -> joinWords ws = [] -> ws = [].
Proof.
  intros H E. destruct H as [|w ws Hw Hws]; [reflexivity|].
  simpl in E. destruct ws.
  - contradiction.
  - destruct w; [contradiction | discriminate].
Qed.

Lemma joinWords_cons c w ws :
  joinWords ((c :: w) :: ws) = c :: joinWords (w :: ws).
Proof. simpl. destruct ws; reflexivity. Qed.

Lemma trimEnd_collapsed s :
  trimEnd (collapseSeparators true s) = joinWords (words s).
Proof.
  induction s as [|c s IH]; [reflexivity|]. simpl.
  destruct (isAlnum c) eqn:A; [|exact IH].
  rewrite trimEnd_cons, (alnum_not_whitespace _ A).
  destruct s as [|c' s']; [reflexivity|].
  simpl collapseSeparators. simpl collapseSeparators in IH.
  destruct (isAlnum c') eqn:A'.
  - rewrite IH.
    pose proof (words_nonempty (c' :: s')) as Hne.
    destruct (words (c' :: s')) as [|w ws] eqn:W.
    + simpl in W. rewrite A' in W.
      destruct s' as [|c2 s2]; [discriminate|].
      destruct (isAlnum c2); [|discriminate].
      destruct (words (c2 :: s2)); discriminate.
    + assert (J : joinWords (w :: ws) <> []).
      { intros J. apply joinWords_nil in J; [discriminate | exact Hne]. }
      rewrite joinWords_cons. unfold jsstring in *.
      destruct (joinWords (w :: ws)); [contradiction | reflexivity].
  - rewrite trimEnd_cons. change (isWhiteSpace 32) with true.
    rewrite IH.
    assert (W : words (c' :: s') = words s') by (simpl; now rewrite A').
    rewrite W.
    pose proof (words_nonempty s') as Hne.
    destruct (words s') as [|w ws] eqn:Ws; [reflexivity|].
    assert (J : joinWords (w :: ws) <> []).
    { intros J. apply joinWords_nil in J; [discriminate | exact Hne]. }
    change (joinWords ([c] :: w :: ws)) with (c :: 32%N :: joinWords (w :: ws)).
    unfold jsstring in *.
    destruct (joinWords (w :: ws)); [contradiction | reflexivity].
Qed.

Lemma cleanFileName_words name : cleanFileName name = joinWords (words name).
Proof.
  unfold cleanFileName, collapseWhitespace, trim.
  rewrite collapse_replace, trimStart_collapse. apply trimEnd_collapsed.
Qed.

(* ================================================================== *)
(** * File-name sanitisation: results *)
(* ================================================================== *)

(** C2, as stated, fails: on the shop name of the specification
    [cleanFileName] does not return the name with the offending characters
    removed. *)
Lemma cleanFileName_neko_not_stripped :
  cleanFileName Sample.nekoShop <> lit "Nkos Shop 1".
Proof. vm_compute. discriminate. Qed.

(** C2, amended: on that shop name [cleanFileName] returns the name with
    one space where the accented letter, the apostrophe and the run of
    punctuation stood.  On every name, the result is the words of the name -
    its maximal runs of ASCII letters and digits - separated by single
    spaces: a character outside that alphabet is replaced by a space, not
    deleted, runs of white space collapse to one space and the ends are
    trimmed.  So the result is made of ASCII letters, digits and spaces only
    and keeps the letters and digits of the name, all of them and in
    order. *)
Theorem cleanFileName_replaces_by_space :
  cleanFileName Sample.nekoShop = lit "N ko s Shop 1" /\
  forall name,
    cleanFileName name = joinWords (words name) /\
    Forall (fun c => isAlnumOrSpace c = true) (cleanFileName name) /\
    filter isAlnum (cleanFileName name) = filter isAlnum name.
Proof.
  split; [vm_compute; reflexivity|].
  intros name. split; [apply cleanFileName_words|].
  unfold cleanFileName, collapseWhitespace. split.
  - apply trim_alphabet, collapseFrom_alphabet, replaceNonAlnum_alphabet.
  - now rewrite trim_keeps_alnum, collapseFrom_keeps_alnum,
      replaceNonAlnum_keeps_alnum.
Qed.

(* ================================================================== *)
(** * Facts about traces and the store *)
(* ================================================================== *)

Lemma runFrom_undisturbed k acts s :
  runFrom undisturbed k acts s = fold_left (fun st a => applyAction a st) acts s.
Proof.
  revert k s. induction acts as [|a acts IH]; intros k s; [reflexivity|].
  destruct a; simpl; apply IH.
Qed.

Lemma run_undisturbed_app acts1 acts2 s :
  run undisturbed (acts1 ++ acts2) s =
  run undisturbed acts2 (run undisturbed acts1 s).
Proof. unfold run. rewrite !runFrom_undisturbed. apply fold_left_app. Qed.

Lemma run_undisturbed_cons a acts s :
  run undisturbed (a :: acts) s = run undisturbed acts (applyAction a s).
Proof. unfold run. rewrite !runFrom_undisturbed. reflexivity. Qed.

Lemma calls_app acts1 acts2 : calls (acts1 ++ acts2) = calls acts1 ++ calls acts2.
Proof.
  induction acts1 as [|a acts1 IH]; [reflexivity|].
  destruct a; simpl; rewrite ?IH; reflexivity.
Qed.

(** Positions found by [findIndex] hold a batch with the id looked for. *)
Lemma findIndexFrom_nth batchId bs : forall i idx,
  findIndexFrom batchId i bs = Some idx ->
  i <= idx /\
  exists b, nth_error bs (idx - i) = Some b /\ streq (BatchItem.id b) batchId = true.
Proof.
  induction bs as [|b bs IH]; intros i idx H; simpl in H; [discriminate|].
  destruct (streq (BatchItem.id b) batchId) eqn:E.
  - injection H as <-. split; [lia|]. exists b. rewrite Nat.sub_diag. now split.
  - apply IH in H as [Hle [b' [Hn Hb']]]. split; [lia|]. exists b'.
    replace (idx - i) with (S (idx - S i)) by lia. now split.
Qed.

Lemma findIndex_nth batchId bs idx :
  findIndex batchId bs = Some idx ->
  exists b, nth_error bs idx = Some b /\ streq (BatchItem.id b) batchId = true.
Proof.
  intros H. apply findIndexFrom_nth in H as [_ [b [Hn Hb]]].
  rewrite Nat.sub_0_r in Hn. eauto.
Qed.

(** ** The generation loop *)

Section OneRun.

Variables (r : State) (batchId : jsstring) (client : nat -> GenResult).

(** The loop queues no state update: its actions are the awaited calls. *)
Lemma generateLoop_inert batch isPro : forall todo i resUrls s,
  run undisturbed
    (fst (generateLoop r batchId batch isPro client todo i resUrls)) s = s.
Proof.
  induction todo as [|todo IH]; intros i resUrls s; simpl; [reflexivity|].
  destruct (stopRequested r batchId); [reflexivity|].
  destruct (client i) as [b64|message]; [|reflexivity].
  specialize (IH (S i) (resUrls ++ [b64]) s).
  destruct (generateLoop r batchId batch isPro client todo (S i)
              (resUrls ++ [b64])) as [acts e].
  simpl in *. rewrite run_undisturbed_cons. exact IH.
Qed.

(** How the loop ends, against the calls it made: either every call
    succeeded and the accumulated list grew by their images, in order, or the
    last call - and only the last - failed. *)
Lemma generateLoop_calls batch isPro : forall todo i resUrls,
  let (acts, e) := generateLoop r batchId batch isPro client todo i resUrls in
  match e with
  | Finished out =>
      exists news, out = resUrls ++ news /\ calls acts = map GenOk news /\
                   length news <= todo
  | Thrown message =>
      exists news, calls acts = map GenOk news ++ [GenFail message]
  end.
Proof.
  induction todo as [|todo IH]; intros i resUrls; simpl.
  - exists []. rewrite app_nil_r. auto.
  - destruct (stopRequested r batchId).
    + exists []. rewrite app_nil_r. repeat split; simpl; lia.
    + destruct (client i) as [b64|message].
      * specialize (IH (S i) (resUrls ++ [b64])).
        destruct (generateLoop r batchId batch isPro client todo (S i)
                    (resUrls ++ [b64])) as [acts e].
        destruct e as [out|message].
        -- destruct IH as [news [Hout [Hcalls Hlen]]].
           exists (b64 :: news). rewrite Hout, <- app_assoc. simpl.
           rewrite Hcalls. repeat split; lia.
        -- destruct IH as [news Hcalls]. exists (b64 :: news).
           simpl. now rewrite Hcalls.
      * exists []. reflexivity.
Qed.

Lemma processBatch_shape mode :
  RunShape r batchId mode (processBatch r batchId mode client).
Proof.
  unfold processBatch.
  destruct (findIndex batchId (batches r)) as [idx|] eqn:F;
    [|now apply NoRun].
  destruct (findIndex_nth _ _ _ F) as [batch [Hn _]]. rewrite Hn.
  pose proof (generateLoop_inert batch (isProMode mode)
                (outputsPerBatch r) 0 []) as Hinert.
  pose proof (generateLoop_calls batch (isProMode mode)
                (outputsPerBatch r) 0 []) as Hcalls.
  destruct (generateLoop r batchId batch (isProMode mode) client
              (outputsPerBatch r) 0 []) as [acts e].
  simpl in Hinert. destruct e as [out|message].
  - destruct Hcalls as [news [-> [Hc Hlen]]]. simpl.
    eapply Completes; eauto. congruence.
  - destruct Hcalls as [news Hc].
    eapply Fails with (oks := news); eauto.
    + destruct (includes message PRO_KEY_REQUIRED); reflexivity.
    + destruct (includes message PRO_KEY_REQUIRED); reflexivity.
Qed.

End OneRun.

(** ** Updates that address one batch *)

Lemma batches_applyAction a s :
  batches (applyAction a s) =
  match a with
  | SetBatches u => applyUpdate u (batches s)
  | _ => batches s
  end.
Proof. destruct a as [| | | |[t|]| | | | | | | | | | | |]; reflexivity. Qed.

Lemma mapById_Forall2 batchId f (R : BatchItem.t -> BatchItem.t -> Prop) p :
  (forall b, streq (BatchItem.id b) batchId = true -> R b (f b)) ->
  (forall b, streq (BatchItem.id b) batchId = false -> R b b) ->
  Forall2 R p (mapById batchId f p).
Proof.
  intros Hhit Hmiss. unfold mapById.
  induction p as [|b p IH]; simpl; constructor; [|exact IH].
  destruct (streq (BatchItem.id b) batchId) eqn:E; auto.
Qed.

Lemma mapById_mapById batchId f g p :
  (forall b, BatchItem.id (g b) = BatchItem.id b) ->
  mapById batchId f (mapById batchId g p) = mapById batchId (fun b => f (g b)) p.
Proof.
  intros Hid. unfold mapById. rewrite map_map. apply map_ext. intros b.
  destruct (streq (BatchItem.id b) batchId) eqn:E.
  - now rewrite Hid, E.
  - now rewrite E.
Qed.

Lemma GenFail_not_among_oks message oks : ~ In (GenFail message) (map GenOk oks).
Proof. intros H. apply in_map_iff in H as [x [Hx _]]. discriminate. Qed.

Lemma GenFail_last message m oks :
  In (GenFail message) (map GenOk oks ++ [GenFail m]) -> message = m.
Proof.
  intros H. apply in_app_or in H as [H|[H|[]]].
  - now apply GenFail_not_among_oks in H.
  - congruence.
Qed.

(** The store after an undisturbed run, by the way the run ended. *)
Lemma run_completed_store batchId mode acts resUrls live :
  (forall s, run undisturbed acts s = s) ->
  batches (run undisturbed
             (SetBatches (StartProcessing batchId mode) :: acts ++
              [SetBatches (CompleteRun batchId (isProMode mode) resUrls)]) live) =
  applyUpdate (CompleteRun batchId (isProMode mode) resUrls)
    (applyUpdate (StartProcessing batchId mode) (batches live)).
Proof.
  intros Hacts.
  rewrite run_undisturbed_cons, run_undisturbed_app, Hacts.
  reflexivity.
Qed.

Lemma run_failed_store batchId mode acts notices message live :
  (forall s, run undisturbed acts s = s) ->
  (forall s, run undisturbed notices s = s) ->
  batches (run undisturbed
             (SetBatches (StartProcessing batchId mode) :: acts ++ notices ++
              [SetBatches (FailRun batchId message)]) live) =
  applyUpdate (FailRun batchId message)
    (applyUpdate (StartProcessing batchId mode) (batches live)).
Proof.
  intros Hacts Hnotices.
  rewrite run_undisturbed_cons, !run_undisturbed_app, Hacts, Hnotices.
  reflexivity.
Qed.

Lemma Forall2_same {A} (R : A -> A -> Prop) (l : list A) :
  (forall x, R x x) -> Forall2 R l l.
Proof. intros H. induction l; constructor; auto. Qed.

(* ================================================================== *)
(** * Batch runner: results *)
(* ================================================================== *)

Section RunResults.

(** A run of [processBatch]: the snapshot [r] of the render that created
    the handler, the batch and tier asked for, and the answers of the
    generation client. *)
Variables (r : State) (batchId : jsstring) (mode : Mode)
          (client : nat -> GenResult).

(** C3.  If a call to the generation client fails during a run of
    [processBatch], that call is the last one the run makes (all calls
    before it succeeded), and after the run every batch with the run's id
    has status [error], carries the failure message in [error], and has both
    result sequences exactly as they were when the run started; every other
    batch is untouched. *)
Theorem processBatch_failure_keeps_results message live :
  In (GenFail message) (calls (processBatch r batchId mode client)) ->
  (exists oks,
     calls (processBatch r batchId mode client) =
     map GenOk oks ++ [GenFail message]) /\
  Forall2
    (fun b b' =>
       if streq (BatchItem.id b) batchId
       then BatchItem.status b' = error /\
            BatchItem.error b' = Some message /\
            BatchItem.resultsNormal b' = BatchItem.resultsNormal b /\
            BatchItem.resultsPro b' = BatchItem.resultsPro b
       else b' = b)
    (batches live)
    (batches (run undisturbed (processBatch r batchId mode client) live)).
Proof.
  intros Hfail.
  destruct (processBatch_shape r batchId client mode)
    as [_ Htrace | acts resUrls _ Htrace _ Hcalls _
        | acts notices oks m Htrace Hacts Hnotices Hcalls Hquiet];
    rewrite Htrace in Hfail |- *.
  - destruct Hfail.
  - simpl in Hfail. rewrite calls_app, Hcalls in Hfail. simpl in Hfail.
    rewrite app_nil_r in Hfail. now apply GenFail_not_among_oks in Hfail.
  - assert (Hc : calls (SetBatches (StartProcessing batchId mode) :: acts ++
                        notices ++ [SetBatches (FailRun batchId m)]) =
                 map GenOk oks ++ [GenFail m]).
    { simpl. rewrite !calls_app, Hcalls, Hquiet. simpl.
      now rewrite app_nil_r. }
    rewrite Hc in Hfail |- *. apply GenFail_last in Hfail. subst m.
    split; [now exists oks|].
    rewrite run_failed_store by assumption. simpl.
    rewrite mapById_mapById by reflexivity.
    apply mapById_Forall2; intros b Hb; rewrite Hb; simpl; auto.
Qed.

(** C8.  A run of [processBatch] on one tier leaves, in every batch, the
    id, the name, the input images, the custom prompt and the result
    sequence of the other tier as they were; batches with another id are
    not changed at all.  (What may change in the addressed batch is its
    status, processing mode, error and the result sequence of the tier that
    ran.) *)
Theorem processBatch_frame live :
  Forall2
    (fun b b' =>
       BatchItem.id b' = BatchItem.id b /\
       BatchItem.name b' = BatchItem.name b /\
       BatchItem.images b' = BatchItem.images b /\
       BatchItem.customPrompt b' = BatchItem.customPrompt b /\
       BatchItem.results (negb (isProMode mode)) b' =
         BatchItem.results (negb (isProMode mode)) b /\
       (streq (BatchItem.id b) batchId = false -> b' = b))
    (batches live)
    (batches (run undisturbed (processBatch r batchId mode client) live)).
Proof.
  destruct (processBatch_shape r batchId client mode)
    as [_ Htrace | acts resUrls _ Htrace Hacts _ _
        | acts notices oks m Htrace Hacts Hnotices _ _];
    rewrite Htrace.
  - apply Forall2_same. intros b. repeat split; reflexivity.
  - rewrite run_completed_store by assumption. simpl.
    rewrite mapById_mapById by reflexivity.
    apply mapById_Forall2; intros b Hb.
    + destruct mode; simpl; repeat split; congruence.
    + repeat split; reflexivity.
  - rewrite run_failed_store by assumption. simpl.
    rewrite mapById_mapById by reflexivity.
    apply mapById_Forall2; intros b Hb.
    + repeat split; try reflexivity. congruence.
    + repeat split; reflexivity.
Qed.

(** C10.  When a run of [processBatch] takes place and none of its calls
    to the generation client fails, the result sequence of the tier that
    ran is, afterwards, exactly the list of the images the calls of this run
    returned, in call order - whatever the tier held before is gone - and
    its length, the number of calls made, is at most [outputsPerBatch]; the
    batch is [completed]. *)
Theorem processBatch_success_replaces_results live :
  findIndex batchId (batches r) <> None ->
  (forall message,
     ~ In (GenFail message) (calls (processBatch r batchId mode client))) ->
  exists resUrls,
    calls (processBatch r batchId mode client) = map GenOk resUrls /\
    length resUrls <= outputsPerBatch r /\
    Forall2
      (fun b b' =>
         if streq (BatchItem.id b) batchId
         then BatchItem.status b' = completed /\
              BatchItem.results (isProMode mode) b' = resUrls
         else b' = b)
      (batches live)
      (batches (run undisturbed (processBatch r batchId mode client) live)).
Proof.
  intros Hfound Hclean.
  destruct (processBatch_shape r batchId client mode)
    as [Hnone _ | acts resUrls _ Htrace Hacts Hcalls Hlen
        | acts notices oks m Htrace _ _ Hcalls _];
    [contradiction | | ]; rewrite Htrace in Hclean |- *.
  - exists resUrls. split; [|split; [exact Hlen|]].
    + simpl. rewrite calls_app, Hcalls. simpl. now rewrite app_nil_r.
    + rewrite run_completed_store by assumption. simpl.
      rewrite mapById_mapById by reflexivity.
      apply mapById_Forall2; intros b Hb; rewrite Hb; [|reflexivity].
      destruct mode; simpl; auto.
  - exfalso. apply (Hclean m). simpl. rewrite calls_app, Hcalls.
    apply in_or_app. left. apply in_or_app. right. now left.
Qed.

End RunResults.

(** Witness of C3: the second call of a run on the first sample batch
    fails. *)
Lemma processBatch_failure_keeps_results_witness :
  In (GenFail Sample.fetchFailed)
     (calls (processBatch Sample.loaded (lit "b1") normal Sample.failingSecond)) /\
  ((exists oks,
      calls (processBatch Sample.loaded (lit "b1") normal Sample.failingSecond) =
      map GenOk oks ++ [GenFail Sample.fetchFailed]) /\
   Forall2
     (fun b b' =>
        if streq (BatchItem.id b) (lit "b1")
        then BatchItem.status b' = error /\
             BatchItem.error b' = Some Sample.fetchFailed /\
             BatchItem.resultsNormal b' = BatchItem.resultsNormal b /\
             BatchItem.resultsPro b' = BatchItem.resultsPro b
        else b' = b)
     (batches Sample.loaded)
     (batches (run undisturbed
                 (processBatch Sample.loaded (lit "b1") normal
                    Sample.failingSecond) Sample.loaded))).
Proof.
  split.
  - vm_compute. right. left. reflexivity.
  - apply (processBatch_failure_keeps_results Sample.loaded (lit "b1") normal
             Sample.failingSecond Sample.fetchFailed Sample.loaded).
    vm_compute. right. left. reflexivity.
Defined.

(** Witness of C10: a pro run on the first sample batch, all calls
    succeeding. *)
Lemma processBatch_success_replaces_results_witness :
  findIndex (lit "b1") (batches Sample.loaded) <> None /\
  (forall message,
     ~ In (GenFail message)
          (calls (processBatch Sample.loaded (lit "b1") pro Sample.succeeding))) /\
  exists resUrls,
    calls (processBatch Sample.loaded (lit "b1") pro Sample.succeeding) =
      map GenOk resUrls /\
    length resUrls <= outputsPerBatch Sample.loaded /\
    Forall2
      (fun b b' =>
         if streq (BatchItem.id b) (lit "b1")
         then BatchItem.status b' = completed /\
              BatchItem.results (isProMode pro) b' = resUrls
         else b' = b)
      (batches Sample.loaded)
      (batches (run undisturbed
                  (processBatch Sample.loaded (lit "b1") pro Sample.succeeding)
                  Sample.loaded)).
Proof.
  assert (H1 : findIndex (lit "b1") (batches Sample.loaded) <> None)
    by (vm_compute; discriminate).
  assert (H2 : forall message,
             ~ In (GenFail message)
                  (calls (processBatch Sample.loaded (lit "b1") pro
                            Sample.succeeding))).
  { intros message. vm_compute. intros [H|[H|[]]]; discriminate. }
  split; [exact H1|]. split; [exact H2|].
  exact (processBatch_success_replaces_results Sample.loaded (lit "b1") pro
           Sample.succeeding Sample.loaded H1 H2).
Defined.

(** C4, the code at a failing input.  Two outputs per batch are asked for;
    STOP is pressed on the batch while the first call is in flight, so the
    live status is [stopping] before the second iteration.  The loop reads
    the status from the snapshot of the render that created the handler,
    does not see the change, makes the second call, and the run ends
    [completed] with as many results as [outputsPerBatch], not fewer. *)
Theorem stop_during_run_goes_unnoticed :
  let trace := processBatch Sample.loaded (lit "b1") normal Sample.succeeding in
  map BatchItem.status
      (batches (run Sample.stopDuringFirstCall (firstn 2 trace) Sample.loaded))
    = [stopping; idle] /\
  calls trace = [Sample.succeeding 0; Sample.succeeding 1] /\
  map (fun b => (BatchItem.status b, length (BatchItem.resultsNormal b)))
      (batches (run Sample.stopDuringFirstCall trace Sample.loaded))
    = [(completed, outputsPerBatch Sample.loaded); (idle, 0)].
Proof. vm_compute. repeat split. Qed.

(** The same in general.  When the snapshot holds no stop request and the
    client keeps answering, the loop makes every one of its calls. *)
Lemma generateLoop_uninterrupted r batchId batch isPro client :
  stopRequested r batchId = false ->
  (forall i, exists b64, client i = GenOk b64) ->
  forall todo i resUrls, exists acts news,
    generateLoop r batchId batch isPro client todo i resUrls =
      (acts, Finished (resUrls ++ news)) /\
    length news = todo.
Proof.
  intros Hstop Hok. induction todo as [|todo IH]; intros i resUrls; simpl.
  - exists [], []. now rewrite app_nil_r.
  - rewrite Hstop. destruct (Hok i) as [b64 Hi]. rewrite Hi.
    destruct (IH (S i) (resUrls ++ [b64])) as [acts [news [E Hlen]]].
    rewrite E. eexists. exists (b64 :: news). split.
    + rewrite <- app_assoc. reflexivity.
    + simpl. now rewrite Hlen.
Qed.

Lemma runFrom_snoc_update others u : forall acts k s,
  runFrom others k (acts ++ [SetBatches u]) s =
  applyAction (SetBatches u) (runFrom others k acts s).
Proof.
  induction acts as [|a acts IH]; intros k s; [reflexivity|].
  destruct a; simpl; apply IH.
Qed.

(** Whatever the other handlers do while such a run is suspended - stop
    requests included - the run ends [completed] with [outputsPerBatch]
    results. *)
Lemma processBatch_blind_to_later_stops r batchId mode client others live :
  findIndex batchId (batches r) <> None ->
  stopRequested r batchId = false ->
  (forall i, exists b64, client i = GenOk b64) ->
  Forall
    (fun b =>
       streq (BatchItem.id b) batchId = true ->
       BatchItem.status b = completed /\
       length (BatchItem.results (isProMode mode) b) = outputsPerBatch r)
    (batches (run others (processBatch r batchId mode client) live)).
Proof.
  intros Hfound Hstop Hok. unfold processBatch.
  destruct (findIndex batchId (batches r)) as [idx|] eqn:F; [|contradiction].
  destruct (findIndex_nth _ _ _ F) as [batch [Hn _]]. rewrite Hn.
  destruct (generateLoop_uninterrupted r batchId batch (isProMode mode) client
              Hstop Hok (outputsPerBatch r) 0 []) as [acts [news [E Hlen]]].
  rewrite E. simpl app at 1. unfold run.
  rewrite app_comm_cons, runFrom_snoc_update, batches_applyAction.
  simpl. unfold mapById. apply Forall_forall. intros b Hb.
  apply in_map_iff in Hb as [b0 [<- _]].
  destruct (streq (BatchItem.id b0) batchId) eqn:E0.
  - intros _. destruct mode; simpl; auto.
  - intros Hid. congruence.
Qed.

(** What the loop does honour: a stop request already present in the
    snapshot.  The run then makes no call and completes with no result. *)
Lemma processBatch_stop_in_snapshot r batchId mode client :
  findIndex batchId (batches r) <> None ->
  stopRequested r batchId = true ->
  processBatch r batchId mode client =
  [SetBatches (StartProcessing batchId mode);
   SetBatches (CompleteRun batchId (isProMode mode) [])].
Proof.
  intros Hfound Hstop. unfold processBatch.
  destruct (findIndex batchId (batches r)) as [idx|] eqn:F; [|contradiction].
  destruct (findIndex_nth _ _ _ F) as [batch [Hn _]]. rewrite Hn.
  destruct (outputsPerBatch r); simpl; [reflexivity|].
  now rewrite Hstop.
Qed.

(* ================================================================== *)
(** * Fleet controller: results *)
(* ================================================================== *)

Lemma forEachBatch_stopped r mode clients k bs :
  shouldStopGlobal r = true -> forEachBatch r mode clients k bs = [].
Proof. intros H. destruct bs; simpl; [reflexivity | now rewrite H]. Qed.

(** C7.  When the global stop flag is set in the render from which
    [processAll] is invoked, [processAll] only toggles its own flags: it
    starts no run and makes no call, and whatever else happens meanwhile the
    store it leaves is the store it found. *)
Theorem processAll_stopped_starts_nothing r mode clients :
  shouldStopGlobal r = true ->
  processAll r mode clients =
    [SetIsProcessingAll true; SetShouldStopGlobal false;
     SetIsProcessingAll false] /\
  runsStarted (processAll r mode clients) = 0 /\
  calls (processAll r mode clients) = [] /\
  forall others live,
    batches (run others (processAll r mode clients) live) = batches live.
Proof.
  intros Hstop.
  assert (E : processAll r mode clients =
              [SetIsProcessingAll true; SetShouldStopGlobal false;
               SetIsProcessingAll false]).
  { unfold processAll. now rewrite forEachBatch_stopped. }
  rewrite E. repeat split.
Qed.

(** Witness of C7: Emergency Stop was pressed on the loaded sample. *)
Lemma processAll_stopped_starts_nothing_witness :
  shouldStopGlobal (dispatch (fun _ => emergencyStop) Sample.loaded) = true /\
  runsStarted
    (processAll (dispatch (fun _ => emergencyStop) Sample.loaded) pro
       (fun _ => Sample.succeeding)) = 0.
Proof.
  split; [reflexivity|].
  apply (processAll_stopped_starts_nothing
           (dispatch (fun _ => emergencyStop) Sample.loaded) pro
           (fun _ => Sample.succeeding)).
  reflexivity.
Defined.

(* ================================================================== *)
(** * Editing session: results *)
(* ================================================================== *)

Lemma lastItem_snoc xs x : lastItem (xs ++ [x]) = Some x.
Proof.
  unfold lastItem. rewrite length_app. simpl.
  replace (length xs + 1 - 1) with (length xs) by lia.
  rewrite nth_error_app2 by lia. now rewrite Nat.sub_diag.
Qed.

Lemma length_snoc_nonzero (xs : list jsstring) x :
  Nat.eqb (length (xs ++ [x])) 0 = false.
Proof. rewrite length_app. simpl. apply Nat.eqb_neq. lia. Qed.

Lemma snoc_of_nonempty (xs : list jsstring) :
  xs <> [] -> exists ys y, xs = ys ++ [y].
Proof.
  intros H. destruct (exists_last H) as [ys [y E]]. eauto.
Qed.

(** The state after [handleUndo], when there is something to undo. *)
Lemma dispatch_handleUndo s t h previous :
  editTarget s = Some t ->
  history s = h ++ [previous] ->
  dispatch handleUndo s =
  mkState
    (applyUpdate (SaveResult (EditTarget.batchId t)
                    (isProMode (EditTarget.mode t)) (EditTarget.index t)
                    false previous) (batches s))
    (isProcessingAll s) (shouldStopGlobal s) (outputsPerBatch s)
    (Some (EditTarget.mk (EditTarget.batchId t) (EditTarget.index t) previous
             (EditTarget.mode t)))
    (prompt s) (isRegenerating s) h (redoStack s ++ [EditTarget.data t]).
Proof.
  intros Ht Hh. unfold dispatch, handleUndo, onSave.
  rewrite Ht, Hh, length_snoc_nonzero, lastItem_snoc.
  unfold run. simpl. rewrite Ht, Hh, removelast_last. reflexivity.
Qed.

(** The state after [handleRedo], when there is something to redo. *)
Lemma dispatch_handleRedo s t rs next :
  editTarget s = Some t ->
  redoStack s = rs ++ [next] ->
  dispatch handleRedo s =
  mkState
    (applyUpdate (SaveResult (EditTarget.batchId t)
                    (isProMode (EditTarget.mode t)) (EditTarget.index t)
                    false next) (batches s))
    (isProcessingAll s) (shouldStopGlobal s) (outputsPerBatch s)
    (Some (EditTarget.mk (EditTarget.batchId t) (EditTarget.index t) next
             (EditTarget.mode t)))
    (prompt s) (isRegenerating s) (history s ++ [EditTarget.data t]) rs.
Proof.
  intros Ht Hr. unfold dispatch, handleRedo, onSave.
  rewrite Ht, Hr, length_snoc_nonzero, lastItem_snoc.
  unfold run. simpl. rewrite Ht, Hr, removelast_last. reflexivity.
Qed.

(** C5, as stated, fails: after a regeneration whose refinement call
    failed, the undo stack and the redo stack of the sample session are not
    what they were. *)
Lemma regenerate_failure_touches_stacks :
  let s := Sample.editing in
  let s' := dispatch (handleRegenerate (GenFail Sample.fetchFailed)) s in
  ~ (currentImage s' = currentImage s /\
     history s' = history s /\
     redoStack s' = redoStack s /\
     targetEntries s' = targetEntries s).
Proof.
  vm_compute. intros [_ [H _]]. discriminate H.
Qed.

(** C5, amended: after a regeneration whose refinement call failed, the
    image the editor shows, the store and the store entry the editor is
    bound to are exactly what they were before the call; the undo stack has
    the shown image pushed on it and the redo stack is empty (both were
    updated before the call and are not restored). *)
Theorem regenerate_failure_keeps_image_and_store s t message :
  editTarget s = Some t ->
  isBlank (prompt s) = false ->
  let s' := dispatch (handleRegenerate (GenFail message)) s in
  currentImage s' = currentImage s /\
  batches s' = batches s /\
  targetEntries s' = targetEntries s /\
  history s' = history s ++ [EditTarget.data t] /\
  redoStack s' = [].
Proof.
  intros Ht Hprompt.
  unfold dispatch, handleRegenerate, onEditRegenerate.
  rewrite Ht, Hprompt.
  unfold currentImage, targetEntries.
  destruct s; simpl in *. subst. repeat split.
Qed.

(** Witness of C5 amended, on the sample session. *)
Lemma regenerate_failure_keeps_image_and_store_witness :
  editTarget Sample.editing =
    Some (EditTarget.mk (lit "b1") 0 Sample.imageA normal) /\
  isBlank (prompt Sample.editing) = false /\
  history (dispatch (handleRegenerate (GenFail Sample.fetchFailed))
             Sample.editing) =
  history Sample.editing ++ [Sample.imageA].
Proof.
  split; [reflexivity|]. split; [reflexivity|].
  apply (regenerate_failure_keeps_image_and_store Sample.editing
           (EditTarget.mk (lit "b1") 0 Sample.imageA normal)
           Sample.fetchFailed); reflexivity.
Defined.

(** C6.  In an open editor with a non-empty undo stack, undo followed by
    redo brings back the image that was shown, and both stacks;
    and a regeneration (the prompt being non-blank, as the button
    requires) leaves the redo stack empty, whether the refinement call
    succeeds or fails. *)
Theorem undo_redo_round_trip s t :
  editTarget s = Some t ->
  (history s <> [] ->
   let s2 := dispatch handleRedo (dispatch handleUndo s) in
   currentImage s2 = currentImage s /\
   history s2 = history s /\
   redoStack s2 = redoStack s) /\
  (forall outcome,
     isBlank (prompt s) = false ->
     redoStack (dispatch (handleRegenerate outcome) s) = []).
Proof.
  intros Ht. split.
  - intros Hne. destruct (snoc_of_nonempty _ Hne) as [h [previous Hh]].
    rewrite (dispatch_handleUndo s t h previous Ht Hh).
    erewrite dispatch_handleRedo by reflexivity.
    unfold currentImage. simpl. rewrite Ht, Hh. repeat split.
  - intros outcome Hprompt.
    unfold dispatch, handleRegenerate, onEditRegenerate.
    rewrite Ht, Hprompt.
    destruct outcome; destruct s; simpl in *; subst; reflexivity.
Qed.

(** Witness of C6, on the sample session. *)
Lemma undo_redo_round_trip_witness :
  history Sample.editing <> [] /\
  isBlank (prompt Sample.editing) = false /\
  currentImage (dispatch handleRedo (dispatch handleUndo Sample.editing)) =
    currentImage Sample.editing /\
  redoStack (dispatch (handleRegenerate (GenOk Sample.imageB)) Sample.editing)
    = [].
Proof.
  assert (Hh : history Sample.editing <> []) by (vm_compute; discriminate).
  assert (Hp : isBlank (prompt Sample.editing) = false) by reflexivity.
  destruct (undo_redo_round_trip Sample.editing
              (EditTarget.mk (lit "b1") 0 Sample.imageA normal) eq_refl)
    as [Hround Hregen].
  split; [exact Hh|]. split; [exact Hp|]. split.
  - exact (proj1 (Hround Hh)).
  - exact (Hregen (GenOk Sample.imageB) Hp).
Defined.

(* ================================================================== *)
(** * Input images: results *)
(* ================================================================== *)

Section InputImages.

Variable B : Browser.

Lemma makeImages_files : forall fs k imgs k',
  makeImages B fs k = (Some imgs, k') -> map ImageFile.file imgs = fs.
Proof.
  induction fs as [|f fs IH]; intros k imgs k' H; simpl in H.
  - inversion H. reflexivity.
  - destruct (makeImages B fs (S k)) as [rest k1] eqn:E.
    destruct (fileToBase64 B f) as [b64|]; [|discriminate].
    destruct rest as [imgs'|]; [|discriminate].
    inversion H. subst. simpl. f_equal. eapply IH, E.
Qed.

Lemma makeBatches_built : forall entries k newBatches k',
  makeBatches B entries k = (Some newBatches, k') ->
  Forall2 BuiltFrom entries newBatches.
Proof.
  induction entries as [|[name fs] entries IH]; intros k nb k' H;
    cbn [makeBatches] in H.
  - inversion H. constructor.
  - destruct (makeImages B (firstn 5 fs) (S k)) as [imgs k1] eqn:Ei.
    destruct (makeBatches B entries k1) as [more k2] eqn:Em.
    destruct imgs as [imgs'|]; [|discriminate].
    destruct more as [more'|]; simpl in H; [|discriminate].
    inversion H. subst. constructor.
    + unfold BuiltFrom. simpl. repeat split.
      eapply makeImages_files, Ei.
    + eapply IH, Em.
Qed.

Lemma BuiltFrom_bounded e b :
  BuiltFrom e b -> length (BatchItem.images b) <= 5.
Proof.
  intros [_ [H _]].
  rewrite <- (length_map ImageFile.file), H. apply firstn_le_length.
Qed.

Lemma importedBatches_bounded files k newBatches :
  importedBatches B files k = Some newBatches -> imagesBounded newBatches.
Proof.
  unfold importedBatches. intros H.
  destruct (groupFiles files []) as [grouped|]; [|discriminate].
  destruct (makeBatches B (objectEntries grouped) k) as [nb k'] eqn:E.
  simpl in H. subst nb. apply makeBatches_built in E.
  unfold imagesBounded. induction E; constructor; eauto using BuiltFrom_bounded.
Qed.

Lemma mapById_bounded batchId f p :
  (forall b, length (BatchItem.images b) <= 5 ->
             length (BatchItem.images (f b)) <= 5) ->
  imagesBounded p -> imagesBounded (mapById batchId f p).
Proof.
  intros Hf Hp. unfold imagesBounded, mapById in *.
  induction Hp as [|b p Hb Hp IH]; simpl; constructor; [|exact IH].
  destruct (streq (BatchItem.id b) batchId); auto.
Qed.

Lemma length_filter_le {A} (f : A -> bool) (l : list A) :
  length (filter f l) <= length l.
Proof.
  induction l as [|x l IH]; simpl; [lia|]. destruct (f x); simpl; lia.
Qed.

Lemma filter_bounded (f : BatchItem.t -> bool) p :
  imagesBounded p -> imagesBounded (filter f p).
Proof.
  unfold imagesBounded. induction 1 as [|b p Hb Hp IH]; simpl; [constructor|].
  destruct (f b); [constructor|]; assumption.
Qed.

(** Every update other than the import's keeps the bound; adding an image
    establishes it even on a batch that is full. *)
Lemma applyUpdate_bounded u p :
  isAppend u = false -> imagesBounded p -> imagesBounded (applyUpdate u p).
Proof.
  intros Hu Hp. destruct u; simpl in *; try discriminate;
    try (apply mapById_bounded; [intros b Hb | exact Hp]);
    try (destruct isPro; simpl; exact Hb);
    try exact Hb.
  - simpl. rewrite length_map. exact Hb.
  - simpl. apply firstn_le_length.
  - simpl. pose proof (length_filter_le
                         (fun i => negb (streq (ImageFile.id i) imgId))
                         (BatchItem.images b)). lia.
  - now apply filter_bounded.
Qed.

(** C9.  In every store the handlers can produce - by folder imports,
    by adding, replacing or deleting an input image, and by every other
    update of the store - each batch has at most five input images, however
    many files are imported or dropped. *)
Theorem images_never_exceed_five p :
  Reachable B p -> imagesBounded p.
Proof.
  induction 1 as [|p files k newBatches _ IH Himport|p u _ IH Hu].
  - constructor.
  - simpl. unfold imagesBounded in *. apply Forall_app. split; [exact IH|].
    unfold handleFolderUpload in Himport.
    destruct (importedBatches B files k) as [nb|] eqn:E; [|discriminate].
    injection Himport as <-. eapply importedBatches_bounded, E.
  - now apply applyUpdate_bounded.
Qed.

End InputImages.

(** Witness of C9: seven images of one folder are imported into a fresh
    page, then one more file is dropped on the batch. *)
Lemma images_never_exceed_five_witness :
  Reachable Sample.browser
    (applyUpdate
       (AddInput (lit "id0") (Sample.image 9 (Sample.png "extra.png" 9)))
       (applyUpdate (AppendBatches Sample.sevenCatsBatches) [])) /\
  imagesBounded
    (applyUpdate
       (AddInput (lit "id0") (Sample.image 9 (Sample.png "extra.png" 9)))
       (applyUpdate (AppendBatches Sample.sevenCatsBatches) [])).
Proof.
  assert (R : Reachable Sample.browser
                (applyUpdate
                   (AddInput (lit "id0")
                      (Sample.image 9 (Sample.png "extra.png" 9)))
                   (applyUpdate (AppendBatches Sample.sevenCatsBatches) []))).
  { apply reach_update; [|reflexivity].
    apply reach_import with (files := Sample.sevenCats) (k := 0).
    - apply reach_initial.
    - vm_compute. reflexivity. }
  split; [exact R|].
  exact (images_never_exceed_five Sample.browser _ R).
Defined.

(* ================================================================== *)
(** * Folder import: results *)
(* ================================================================== *)

Lemma streq_sym a b : streq a b = streq b a.
Proof.
  destruct (streq a b) eqn:E.
  - apply streq_eq in E. subst. symmetry. apply streq_refl.
  - apply streq_neq in E. symmetry. apply streq_neq. congruence.
Qed.

Lemma filter_none {A} (f : A -> bool) (l : list A) :
  (forall x, In x l -> f x = false) -> filter f l = [].
Proof.
  induction l as [|x l IH]; intros H; simpl; [reflexivity|].
  rewrite (H x) by now left. apply IH. intros y Hy. apply H. now right.
Qed.

Lemma filedUnder_snoc name seen f :
  filedUnder name (seen ++ [f]) =
  filedUnder name seen ++
  match groupName f with
  | Some n => if streq n name then [f] else []
  | None => []
  end.
Proof.
  unfold filedUnder. rewrite filter_app. f_equal. simpl.
  destruct (groupName f) as [n|]; [|reflexivity].
  destruct (streq n name); reflexivity.
Qed.

Lemma hasOwn_In name grouped :
  hasOwn name grouped = true <-> In name (map fst grouped).
Proof.
  unfold hasOwn. rewrite existsb_exists, in_map_iff. split.
  - intros [e [He Hs]]. apply streq_eq in Hs. eauto.
  - intros [e [He Hin]]. exists e. split; [exact Hin|].
    apply streq_eq. exact He.
Qed.

Lemma NoDup_snoc {A} (l : list A) (x : A) :
  NoDup l -> ~ In x l -> NoDup (l ++ [x]).
Proof.
  intros Hl Hx. apply (Permutation_NoDup (l := x :: l)).
  - apply Permutation_cons_append.
  - now constructor.
Qed.

(** One more file filed keeps [grouped] in step with the files seen. *)
Lemma pushGrouped_step seen grouped name f grouped' :
  GroupedFor seen grouped ->
  groupName f = Some name ->
  pushGrouped name f grouped = Some grouped' ->
  GroupedFor (seen ++ [f]) grouped'.
Proof.
  intros [Hnd [Hent Hcov]] Hname Hpush. unfold pushGrouped in Hpush.
  destruct (hasOwn name grouped) eqn:Hown.
  - (* the folder already has an entry: the file is pushed on it *)
    injection Hpush as <-. apply hasOwn_In in Hown.
    assert (Hkeys : map fst (map (fun e => if streq (fst e) name
                                           then (fst e, snd e ++ [f]) else e)
                               grouped) = map fst grouped).
    { rewrite map_map. apply map_ext. intros e.
      destruct (streq (fst e) name); reflexivity. }
    split; [|split].
    + now rewrite Hkeys.
    + intros n fs Hin. apply in_map_iff in Hin as [[n0 fs0] [He Hin]].
      simpl in He. destruct (Hent n0 fs0 Hin) as [Hfs0 Hne].
      rewrite filedUnder_snoc, Hname.
      destruct (streq n0 name) eqn:E; injection He as <- <-.
      * rewrite streq_sym, E, <- Hfs0. split; [reflexivity|].
        intros H. now apply app_eq_nil in H as [_ H].
      * rewrite streq_sym, E, app_nil_r. now split.
    + intros f' n Hin Hn. rewrite Hkeys.
      apply in_app_or in Hin as [Hin|[<-|[]]]; [eauto|].
      congruence.
  - destruct (existsb (streq name) objectPrototypeKeys); [discriminate|].
    (* a new folder: a fresh entry holding the file *)
    injection Hpush as <-.
    assert (Hfresh : ~ In name (map fst grouped)).
    { intros H. apply hasOwn_In in H. congruence. }
    split; [|split].
    + rewrite map_app. simpl. now apply NoDup_snoc.
    + intros n fs Hin. rewrite filedUnder_snoc, Hname.
      apply in_app_or in Hin as [Hin|[He|[]]].
      * destruct (Hent n fs Hin) as [Hfs Hne].
        assert (Hn : streq name n = false).
        { apply streq_neq. intros ->. apply Hfresh.
          apply in_map_iff. exists (n, fs). now split. }
        rewrite Hn, app_nil_r. now split.
      * injection He as <- <-. rewrite streq_refl.
        assert (Hnone : filedUnder name seen = []).
        { unfold filedUnder. apply filter_none. intros f' Hf'.
          destruct (groupName f') as [n'|] eqn:E; [|reflexivity].
          apply streq_neq. intros ->. apply Hfresh. eauto. }
        rewrite Hnone. split; [reflexivity | discriminate].
    + intros f' n Hin Hn. rewrite map_app. apply in_or_app.
      apply in_app_or in Hin as [Hin|[<-|[]]]; [left; eauto|].
      right. left. simpl. congruence.
Qed.

Lemma skip_step seen grouped f :
  GroupedFor seen grouped -> groupName f = None ->
  GroupedFor (seen ++ [f]) grouped.
Proof.
  intros [Hnd [Hent Hcov]] Hnone. split; [exact Hnd|split].
  - intros n fs Hin. rewrite filedUnder_snoc, Hnone, app_nil_r. auto.
  - intros f' n Hin Hn.
    apply in_app_or in Hin as [Hin|[<-|[]]]; [eauto|congruence].
Qed.

Lemma groupFiles_grouped : forall files seen grouped grouped',
  GroupedFor seen grouped ->
  groupFiles files grouped = Some grouped' ->
  GroupedFor (seen ++ files) grouped'.
Proof.
  induction files as [|f files IH]; intros seen grouped grouped' Hinv H;
    simpl in H.
  - injection H as <-. now rewrite app_nil_r.
  - replace (seen ++ f :: files) with ((seen ++ [f]) ++ files)
      by (rewrite <- app_assoc; reflexivity).
    destruct (groupName f) as [name|] eqn:Hname.
    + destruct (pushGrouped name f grouped) as [g1|] eqn:Hpush; [|discriminate].
      eapply IH; [|exact H]. eapply pushGrouped_step; eauto.
    + eapply IH; [|exact H]. now apply skip_step.
Qed.

Lemma GroupedFor_start : GroupedFor [] [].
Proof.
  split; [constructor|split]; intros; contradiction.
Qed.

(** [Object.entries] lists every own property once. *)
Lemma insertByIndex_perm e sorted :
  Permutation (insertByIndex e sorted) (e :: sorted).
Proof.
  induction sorted as [|e' sorted IH]; simpl; [reflexivity|].
  destruct (numeral (fst e) <=? numeral (fst e'))%N; [reflexivity|].
  rewrite IH. apply perm_swap.
Qed.

Lemma sortByIndex_perm es : Permutation (sortByIndex es) es.
Proof.
  induction es as [|e es IH]; simpl; [reflexivity|].
  rewrite insertByIndex_perm. now constructor.
Qed.

Lemma partition_perm {A} (f : A -> bool) (l : list A) :
  Permutation (filter f l ++ filter (fun x => negb (f x)) l) l.
Proof.
  induction l as [|x l IH]; simpl; [reflexivity|].
  destruct (f x); simpl.
  - now constructor.
  - rewrite <- Permutation_middle. now constructor.
Qed.

Lemma objectEntries_perm grouped : Permutation (objectEntries grouped) grouped.
Proof.
  unfold objectEntries. rewrite sortByIndex_perm.
  apply (partition_perm (fun e => isArrayIndex (fst e))).
Qed.

Lemma Forall2_In_r {A B} (R : A -> B -> Prop) l l' y :
  Forall2 R l l' -> In y l' -> exists x, In x l /\ R x y.
Proof.
  induction 1 as [|x y' l l' Hxy _ IH]; intros Hin; [contradiction|].
  destruct Hin as [<-|Hin].
  - exists x. split; [now left | exact Hxy].
  - destruct (IH Hin) as [x' [Hx' Hr]]. exists x'. split; [now right|exact Hr].
Qed.

Lemma built_names entries newBatches :
  Forall2 BuiltFrom entries newBatches ->
  map BatchItem.name newBatches = map fst entries.
Proof.
  induction 1 as [|e b entries nb [Hname _] _ IH]; simpl; [reflexivity|].
  now rewrite Hname, IH.
Qed.

(** C1, as stated, fails: importing the three files of the
    specification, whose paths have two segments, does not produce a batch
    named Cats with two images and a batch named Dogs with one. *)
Lemma folder_import_skips_two_segment_paths :
  ~ (exists newBatches,
       importedBatches Sample.browser Sample.twoSegmentFiles 0 = Some newBatches /\
       map (fun b => (BatchItem.name b, length (BatchItem.images b))) newBatches
         = [(lit "Cats", 2); (lit "Dogs", 1)]).
Proof.
  intros [newBatches [Himport Hshape]].
  vm_compute in Himport. injection Himport as <-. discriminate Hshape.
Qed.

(** C1, amended.  Folder import files an image under the second-to-last
    segment of its relative path when the path has at least three segments,
    and ignores it otherwise.  Whenever the import goes through: the new
    batches have distinct names; every folder that had a file filed gets a
    batch; each batch holds the first five files filed under its name, in
    order, and at least one.  In particular the three files
    Designs/Cats/a.png, Designs/Cats/b.png and Designs/Dogs/c.png give
    exactly two batches, Cats with two images and Dogs with one, and the
    three files Cats/a.png, Cats/b.png and Dogs/c.png give none. *)
Theorem folder_import_groups_by_parent_folder B :
  (forall files k newBatches,
     importedBatches B files k = Some newBatches ->
     NoDup (map BatchItem.name newBatches) /\
     (forall f name, In f files -> groupName f = Some name ->
                     In name (map BatchItem.name newBatches)) /\
     (forall b, In b newBatches ->
        filedUnder (BatchItem.name b) files <> [] /\
        map ImageFile.file (BatchItem.images b) =
          firstn 5 (filedUnder (BatchItem.name b) files))) /\
  (forall f name,
     groupName f = Some name <->
     startsWith (File.type f) IMAGE_SLASH = true /\
     3 <= length (split 47%N (File.webkitRelativePath f)) /\
     nth_error (split 47%N (File.webkitRelativePath f))
       (length (split 47%N (File.webkitRelativePath f)) - 2) = Some name) /\
  (forall k,
     (forall f, In f Sample.threeSegmentFiles -> fileToBase64 B f <> None) ->
     exists newBatches,
       importedBatches B Sample.threeSegmentFiles k = Some newBatches /\
       map (fun b => (BatchItem.name b, length (BatchItem.images b))) newBatches
         = [(lit "Cats", 2); (lit "Dogs", 1)]) /\
  (forall k, importedBatches B Sample.twoSegmentFiles k = Some []).
Proof.
  split; [|split; [|split]]; [| | |reflexivity].
  - intros files k newBatches H. unfold importedBatches in H.
    destruct (groupFiles files []) as [grouped|] eqn:G; [|discriminate].
    apply (groupFiles_grouped files [] [] grouped GroupedFor_start) in G.
    simpl in G. destruct G as [Hnd [Hent Hcov]].
    destruct (makeBatches B (objectEntries grouped) k) as [nb k'] eqn:E.
    simpl in H. subst nb. apply makeBatches_built in E.
    pose proof (objectEntries_perm grouped) as Hperm.
    split; [|split].
    + rewrite (built_names _ _ E).
      apply (Permutation_NoDup (l := map fst grouped)); [|exact Hnd].
      symmetry. now apply Permutation_map.
    + intros f name Hf Hname. rewrite (built_names _ _ E).
      apply (Permutation_in (l := map fst grouped)).
      * symmetry. now apply Permutation_map.
      * eauto.
    + intros b Hb.
      destruct (Forall2_In_r _ _ _ _ E Hb) as [[n fs] [He [Hn [Himgs _]]]].
      simpl in Hn, Himgs. rewrite Hn, Himgs.
      apply (Permutation_in _ Hperm) in He.
      destruct (Hent n fs He) as [-> Hne]. now split.
  - intros f name. unfold groupName.
    destruct (startsWith (File.type f) IMAGE_SLASH); simpl.
    + destruct (Nat.ltb_spec 2
                  (length (split 47%N (File.webkitRelativePath f)))) as [Hlt|Hge].
      * split; [intros H; repeat split; [lia | exact H] | now intros [_ [_ H]]].
      * split; [discriminate | intros [_ [H _]]; lia].
    + split; [discriminate | now intros [H _]].
  - intros k Hread. unfold importedBatches.
    assert (G : groupFiles Sample.threeSegmentFiles [] =
                Some [(lit "Cats", [Sample.png "Designs/Cats/a.png" 1;
                                    Sample.png "Designs/Cats/b.png" 2]);
                      (lit "Dogs", [Sample.png "Designs/Dogs/c.png" 3])])
      by reflexivity.
    rewrite G.
    assert (O : objectEntries
                  [(lit "Cats", [Sample.png "Designs/Cats/a.png" 1;
                                 Sample.png "Designs/Cats/b.png" 2]);
                   (lit "Dogs", [Sample.png "Designs/Dogs/c.png" 3])] =
                [(lit "Cats", [Sample.png "Designs/Cats/a.png" 1;
                               Sample.png "Designs/Cats/b.png" 2]);
                 (lit "Dogs", [Sample.png "Designs/Dogs/c.png" 3])])
      by reflexivity.
    rewrite O. unfold makeBatches, makeImages, firstn.
    destruct (fileToBase64 B (Sample.png "Designs/Cats/a.png" 1)) eqn:E1;
      [|exfalso; apply (Hread (Sample.png "Designs/Cats/a.png" 1));
        [simpl; auto | exact E1]].
    destruct (fileToBase64 B (Sample.png "Designs/Cats/b.png" 2)) eqn:E2;
      [|exfalso; apply (Hread (Sample.png "Designs/Cats/b.png" 2));
        [simpl; auto | exact E2]].
    destruct (fileToBase64 B (Sample.png "Designs/Dogs/c.png" 3)) eqn:E3;
      [|exfalso; apply (Hread (Sample.png "Designs/Dogs/c.png" 3));
        [simpl; auto | exact E3]].
    eexists. split; reflexivity.
Qed.

(** Witness of C1 amended: the three sample files under a common parent
    folder, read without error. *)
Lemma folder_import_groups_by_parent_folder_witness :
  (forall f, In f Sample.threeSegmentFiles ->
             fileToBase64 Sample.browser f <> None) /\
  exists newBatches,
    importedBatches Sample.browser Sample.threeSegmentFiles 0 = Some newBatches /\
    map (fun b => (BatchItem.name b, length (BatchItem.images b))) newBatches
      = [(lit "Cats", 2); (lit "Dogs", 1)] /\
    NoDup (map BatchItem.name newBatches).
Proof.
  assert (Hread : forall f, In f Sample.threeSegmentFiles ->
                            fileToBase64 Sample.browser f <> None)
    by (intros f _; simpl; discriminate).
  destruct (folder_import_groups_by_parent_folder Sample.browser)
    as [Hgeneral [_ [Hsample _]]].
  destruct (Hsample 0 Hread) as [newBatches [Himport Hshape]].
  split; [exact Hread|]. exists newBatches.
  split; [exact Himport|]. split; [exact Hshape|].
  exact (proj1 (Hgeneral _ _ _ Himport)).
Defined.

(* ================================================================== *)
(** * The store: what every reachable store satisfies *)
(* ================================================================== *)

Lemma split_segments sep s : Forall (fun seg => ~ In sep seg) (split sep s).
Proof.
  induction s as [|c s IH]; simpl.
  - constructor; [intros [] | constructor].
  - destruct (N.eqb c sep) eqn:E.
    + constructor; [intros [] | exact IH].
    + apply N.eqb_neq in E.
      destruct (split sep s) as [|w ws]; constructor;
        try constructor; try (inversion IH; subst; assumption).
      * intros [H|[]]. congruence.
      * inversion IH; subst. intros [H|H]; [congruence | contradiction].
Qed.

Lemma groupName_segment f name : groupName f = Some name -> ~ In 47%N name.
Proof.
  unfold groupName. intros H.
  destruct (negb (startsWith (File.type f) IMAGE_SLASH)); [discriminate|].
  destruct (Nat.ltb 2 (length (split 47%N (File.webkitRelativePath f))));
    [|discriminate].
  apply nth_error_In in H.
  pose proof (split_segments 47%N (File.webkitRelativePath f)) as Hs.
  rewrite Forall_forall in Hs. now apply Hs.
Qed.

(** Every batch an import builds is named after a file it was given. *)
Lemma importedBatches_named B files k newBatches :
  importedBatches B files k = Some newBatches ->
  forall b, In b newBatches ->
    exists f, In f files /\ groupName f = Some (BatchItem.name b).
Proof.
  unfold importedBatches. intros H b Hb.
  destruct (groupFiles files []) as [grouped|] eqn:G; [|discriminate].
  apply (groupFiles_grouped files [] [] grouped GroupedFor_start) in G.
  simpl in G. destruct G as [_ [Hent _]].
  destruct (makeBatches B (objectEntries grouped) k) as [nb k'] eqn:E.
  simpl in H. subst nb. apply makeBatches_built in E.
  destruct (Forall2_In_r _ _ _ _ E Hb) as [[n fs] [He [Hn _]]].
  simpl in Hn. apply (Permutation_in _ (objectEntries_perm grouped)) in He.
  destruct (Hent n fs He) as [Hfs Hne].
  destruct fs as [|f fs']; [contradiction|].
  assert (Hin : In f (filedUnder n files)) by (rewrite <- Hfs; now left).
  unfold filedUnder in Hin. apply filter_In in Hin as [Hf Hkey].
  exists f. split; [exact Hf|].
  destruct (groupName f) as [n'|]; [|discriminate].
  apply streq_eq in Hkey. congruence.
Qed.

Lemma makeBatches_fresh B : forall entries k newBatches k',
  makeBatches B entries k = (Some newBatches, k') ->
  Forall (fun b => BatchItem.status b = idle /\
                   BatchItem.processingMode b = None /\
                   BatchItem.resultsNormal b = [] /\
                   BatchItem.resultsPro b = [] /\
                   BatchItem.customPrompt b = None /\
                   BatchItem.error b = None) newBatches.
Proof.
  induction entries as [|[name fs] entries IH]; intros k nb k' H;
    cbn [makeBatches] in H.
  - inversion H. constructor.
  - destruct (makeImages B (firstn 5 fs) (S k)) as [imgs k1] eqn:Ei.
    destruct (makeBatches B entries k1) as [more k2] eqn:Em.
    destruct imgs as [imgs'|]; [|discriminate].
    destruct more as [more'|]; simpl in H; [|discriminate].
    inversion H. subst. constructor.
    + simpl. repeat split.
    + eapply IH, Em.
Qed.

Lemma importedBatches_wellFormed B files k newBatches :
  importedBatches B files k = Some newBatches ->
  Forall wellFormedBatch newBatches.
Proof.
  intros H. apply Forall_forall. intros b Hb.
  destruct (importedBatches_named _ _ _ _ H b Hb) as [f [_ Hname]].
  unfold importedBatches in H.
  destruct (groupFiles files []) as [grouped|]; [|discriminate].
  destruct (makeBatches B (objectEntries grouped) k) as [nb k'] eqn:E.
  simpl in H. subst nb. apply makeBatches_fresh in E.
  rewrite Forall_forall in E.
  destruct (E b Hb) as [Hst [Hmode [Hn [Hp [Hcp Herr]]]]].
  unfold wellFormedBatch. repeat split; auto.
  - eapply groupName_segment, Hname.
  - intros Hs. congruence.
  - intros Hs. congruence.
Qed.

Lemma mapById_Forall (P : BatchItem.t -> Prop) batchId f p :
  (forall b, P b -> P (f b)) -> Forall P p -> Forall P (mapById batchId f p).
Proof.
  intros Hf Hp. unfold mapById.
  induction Hp as [|b p Hb Hp IH]; simpl; constructor; [|exact IH].
  destruct (streq (BatchItem.id b) batchId); auto.
Qed.

Lemma filter_Forall {A} (P : A -> Prop) (f : A -> bool) (l : list A) :
  Forall P l -> Forall P (filter f l).
Proof.
  induction 1 as [|x l Hx Hl IH]; simpl; [constructor|].
  destruct (f x); [constructor|]; assumption.
Qed.

Lemma mapIndexedFrom_nil {A B} (g : A -> nat -> B) i : mapIndexedFrom g i [] = [].
Proof. reflexivity. Qed.

Lemma applyUpdate_wellFormed u p :
  isAppend u = false ->
  Forall wellFormedBatch p -> Forall wellFormedBatch (applyUpdate u p).
Proof.
  intros Hu Hp.
  destruct u; simpl in *; try discriminate;
    try (now apply filter_Forall);
    (apply mapById_Forall; [|exact Hp]);
    intros b [Hcp [Hname [Hidle [Hproc Herr]]]];
    try destruct isPro;
    unfold wellFormedBatch; simpl;
    (split; [assumption|]); (split; [assumption|]); (split; [|split]);
    intros Hs;
    first [ discriminate
          | now apply Hproc
          | now apply Herr
          | destruct (Hidle Hs) as (Hm & Hn & Hpr & He);
            rewrite ?Hn, ?Hpr; repeat split; auto ].
Qed.

Lemma Reachable_wellFormed B p : Reachable B p -> Forall wellFormedBatch p.
Proof.
  induction 1 as [|p files k newBatches _ IH Himport|p u _ IH Hu].
  - constructor.
  - simpl. apply Forall_app. split; [exact IH|].
    unfold handleFolderUpload in Himport.
    destruct (importedBatches B files k) as [nb|] eqn:E; [|discriminate].
    injection Himport as <-. eapply importedBatches_wellFormed, E.
  - now apply applyUpdate_wellFormed.
Qed.

Lemma Reachable_bounded B p : Reachable B p -> imagesBounded p.
Proof.
  induction 1 as [|p files k newBatches _ IH Himport|p u _ IH Hu].
  - constructor.
  - simpl. unfold imagesBounded in *. apply Forall_app. split; [exact IH|].
    unfold handleFolderUpload in Himport.
    destruct (importedBatches B files k) as [nb|] eqn:E; [|discriminate].
    injection Himport as <-. eapply importedBatches_bounded, E.
  - now apply applyUpdate_bounded.
Qed.

Lemma afterFailedRun_reachable :
  Reachable Sample.browser (batches Scenario.afterFailedRun).
Proof.
  replace (batches Scenario.afterFailedRun)
    with (applyUpdate (FailRun (lit "id0") Sample.fetchFailed)
            (applyUpdate (StartProcessing (lit "id0") normal)
               (applyUpdate (AppendBatches Scenario.imported) [])))
    by (vm_compute; reflexivity).
  apply reach_update; [|reflexivity]. apply reach_update; [|reflexivity].
  apply reach_import with (files := Sample.threeSegmentFiles) (k := 0).
  - apply reach_initial.
  - vm_compute. reflexivity.
Qed.

(** X1.  In every store the handlers can produce: an [idle] batch has no
    result, no processing mode and no error; a [processing] batch has a
    processing mode; a batch in [error] carries a message; no batch has a
    custom prompt, since no handler ever sets one; and no batch name
    contains a slash. *)
Theorem reachable_batches_keep_their_lifecycle B p :
  Reachable B p ->
  Forall
    (fun b =>
       (BatchItem.status b = idle ->
        BatchItem.resultsNormal b = [] /\ BatchItem.resultsPro b = [] /\
        BatchItem.processingMode b = None /\ BatchItem.error b = None) /\
       (BatchItem.status b = processing ->
        exists mode, BatchItem.processingMode b = Some mode) /\
       (BatchItem.status b = error ->
        exists message, BatchItem.error b = Some message) /\
       BatchItem.customPrompt b = None /\
       ~ In 47%N (BatchItem.name b))
    p.
Proof.
  intros H. apply Reachable_wellFormed in H.
  eapply Forall_impl; [|exact H].
  intros b [Hcp [Hname [Hidle [Hproc Herr]]]]. repeat split; auto.
  - now destruct (Hidle H0) as (? & ? & ? & ?).
  - now destruct (Hidle H0) as (? & ? & ? & ?).
  - now destruct (Hidle H0) as (? & ? & ? & ?).
  - now destruct (Hidle H0) as (? & ? & ? & ?).
  - intros Hs. destruct (BatchItem.processingMode b) as [m|] eqn:E; [eauto|].
    now destruct (Hproc Hs).
  - intros Hs. destruct (BatchItem.error b) as [m|] eqn:E; [eauto|].
    now destruct (Herr Hs).
Qed.

Lemma reachable_batches_keep_their_lifecycle_witness :
  Reachable Sample.browser (batches Scenario.afterFailedRun) /\
  map BatchItem.status (batches Scenario.afterFailedRun) = [error; idle] /\
  Forall
    (fun b =>
       (BatchItem.status b = idle ->
        BatchItem.resultsNormal b = [] /\ BatchItem.resultsPro b = [] /\
        BatchItem.processingMode b = None /\ BatchItem.error b = None) /\
       (BatchItem.status b = processing ->
        exists mode, BatchItem.processingMode b = Some mode) /\
       (BatchItem.status b = error ->
        exists message, BatchItem.error b = Some message) /\
       BatchItem.customPrompt b = None /\
       ~ In 47%N (BatchItem.name b))
    (batches Scenario.afterFailedRun).
Proof.
  split; [exact afterFailedRun_reachable|]. split; [reflexivity|].
  exact (reachable_batches_keep_their_lifecycle Sample.browser _
           afterFailedRun_reachable).
Defined.

(** ** What a run asks of the client *)

Lemma generateLoop_awaits r batchId batch isPro client :
  forall todo i resUrls a,
    In a (fst (generateLoop r batchId batch isPro client todo i resUrls)) ->
    exists outcome,
      a = AwaitGenerate (BatchItem.images batch) (BatchItem.customPrompt batch)
            None isPro outcome.
Proof.
  induction todo as [|todo IH]; intros i resUrls a Ha; simpl in Ha;
    [contradiction|].
  destruct (stopRequested r batchId); [contradiction|].
  destruct (client i) as [b64|message] eqn:C.
  - specialize (IH (S i) (resUrls ++ [b64]) a).
    destruct (generateLoop r batchId batch isPro client todo (S i)
                (resUrls ++ [b64])) as [acts e].
    simpl in Ha, IH. destruct Ha as [<-|Ha]; eauto.
  - simpl in Ha. destruct Ha as [<-|[]]. eauto.
Qed.

(** The calls of a run carry the images and the prompt of the batch the
    snapshot holds under the id asked for. *)
Lemma processBatch_awaits r batchId mode client images cp src isPro outcome :
  In (AwaitGenerate images cp src isPro outcome)
     (processBatch r batchId mode client) ->
  exists batch,
    In batch (batches r) /\
    images = BatchItem.images batch /\ cp = BatchItem.customPrompt batch /\
    src = None /\ isPro = isProMode mode.
Proof.
  unfold processBatch. intros Hin.
  destruct (findIndex batchId (batches r)) as [idx|] eqn:F; [|contradiction].
  destruct (findIndex_nth _ _ _ F) as [batch [Hn _]]. rewrite Hn in Hin.
  pose proof (generateLoop_awaits r batchId batch (isProMode mode) client
                (outputsPerBatch r) 0 []) as Hawaits.
  destruct (generateLoop r batchId batch (isProMode mode) client
              (outputsPerBatch r) 0 []) as [acts e].
  simpl in Hawaits. destruct Hin as [Hin|Hin]; [discriminate|].
  apply in_app_or in Hin as [Hin|Hin].
  - destruct (Hawaits _ Hin) as [o Ho]. injection Ho as -> -> -> -> _.
    exists batch. repeat split. eapply nth_error_In, Hn.
  - exfalso. destruct e as [resUrls|message].
    + destruct Hin as [Hin|[]]. discriminate.
    + destruct (includes message PRO_KEY_REQUIRED); simpl in Hin;
        repeat (destruct Hin as [Hin|Hin]; try discriminate); contradiction.
Qed.

(** X2.  A run started from a reachable store asks the client for a fresh
    generation with the built-in prompt: the request has no source image,
    at most five image parts, one per input image of the batch, and the
    default prompt as its last part. *)
Theorem runs_send_the_default_prompt B r batchId mode client
    images cp src isPro outcome :
  Reachable B (batches r) ->
  In (AwaitGenerate images cp src isPro outcome)
     (processBatch r batchId mode client) ->
  src = None /\
  length images <= 5 /\
  contents (buildRequest images cp src isPro) =
    map (fun img =>
           InlineData (payload (ImageFile.base64 img))
             (match File.type (ImageFile.file img) with
              | [] => IMAGE_PNG
              | _ :: _ => File.type (ImageFile.file img)
              end)) images ++
    [TextPart defaultPrompt].
Proof.
  intros Hreach Hin.
  destruct (processBatch_awaits _ _ _ _ _ _ _ _ _ Hin)
    as [batch [Hb [-> [-> [-> ->]]]]].
  pose proof (Reachable_wellFormed _ _ Hreach) as Hwf.
  pose proof (Reachable_bounded _ _ Hreach) as Hbound.
  unfold imagesBounded in Hbound. rewrite Forall_forall in Hwf, Hbound.
  destruct (Hwf batch Hb) as [Hcp _]. rewrite Hcp.
  split; [reflexivity|]. split; [now apply Hbound | reflexivity].
Qed.

Lemma runs_send_the_default_prompt_witness :
  Reachable Sample.browser (batches Scenario.afterImport) /\
  exists images outcome,
    In (AwaitGenerate images None None true outcome)
       (processBatch Scenario.afterImport (lit "id0") pro Sample.succeeding) /\
    length images = 2 /\
    contents (buildRequest images None None true) =
      map (fun img =>
             InlineData (payload (ImageFile.base64 img))
               (match File.type (ImageFile.file img) with
                | [] => IMAGE_PNG
                | _ :: _ => File.type (ImageFile.file img)
                end)) images ++
      [TextPart defaultPrompt].
Proof.
  assert (R : Reachable Sample.browser (batches Scenario.afterImport)).
  { replace (batches Scenario.afterImport)
      with (applyUpdate (AppendBatches Scenario.imported) [])
      by (vm_compute; reflexivity).
    apply reach_import with (files := Sample.threeSegmentFiles) (k := 0);
      [apply reach_initial | vm_compute; reflexivity]. }
  split; [exact R|].
  assert (I : exists images outcome,
             In (AwaitGenerate images None None true outcome)
                (processBatch Scenario.afterImport (lit "id0") pro
                   Sample.succeeding) /\ length images = 2).
  { eexists. eexists. split; [vm_compute; right; left; reflexivity|].
    reflexivity. }
  destruct I as [images [outcome [Hin Hlen]]].
  exists images, outcome. split; [exact Hin|]. split; [exact Hlen|].
  exact (proj2 (proj2 (runs_send_the_default_prompt Sample.browser
                         Scenario.afterImport (lit "id0") pro Sample.succeeding
                         images None None true outcome R Hin))).
Defined.

(* ================================================================== *)
(** * Generation client: results *)
(* ================================================================== *)

Lemma split_no_sep sep s : ~ In sep s -> split sep s = [s].
Proof.
  induction s as [|c s IH]; intros H; simpl; [reflexivity|].
  destruct (N.eqb c sep) eqn:E.
  - apply N.eqb_eq in E. exfalso. apply H. now left.
  - rewrite IH; [reflexivity|]. intros Hin. apply H. now right.
Qed.

Lemma split_app_sep sep a b :
  ~ In sep a -> split sep (a ++ sep :: b) = a :: split sep b.
Proof.
  induction a as [|c a IH]; intros H; simpl.
  - now rewrite N.eqb_refl.
  - destruct (N.eqb c sep) eqn:E.
    + apply N.eqb_eq in E. exfalso. apply H. now left.
    + rewrite IH; [reflexivity|]. intros Hin. apply H. now right.
Qed.

(** The payload of a PNG data URL is what follows its comma. *)
Lemma payload_data_url d :
  ~ In 44%N d -> payload (DATA_URL_HEAD ++ d) = Some d.
Proof.
  intros H. unfold payload.
  change (DATA_URL_HEAD ++ d)
    with (lit "data:image/png;base64" ++ 44%N :: d).
  rewrite split_app_sep.
  - rewrite (split_no_sep _ _ H). reflexivity.
  - intros Hin. vm_compute in Hin.
    repeat (destruct Hin as [Hin|Hin]; [discriminate Hin|]). exact Hin.
Qed.

Lemma firstInlineImage_found parts :
  (firstInlineImage parts = [] /\ Forall (fun p => p = NoInlineData) parts) \/
  (exists before data after,
     parts = before ++ InlineBlob data :: after /\
     Forall (fun p => p = NoInlineData) before /\
     firstInlineImage parts = DATA_URL_HEAD ++ render data).
Proof.
  induction parts as [|p parts IH]; [left; split; [reflexivity|constructor]|].
  destruct p as [|data].
  - destruct IH as [[Hnone Hall]|[before [data [after [Hp [Hb Hf]]]]]].
    + left. split; [exact Hnone | now constructor].
    + right. exists (NoInlineData :: before), data, after.
      split; [now rewrite Hp|]. split; [now constructor | exact Hf].
  - right. exists [], data, parts. repeat split. constructor.
Qed.

(** X3.  When [generatePodImage] returns, the response's first candidate
    had parts, and the image returned is the PNG data URL of the data of the
    first part that carries inline data.  When that data holds no comma, as
    base64 never does, the payload that the export reads back from the URL
    (the text after the first comma) is exactly that data. *)
Theorem generated_image_is_the_first_inline_part E S images cp src isPro url :
  generatePodImage E S images cp src isPro = GenOk url ->
  exists before data after rest,
    generateContent S (buildRequest images cp src isPro) =
      CallReturns
        (Some (Content (Some (before ++ InlineBlob data :: after)) :: rest)) /\
    Forall (fun p => p = NoInlineData) before /\
    url = DATA_URL_HEAD ++ render data /\
    (~ In 44%N (render data) -> payload url = Some (render data)).
Proof.
  unfold generatePodImage, tryGenerate. intros H.
  destruct (constructorError S); [discriminate|].
  destruct (generateContent S (buildRequest images cp src isPro))
    as [message|candidates].
  - destruct (includes message ENTITY_NOT_FOUND); discriminate.
  - destruct candidates as [[|[|[parts|]] rest]|];
      try (destruct (includes _ ENTITY_NOT_FOUND); discriminate).
    destruct (firstInlineImage_found parts)
      as [[Hnone _]|[before [data [after [Hp [Hb Hf]]]]]].
    + rewrite Hnone in H.
      destruct (includes NO_IMAGE_RETURNED ENTITY_NOT_FOUND); discriminate.
    + rewrite Hf in H. change (DATA_URL_HEAD ++ render data)
        with (100%N :: tl (DATA_URL_HEAD ++ render data)) in H.
      injection H as <-.
      exists before, data, after, rest. rewrite Hp.
      repeat split; [exact Hb|]. apply payload_data_url.
Qed.

Lemma generated_image_is_the_first_inline_part_witness :
  generatePodImage Scenario.engine Scenario.answering [] None None true =
    GenOk (DATA_URL_HEAD ++ lit "iVBORw0KGgo=") /\
  exists data,
    DATA_URL_HEAD ++ lit "iVBORw0KGgo=" = DATA_URL_HEAD ++ render data /\
    (~ In 44%N (render data) ->
     payload (DATA_URL_HEAD ++ lit "iVBORw0KGgo=") = Some (render data)).
Proof.
  assert (H : generatePodImage Scenario.engine Scenario.answering [] None None
                true = GenOk (DATA_URL_HEAD ++ lit "iVBORw0KGgo="))
    by reflexivity.
  split; [exact H|].
  destruct (generated_image_is_the_first_inline_part _ _ _ _ _ _ _ H)
    as [before [data [after [rest [_ [_ [Hurl Hpay]]]]]]].
  exists data. split; [exact Hurl | exact Hpay].
Defined.



(** ** The entitlement path *)

Lemma processBatch_notices r batchId mode client (a : Action) :
  a = AlertProKeyRequired \/ a = HandleConnectKey ->
  (In a (processBatch r batchId mode client) <->
   exists message,
     In (GenFail message) (calls (processBatch r batchId mode client)) /\
     includes message PRO_KEY_REQUIRED = true).
Proof.
  intros Ha. unfold processBatch.
  destruct (findIndex batchId (batches r)) as [idx|] eqn:F.
  2:{ split; [intros [] | intros [m [[] _]]]. }
  destruct (findIndex_nth _ _ _ F) as [batch [Hn _]]. rewrite Hn.
  pose proof (generateLoop_awaits r batchId batch (isProMode mode) client
                (outputsPerBatch r) 0 []) as Hawaits.
  pose proof (generateLoop_calls r batchId client batch (isProMode mode)
                (outputsPerBatch r) 0 []) as Hcalls.
  destruct (generateLoop r batchId batch (isProMode mode) client
              (outputsPerBatch r) 0 []) as [acts e].
  simpl in Hawaits.
  assert (Hnot : ~ In a acts).
  { intros Hin. destruct (Hawaits _ Hin) as [o Ho].
    destruct Ha as [->| ->]; discriminate. }
  destruct e as [out|m].
  - destruct Hcalls as [news [_ [Hc _]]]. split.
    + intros [Hin|Hin]; [destruct Ha as [->| ->]; discriminate|].
      apply in_app_or in Hin as [Hin|[Hin|[]]]; [contradiction|].
      destruct Ha as [->| ->]; discriminate.
    + intros [message [Hin _]]. exfalso. simpl in Hin.
      rewrite calls_app, Hc in Hin. simpl in Hin. rewrite app_nil_r in Hin.
      now apply GenFail_not_among_oks in Hin.
  - destruct Hcalls as [news Hc].
    assert (Hcs : forall tail, calls tail = [] ->
              calls (SetBatches (StartProcessing batchId mode) :: acts ++ tail)
              = map GenOk news ++ [GenFail m]).
    { intros tail Ht. simpl. now rewrite calls_app, Hc, Ht, app_nil_r. }
    destruct (includes m PRO_KEY_REQUIRED) eqn:I; rewrite Hcs by reflexivity.
    + split.
      * intros _. exists m. split; [|exact I].
        apply in_or_app. right. now left.
      * intros _. right. apply in_or_app. right.
        destruct Ha as [->| ->]; simpl; auto.
    + split.
      * intros [Hin|Hin]; [destruct Ha as [->| ->]; discriminate|].
        apply in_app_or in Hin as [Hin|[Hin|[]]]; [contradiction|].
        destruct Ha as [->| ->]; discriminate.
      * intros [message [Hin Hinc]]. apply GenFail_last in Hin. congruence.
Qed.

(** X5.  A service error saying that the requested entity was not found
    makes the client fail with the message that asks for a paid key; and a
    run shows the alert and opens the key dialog exactly when one of its
    calls failed with a message that contains the tag PRO_KEY_REQUIRED,
    as that message does. *)
Theorem refused_key_raises_the_alert E S cause :
  constructorError S = None ->
  (forall request, generateContent S request = CallThrows cause) ->
  includes cause ENTITY_NOT_FOUND = true ->
  (forall images cp src isPro,
     generatePodImage E S images cp src isPro = GenFail PRO_KEY_MESSAGE) /\
  includes PRO_KEY_MESSAGE PRO_KEY_REQUIRED = true /\
  (forall r batchId mode client,
     (In AlertProKeyRequired (processBatch r batchId mode client) <->
      exists message,
        In (GenFail message) (calls (processBatch r batchId mode client)) /\
        includes message PRO_KEY_REQUIRED = true) /\
     (In HandleConnectKey (processBatch r batchId mode client) <->
      In AlertProKeyRequired (processBatch r batchId mode client))).
Proof.
  intros Hc Hcall Hinc. split; [|split].
  - intros images cp src isPro. unfold generatePodImage, tryGenerate.
    now rewrite Hc, Hcall, Hinc.
  - reflexivity.
  - intros r batchId mode client. split.
    + apply processBatch_notices. now left.
    + rewrite (processBatch_notices r batchId mode client HandleConnectKey)
        by now right.
      rewrite (processBatch_notices r batchId mode client AlertProKeyRequired)
        by now left.
      reflexivity.
Qed.

Lemma refused_key_raises_the_alert_witness :
  constructorError Scenario.refusing = None /\
  includes (lit "404 NOT_FOUND: Requested entity was not found.")
    ENTITY_NOT_FOUND = true /\
  In AlertProKeyRequired
     (processBatch Scenario.afterImport (lit "id0") pro
        (fun _ => generatePodImage Scenario.engine Scenario.refusing
                    [] None None true)).
Proof.
  split; [reflexivity|]. split; [reflexivity|].
  destruct (refused_key_raises_the_alert Scenario.engine Scenario.refusing
              (lit "404 NOT_FOUND: Requested entity was not found.")
              eq_refl (fun _ => eq_refl) eq_refl)
    as [Hfail [Htag Hrun]].
  apply (proj1 (Hrun Scenario.afterImport (lit "id0") pro
                  (fun _ => generatePodImage Scenario.engine Scenario.refusing
                              [] None None true))).
  exists PRO_KEY_MESSAGE. split; [|exact Htag].
  vm_compute. left. reflexivity.
Defined.

(* ================================================================== *)
(** * Batch runner and fleet controller: further results *)
(* ================================================================== *)


Lemma findIndexFrom_found batchId : forall bs i,
  (exists b, In b bs /\ streq (BatchItem.id b) batchId = true) ->
  findIndexFrom batchId i bs <> None.
Proof.
  induction bs as [|b bs IH]; intros i [b0 [Hin Hid]]; [contradiction|].
  simpl. destruct (streq (BatchItem.id b) batchId) eqn:E; [discriminate|].
  apply IH. exists b0. split; [|exact Hid].
  destruct Hin as [->|Hin]; [congruence | exact Hin].
Qed.

Lemma findIndex_member b bs :
  In b bs -> findIndex (BatchItem.id b) bs <> None.
Proof.
  intros H. apply findIndexFrom_found. exists b. split; [exact H|].
  apply streq_refl.
Qed.







(** ** Cells other than the store *)

Lemma run_storeOnly acts : Forall (fun a => storeOnly a = true) acts ->
  forall s,
    run undisturbed acts s =
    mkState (batches (run undisturbed acts s)) (isProcessingAll s)
      (shouldStopGlobal s) (outputsPerBatch s) (editTarget s) (prompt s)
      (isRegenerating s) (history s) (redoStack s).
Proof.
  induction 1 as [|a acts Ha _ IH]; intros s.
  - now destruct s.
  - rewrite run_undisturbed_cons, IH.
    destruct a; try discriminate; reflexivity.
Qed.

Lemma processBatch_storeOnly r batchId mode client :
  Forall (fun a => storeOnly a = true) (processBatch r batchId mode client).
Proof.
  unfold processBatch.
  destruct (findIndex batchId (batches r)) as [idx|] eqn:F; [|constructor].
  destruct (findIndex_nth _ _ _ F) as [batch [Hn _]]. rewrite Hn.
  pose proof (generateLoop_awaits r batchId batch (isProMode mode) client
                (outputsPerBatch r) 0 []) as Hawaits.
  destruct (generateLoop r batchId batch (isProMode mode) client
              (outputsPerBatch r) 0 []) as [acts e].
  simpl in Hawaits. constructor; [reflexivity|].
  apply Forall_app. split.
  - apply Forall_forall. intros a Ha. destruct (Hawaits a Ha) as [o ->].
    reflexivity.
  - destruct e as [out|m]; [repeat constructor|].
    destruct (includes m PRO_KEY_REQUIRED); repeat constructor.
Qed.

Lemma forEachBatch_storeOnly r mode clients : forall bs k,
  Forall (fun a => storeOnly a = true) (forEachBatch r mode clients k bs).
Proof.
  induction bs as [|b bs IH]; intros k; simpl; [constructor|].
  destruct (shouldStopGlobal r); [constructor|].
  apply Forall_app. split; [apply processBatch_storeOnly | apply IH].
Qed.

(** ** Where a run leaves the batches *)

Lemma processBatch_settles r batchId mode client s :
  findIndex batchId (batches r) <> None ->
  Forall2
    (fun b b' =>
       BatchItem.id b' = BatchItem.id b /\
       (streq (BatchItem.id b) batchId = true -> settled b') /\
       (streq (BatchItem.id b) batchId = false -> b' = b))
    (batches s)
    (batches (run undisturbed (processBatch r batchId mode client) s)).
Proof.
  intros Hfound.
  destruct (processBatch_shape r batchId client mode)
    as [Hnone _ | acts resUrls _ Htrace Hacts _ _
        | acts notices oks m Htrace Hacts Hnotices _ _];
    [contradiction | |]; rewrite Htrace.
  - rewrite run_completed_store by assumption. simpl.
    rewrite mapById_mapById by reflexivity.
    apply mapById_Forall2; intros b Hb.
    + unfold settled. destruct mode; simpl; repeat split; auto; congruence.
    + repeat split; auto. congruence.
  - rewrite run_failed_store by assumption. simpl.
    rewrite mapById_mapById by reflexivity.
    apply mapById_Forall2; intros b Hb.
    + unfold settled. simpl. repeat split; auto; congruence.
    + repeat split; auto. congruence.
Qed.

Lemma Forall2_Forall_step {A} (R : A -> A -> Prop) (P Q : A -> Prop) l l' :
  Forall2 R l l' -> Forall P l ->
  (forall x y, R x y -> P x -> Q y) -> Forall Q l'.
Proof.
  intros H2 HP Hstep. induction H2 as [|x y l l' Hxy _ IH]; [constructor|].
  inversion HP; subst. constructor; eauto.
Qed.

Lemma Forall2_map_eq {A B} (R : A -> A -> Prop) (f : A -> B) l l' :
  Forall2 R l l' -> (forall x y, R x y -> f y = f x) -> map f l' = map f l.
Proof.
  intros H2 Hf. induction H2 as [|x y l l' Hxy _ IH]; [reflexivity|].
  simpl. now rewrite (Hf _ _ Hxy), IH.
Qed.

Lemma forEachBatch_settles r mode clients : shouldStopGlobal r = false ->
  forall bs k s done,
    (forall b, In b bs -> In b (batches r)) ->
    Forall (fun b => In (BatchItem.id b) done -> settled b) (batches s) ->
    Forall (fun b => In (BatchItem.id b) (done ++ map BatchItem.id bs) ->
                     settled b)
      (batches (run undisturbed (forEachBatch r mode clients k bs) s)) /\
    map BatchItem.id
      (batches (run undisturbed (forEachBatch r mode clients k bs) s)) =
    map BatchItem.id (batches s).
Proof.
  intros Hgo. induction bs as [|b bs IH]; intros k s done Hsub Hdone; simpl.
  - rewrite app_nil_r. split; [exact Hdone | reflexivity].
  - rewrite Hgo, run_undisturbed_app.
    pose proof (processBatch_settles r (BatchItem.id b) mode (clients k) s
                  (findIndex_member b _ (Hsub b (or_introl eq_refl)))) as Hrun.
    set (s1 := run undisturbed
                 (processBatch r (BatchItem.id b) mode (clients k)) s) in *.
    destruct (IH (S k) s1 (done ++ [BatchItem.id b])) as [Hall Hids].
    + intros b' Hb'. apply Hsub. now right.
    + eapply Forall2_Forall_step; [exact Hrun | exact Hdone |].
      intros x y [Hid [Hhit Hmiss]] Hx Hin.
      destruct (streq (BatchItem.id x) (BatchItem.id b)) eqn:E.
      * now apply Hhit.
      * rewrite (Hmiss eq_refl). apply Hx.
        rewrite Hid in Hin. apply in_app_or in Hin as [Hin|[Hin|[]]];
          [exact Hin|].
        apply streq_neq in E. congruence.
    + rewrite <- app_assoc in Hall. split; [exact Hall|].
      rewrite Hids. eapply Forall2_map_eq; [exact Hrun|].
      now intros x y [Hid _].
Qed.

(** X7.  When [processAll] is started with the stop flag down and nothing
    else touches the state meanwhile, it leaves every batch [completed] or
    in [error] - none is left [idle], [processing] or [stopping] - and the
    run-all indicator off. *)
Theorem processAll_settles_every_batch r mode clients :
  shouldStopGlobal r = false ->
  Forall settled (batches (run undisturbed (processAll r mode clients) r)) /\
  isProcessingAll (run undisturbed (processAll r mode clients) r) = false /\
  shouldStopGlobal (run undisturbed (processAll r mode clients) r) = false.
Proof.
  intros Hgo. unfold processAll.
  rewrite !run_undisturbed_cons, run_undisturbed_app.
  set (s0 := applyAction (SetShouldStopGlobal false)
               (applyAction (SetIsProcessingAll true) r)).
  destruct (forEachBatch_settles r mode clients Hgo (batches r) 0 s0 [])
    as [Hall Hids]; [auto | |].
  { apply Forall_forall. intros b _ []. }
  rewrite (run_storeOnly _ (forEachBatch_storeOnly r mode clients (batches r) 0)
             s0) in *.
  unfold run at 1 2 3. simpl. repeat split.
  simpl in Hall, Hids. apply Forall_forall. intros b Hb.
  rewrite Forall_forall in Hall. apply (Hall b Hb).
  rewrite <- Hids. now apply in_map.
Qed.

Lemma processAll_settles_every_batch_witness :
  shouldStopGlobal Sample.loaded = false /\
  map BatchItem.status
      (batches (run undisturbed
                  (processAll Sample.loaded normal
                     (fun k => if Nat.eqb k 0 then Sample.failingSecond
                               else Sample.succeeding))
                  Sample.loaded)) = [error; completed] /\
  Forall settled
    (batches (run undisturbed
                (processAll Sample.loaded normal
                   (fun k => if Nat.eqb k 0 then Sample.failingSecond
                             else Sample.succeeding))
                Sample.loaded)).
Proof.
  split; [reflexivity|]. split; [reflexivity|].
  exact (proj1 (processAll_settles_every_batch Sample.loaded normal
                  (fun k => if Nat.eqb k 0 then Sample.failingSecond
                            else Sample.succeeding) eq_refl)).
Defined.

(** X8.  A request to stop that is already in the snapshot is honoured at
    once: when the global stop flag is up, or the batch's status is
    [stopping], in the render from which a run is started, the run makes
    no call, and ends [completed] with an empty result sequence for its
    tier - what the tier held is lost; the other tier is kept. *)
Theorem run_under_stop_request_clears_results r batchId mode client live :
  findIndex batchId (batches r) <> None ->
  (shouldStopGlobal r = true \/
   exists b, findBatch batchId (batches r) = Some b /\
             BatchItem.status b = stopping) ->
  calls (processBatch r batchId mode client) = [] /\
  Forall2
    (fun b b' =>
       if streq (BatchItem.id b) batchId
       then BatchItem.status b' = completed /\
            BatchItem.results (isProMode mode) b' = [] /\
            BatchItem.results (negb (isProMode mode)) b' =
              BatchItem.results (negb (isProMode mode)) b
       else b' = b)
    (batches live)
    (batches (run undisturbed (processBatch r batchId mode client) live)).
Proof.
  intros Hfound Hstop.
  assert (Hreq : stopRequested r batchId = true).
  { unfold stopRequested. destruct Hstop as [->|[b [-> Hs]]]; [reflexivity|].
    rewrite Hs. apply orb_true_r. }
  rewrite (processBatch_stop_in_snapshot r batchId mode client Hfound Hreq).
  split; [reflexivity|].
  unfold run. simpl.
  rewrite mapById_mapById by reflexivity.
  apply mapById_Forall2; intros b Hb; rewrite Hb; [|reflexivity].
  destruct mode; simpl; auto.
Qed.

Lemma run_under_stop_request_clears_results_witness :
  findIndex (lit "b1") (batches Scenario.stopped) <> None /\
  shouldStopGlobal Scenario.stopped = true /\
  map (fun b => (BatchItem.status b, BatchItem.resultsNormal b,
                 BatchItem.resultsPro b))
      (batches (run undisturbed
                  (processBatch Scenario.stopped (lit "b1") normal
                     Sample.succeeding) Scenario.stopped)) =
    [(completed, [], [Sample.oldPro]); (idle, [], [])] /\
  calls (processBatch Scenario.stopped (lit "b1") normal Sample.succeeding)
    = [].
Proof.
  assert (H1 : findIndex (lit "b1") (batches Scenario.stopped) <> None)
    by (vm_compute; discriminate).
  split; [exact H1|]. split; [reflexivity|]. split; [reflexivity|].
  exact (proj1 (run_under_stop_request_clears_results Scenario.stopped
                  (lit "b1") normal Sample.succeeding Scenario.stopped H1
                  (or_introl eq_refl))).
Defined.


(* ================================================================== *)
(** * Editing session: further results *)
(* ================================================================== *)

Lemma nth_error_mapIndexedFrom {A B} (g : A -> nat -> B) : forall l i n,
  nth_error (mapIndexedFrom g i l) n =
  option_map (fun x => g x (i + n)) (nth_error l n).
Proof.
  induction l as [|x l IH]; intros i n; simpl.
  - now destruct n.
  - destruct n as [|n]; simpl.
    + now rewrite Nat.add_0_r.
    + rewrite IH. now replace (S i + n) with (i + S n) by lia.
Qed.

Lemma length_mapIndexedFrom {A B} (g : A -> nat -> B) : forall l i,
  length (mapIndexedFrom g i l) = length l.
Proof. induction l as [|x l IH]; intros i; simpl; [|rewrite IH]; reflexivity. Qed.

Lemma mapIndexedFrom_const {A B} (g : A -> nat -> B) (v : B) :
  (forall x i, g x i = v) ->
  forall l i, mapIndexedFrom g i l = repeat v (length l).
Proof.
  intros Hg. induction l as [|x l IH]; intros i; simpl; [reflexivity|].
  now rewrite Hg, IH.
Qed.

Lemma results_withResults b isPro rs :
  BatchItem.results isPro (BatchItem.withResults b isPro rs) = rs.
Proof. destruct isPro; reflexivity. Qed.

Lemma results_withResults_other b isPro rs :
  BatchItem.results (negb isPro) (BatchItem.withResults b isPro rs) =
  BatchItem.results (negb isPro) b.
Proof. destruct isPro; reflexivity. Qed.

Lemma id_withResults b isPro rs :
  BatchItem.id (BatchItem.withResults b isPro rs) = BatchItem.id b.
Proof. destruct isPro; reflexivity. Qed.

Lemma targetEntries_entriesAt s :
  targetEntries s =
  match editTarget s with
  | None => []
  | Some t => entriesAt t (batches s)
  end.
Proof. reflexivity. Qed.

(** Writing [v] at the editor's index turns every entry the editor points
    to into [v]; positions out of range stay out of range. *)
Lemma entriesAt_written t t' v g bs :
  EditTarget.batchId t' = EditTarget.batchId t ->
  EditTarget.index t' = EditTarget.index t ->
  EditTarget.mode t' = EditTarget.mode t ->
  (forall r, g r (EditTarget.index t) = v) ->
  entriesAt t'
    (mapById (EditTarget.batchId t)
       (fun b =>
          BatchItem.withResults b (isProMode (EditTarget.mode t))
            (mapIndexed g
               (BatchItem.results (isProMode (EditTarget.mode t)) b))) bs) =
  map (option_map (fun _ => v)) (entriesAt t bs).
Proof.
  intros Hid Hidx Hmode Hg. unfold entriesAt, mapById.
  rewrite Hid, Hidx, Hmode.
  induction bs as [|b bs IH]; [reflexivity|]. simpl.
  destruct (streq (BatchItem.id b) (EditTarget.batchId t)) eqn:E.
  - rewrite id_withResults, E. simpl. rewrite IH. f_equal.
    rewrite results_withResults. unfold mapIndexed.
    rewrite nth_error_mapIndexedFrom. simpl.
    destruct (nth_error _ (EditTarget.index t)); [|reflexivity].
    simpl. now rewrite Hg.
  - rewrite E. exact IH.
Qed.

(** The states after the editor's handlers, in closed form. *)
Lemma dispatch_applyToThis s t v :
  editTarget s = Some t ->
  dispatch (applyToThis v) s =
  mkState
    (applyUpdate (SaveResult (EditTarget.batchId t)
                    (isProMode (EditTarget.mode t)) (EditTarget.index t)
                    false v) (batches s))
    (isProcessingAll s) (shouldStopGlobal s) (outputsPerBatch s)
    (Some (EditTarget.mk (EditTarget.batchId t) (EditTarget.index t) v
             (EditTarget.mode t)))
    (prompt s) (isRegenerating s) (history s) (redoStack s).
Proof.
  intros Ht. unfold dispatch, applyToThis, onSave. rewrite Ht.
  unfold run. simpl. now rewrite Ht.
Qed.

Lemma dispatch_applyToAll s t v :
  editTarget s = Some t ->
  dispatch (applyToAll v) s =
  mkState
    (applyUpdate (SaveResult (EditTarget.batchId t)
                    (isProMode (EditTarget.mode t)) (EditTarget.index t)
                    true v) (batches s))
    (isProcessingAll s) (shouldStopGlobal s) (outputsPerBatch s)
    (editTarget s) (prompt s) (isRegenerating s) (history s) (redoStack s).
Proof.
  intros Ht. unfold dispatch, applyToAll, onSave. rewrite Ht.
  unfold run. simpl. now rewrite Ht.
Qed.

Lemma dispatch_handleRegenerate_ok s t v :
  editTarget s = Some t ->
  isBlank (prompt s) = false ->
  dispatch (handleRegenerate (GenOk v)) s =
  mkState
    (applyUpdate (ReplaceResult (EditTarget.batchId t)
                    (isProMode (EditTarget.mode t)) (EditTarget.index t) v)
       (batches s))
    (isProcessingAll s) (shouldStopGlobal s) (outputsPerBatch s)
    (Some (EditTarget.mk (EditTarget.batchId t) (EditTarget.index t) v
             (EditTarget.mode t)))
    [] false (history s ++ [EditTarget.data t]) [].
Proof.
  intros Ht Hp. unfold dispatch, handleRegenerate, onEditRegenerate.
  rewrite Ht, Hp. destruct s; simpl in *; subst. reflexivity.
Qed.

Lemma dispatch_handleRegenerate_failed s t message :
  editTarget s = Some t ->
  isBlank (prompt s) = false ->
  dispatch (handleRegenerate (GenFail message)) s =
  mkState (batches s) (isProcessingAll s) (shouldStopGlobal s)
    (outputsPerBatch s) (editTarget s) [] false
    (history s ++ [EditTarget.data t]) [].
Proof.
  intros Ht Hp. unfold dispatch, handleRegenerate, onEditRegenerate.
  rewrite Ht, Hp. destruct s; simpl in *; subst. reflexivity.
Qed.

Lemma written_at (v r : jsstring) (index : nat) (all : bool) :
  (if Nat.eqb index index || all then v else r) = v.
Proof. now rewrite Nat.eqb_refl. Qed.

Lemma replaced_at (v r : jsstring) (index : nat) :
  (if Nat.eqb index index then v else r) = v.
Proof. now rewrite Nat.eqb_refl. Qed.

(** X10.  Apply to all writes the image over every entry of the tier the
    editor is bound to, in every batch with the target's id, and changes
    nothing else in the store: the tier keeps its length, the other tier
    and the other batches are as they were.  The editor itself is not
    updated: it goes on showing the image it had, and its stacks are
    untouched. *)
Theorem apply_to_all_overwrites_the_tier s t v :
  editTarget s = Some t ->
  Forall2
    (fun b b' =>
       if streq (BatchItem.id b) (EditTarget.batchId t)
       then b' = BatchItem.withResults b (isProMode (EditTarget.mode t))
                   (repeat v
                      (length (BatchItem.results
                                 (isProMode (EditTarget.mode t)) b)))
       else b' = b)
    (batches s) (batches (dispatch (applyToAll v) s)) /\
  editTarget (dispatch (applyToAll v) s) = Some t /\
  history (dispatch (applyToAll v) s) = history s /\
  redoStack (dispatch (applyToAll v) s) = redoStack s.
Proof.
  intros Ht. rewrite (dispatch_applyToAll s t v Ht). simpl.
  split; [|auto].
  apply mapById_Forall2; intros b Hb; rewrite Hb; [|reflexivity].
  f_equal. apply mapIndexedFrom_const. intros x i. now rewrite orb_true_r.
Qed.

Lemma apply_to_all_overwrites_the_tier_witness :
  editTarget Sample.editing =
    Some (EditTarget.mk (lit "b1") 0 Sample.imageA normal) /\
  map BatchItem.resultsNormal
      (batches (dispatch (applyToAll Sample.imageB) Sample.editing)) =
    [[Sample.imageB]; []] /\
  currentImage (dispatch (applyToAll Sample.imageB) Sample.editing) =
    Some Sample.imageA.
Proof.
  split; [reflexivity|]. split; [reflexivity|].
  unfold currentImage.
  rewrite (proj1 (proj2 (apply_to_all_overwrites_the_tier Sample.editing
                           (EditTarget.mk (lit "b1") 0 Sample.imageA normal)
                           Sample.imageB eq_refl))).
  reflexivity.
Defined.

(** X11.  Apply to this writes the image at the editor's index, in the
    tier the editor is bound to, of every batch with the target's id: that
    entry becomes the image when the index is in range, every other entry,
    the length, the other tier and the other batches stay.  The editor
    shows the image afterwards; nothing is pushed on its stacks, so the
    commit cannot be undone. *)
Theorem apply_to_this_writes_one_entry s t v :
  editTarget s = Some t ->
  Forall2
    (fun b b' =>
       if streq (BatchItem.id b) (EditTarget.batchId t)
       then
         (forall i,
            nth_error (BatchItem.results (isProMode (EditTarget.mode t)) b') i =
            if Nat.eqb i (EditTarget.index t)
            then option_map (fun _ => v)
                   (nth_error
                      (BatchItem.results (isProMode (EditTarget.mode t)) b) i)
            else nth_error
                   (BatchItem.results (isProMode (EditTarget.mode t)) b) i) /\
         length (BatchItem.results (isProMode (EditTarget.mode t)) b') =
           length (BatchItem.results (isProMode (EditTarget.mode t)) b) /\
         BatchItem.results (negb (isProMode (EditTarget.mode t))) b' =
           BatchItem.results (negb (isProMode (EditTarget.mode t))) b
       else b' = b)
    (batches s) (batches (dispatch (applyToThis v) s)) /\
  currentImage (dispatch (applyToThis v) s) = Some v /\
  history (dispatch (applyToThis v) s) = history s /\
  redoStack (dispatch (applyToThis v) s) = redoStack s.
Proof.
  intros Ht. rewrite (dispatch_applyToThis s t v Ht). simpl.
  split; [|auto].
  apply mapById_Forall2; intros b Hb; rewrite Hb; [|reflexivity].
  rewrite results_withResults, results_withResults_other.
  unfold mapIndexed. rewrite length_mapIndexedFrom.
  split; [|auto]. intros i. rewrite nth_error_mapIndexedFrom. simpl.
  rewrite orb_false_r.
  destruct (nth_error _ i); simpl; destruct (Nat.eqb i (EditTarget.index t));
    reflexivity.
Qed.

Lemma apply_to_this_writes_one_entry_witness :
  editTarget Sample.editing =
    Some (EditTarget.mk (lit "b1") 0 Sample.imageA normal) /\
  currentImage (dispatch (applyToThis Sample.imageB) Sample.editing) =
    Some Sample.imageB /\
  targetEntries (dispatch (applyToThis Sample.imageB) Sample.editing) =
    [Some Sample.imageB].
Proof.
  split; [reflexivity|]. split; [|reflexivity].
  exact (proj1 (proj2 (apply_to_this_writes_one_entry Sample.editing
                         (EditTarget.mk (lit "b1") 0 Sample.imageA normal)
                         Sample.imageB eq_refl))).
Defined.

(** X12.  A regeneration whose refinement call succeeds makes the new
    image the one the editor shows and writes it over the store entries the
    editor is bound to; the image shown before goes on the undo stack, the
    redo stack is emptied, the prompt is cleared and the busy flag is
    down. *)
Theorem regenerate_success_replaces_image_and_entry s t v :
  editTarget s = Some t ->
  isBlank (prompt s) = false ->
  currentImage (dispatch (handleRegenerate (GenOk v)) s) = Some v /\
  targetEntries (dispatch (handleRegenerate (GenOk v)) s) =
    map (option_map (fun _ => v)) (targetEntries s) /\
  history (dispatch (handleRegenerate (GenOk v)) s) =
    history s ++ [EditTarget.data t] /\
  redoStack (dispatch (handleRegenerate (GenOk v)) s) = [] /\
  prompt (dispatch (handleRegenerate (GenOk v)) s) = [] /\
  isRegenerating (dispatch (handleRegenerate (GenOk v)) s) = false.
Proof.
  intros Ht Hp. rewrite (dispatch_handleRegenerate_ok s t v Ht Hp).
  rewrite !targetEntries_entriesAt, Ht. simpl.
  repeat split. apply entriesAt_written; try reflexivity.
  intros r. apply replaced_at.
Qed.

Lemma regenerate_success_replaces_image_and_entry_witness :
  editTarget Scenario.opened =
    Some (EditTarget.mk (lit "b1") 0 Sample.oldNormal normal) /\
  isBlank (prompt Scenario.opened) = false /\
  currentImage (dispatch (handleRegenerate (GenOk Sample.imageA))
                  Scenario.opened) = Some Sample.imageA /\
  targetEntries (dispatch (handleRegenerate (GenOk Sample.imageA))
                   Scenario.opened) = [Some Sample.imageA].
Proof.
  split; [reflexivity|]. split; [reflexivity|]. split; [|reflexivity].
  exact (proj1 (regenerate_success_replaces_image_and_entry Scenario.opened
                  (EditTarget.mk (lit "b1") 0 Sample.oldNormal normal)
                  Sample.imageA eq_refl eq_refl)).
Defined.

(** X13.  Undo after a successful regeneration brings back the image
    that was shown, in the editor and in the store entries the editor is
    bound to, and the undo stack as it was; the regenerated image waits on
    the redo stack. *)
Theorem regenerate_then_undo s t v :
  editTarget s = Some t ->
  isBlank (prompt s) = false ->
  currentImage (dispatch handleUndo (dispatch (handleRegenerate (GenOk v)) s))
    = currentImage s /\
  targetEntries (dispatch handleUndo (dispatch (handleRegenerate (GenOk v)) s))
    = map (option_map (fun _ => EditTarget.data t)) (targetEntries s) /\
  history (dispatch handleUndo (dispatch (handleRegenerate (GenOk v)) s))
    = history s /\
  redoStack (dispatch handleUndo (dispatch (handleRegenerate (GenOk v)) s))
    = [v].
Proof.
  intros Ht Hp. rewrite (dispatch_handleRegenerate_ok s t v Ht Hp).
  erewrite dispatch_handleUndo by reflexivity.
  unfold currentImage. rewrite !targetEntries_entriesAt, Ht. simpl.
  repeat split.
  erewrite (entriesAt_written
              (EditTarget.mk (EditTarget.batchId t) (EditTarget.index t) v
                 (EditTarget.mode t)))
    by (try reflexivity; intros; apply written_at).
  simpl.
  erewrite (entriesAt_written t
              (EditTarget.mk (EditTarget.batchId t) (EditTarget.index t) v
                 (EditTarget.mode t)))
    by (try reflexivity; intros; apply replaced_at).
  rewrite map_map. apply map_ext. now intros [e|].
Qed.

Lemma regenerate_then_undo_witness :
  editTarget Scenario.opened =
    Some (EditTarget.mk (lit "b1") 0 Sample.oldNormal normal) /\
  isBlank (prompt Scenario.opened) = false /\
  targetEntries (dispatch handleUndo
                   (dispatch (handleRegenerate (GenOk Sample.imageA))
                      Scenario.opened)) = targetEntries Scenario.opened /\
  currentImage (dispatch handleUndo
                  (dispatch (handleRegenerate (GenOk Sample.imageA))
                     Scenario.opened)) = currentImage Scenario.opened.
Proof.
  split; [reflexivity|]. split; [reflexivity|]. split; [reflexivity|].
  exact (proj1 (regenerate_then_undo Scenario.opened
                  (EditTarget.mk (lit "b1") 0 Sample.oldNormal normal)
                  Sample.imageA eq_refl eq_refl)).
Defined.

(** X14.  In an open editor with a non-empty redo stack, redo followed
    by undo brings back the image that was shown and both stacks. *)
Theorem redo_undo_round_trip s t :
  editTarget s = Some t ->
  redoStack s <> [] ->
  currentImage (dispatch handleUndo (dispatch handleRedo s)) = currentImage s /\
  history (dispatch handleUndo (dispatch handleRedo s)) = history s /\
  redoStack (dispatch handleUndo (dispatch handleRedo s)) = redoStack s.
Proof.
  intros Ht Hne. destruct (snoc_of_nonempty _ Hne) as [rs [next Hr]].
  rewrite (dispatch_handleRedo s t rs next Ht Hr).
  erewrite dispatch_handleUndo by reflexivity.
  unfold currentImage. simpl. rewrite Ht, Hr. repeat split.
Qed.

Lemma redo_undo_round_trip_witness :
  redoStack Sample.editing <> [] /\
  currentImage (dispatch handleUndo (dispatch handleRedo Sample.editing)) =
    currentImage Sample.editing /\
  history (dispatch handleUndo (dispatch handleRedo Sample.editing)) =
    history Sample.editing.
Proof.
  assert (H : redoStack Sample.editing <> []) by (vm_compute; discriminate).
  split; [exact H|].
  destruct (redo_undo_round_trip Sample.editing
              (EditTarget.mk (lit "b1") 0 Sample.imageA normal) eq_refl H)
    as [Himg [Hh _]].
  split; [exact Himg | exact Hh].
Defined.

(** ** The editor and the store in step *)

Lemma all_written (a v : jsstring) (l : list (option jsstring)) :
  Forall (fun e => e = Some a) l ->
  Forall (fun e => e = Some v) (map (option_map (fun _ => v)) l).
Proof.
  induction 1 as [|e l -> _ IH]; simpl; constructor; [reflexivity | exact IH].
Qed.

Lemma dispatch_closed (handler : State -> list Action) s :
  handler s = [] -> dispatch handler s = s.
Proof. unfold dispatch. now intros ->. Qed.

(** X15.  When the image the editor shows is the one the store holds at
    the editor's position, it still is after undo, after redo, after a
    regeneration whether it succeeds or fails, and after Apply to this.
    Apply to all with another image breaks it: the store then holds the new
    image where the editor still shows the old one. *)
Theorem editor_stays_in_step s :
  inStep s ->
  inStep (dispatch handleUndo s) /\
  inStep (dispatch handleRedo s) /\
  (forall outcome, inStep (dispatch (handleRegenerate outcome) s)) /\
  (forall v, inStep (dispatch (applyToThis v) s)) /\
  (forall t v,
     editTarget s = Some t -> v <> EditTarget.data t ->
     entriesAt t (batches s) <> [] ->
     ~ inStep (dispatch (applyToAll v) s)).
Proof.
  intros Hstep. unfold inStep in Hstep.
  destruct (editTarget s) as [t|] eqn:Ht.
  2:{ assert (Hu : dispatch handleUndo s = s)
        by (apply dispatch_closed; unfold handleUndo; now rewrite Ht).
      assert (Hr : dispatch handleRedo s = s)
        by (apply dispatch_closed; unfold handleRedo; now rewrite Ht).
      assert (Hg : forall o, dispatch (handleRegenerate o) s = s)
        by (intros o; apply dispatch_closed; unfold handleRegenerate;
            now rewrite Ht).
      assert (Ha : forall v, dispatch (applyToThis v) s = s)
        by (intros v; apply dispatch_closed; unfold applyToThis, onSave;
            now rewrite Ht).
      rewrite Hu, Hr. unfold inStep. rewrite Ht.
      repeat split; auto.
      - intros o. now rewrite Hg, Ht.
      - intros v. now rewrite Ha, Ht.
      - discriminate. }
  split; [|split; [|split; [|split]]].
  - destruct (history s) as [|x h] eqn:Hh.
    + rewrite dispatch_closed; [unfold inStep; now rewrite Ht|].
      unfold handleUndo. now rewrite Ht, Hh.
    + assert (Hne : history s <> []) by (rewrite Hh; discriminate).
      destruct (snoc_of_nonempty _ Hne) as [h' [previous Hsnoc]].
      rewrite (dispatch_handleUndo s t h' previous Ht Hsnoc).
      unfold inStep. simpl.
      erewrite entriesAt_written
        by (try reflexivity; intros; apply written_at).
      eapply all_written, Hstep.
  - destruct (redoStack s) as [|x rs] eqn:Hr.
    + rewrite dispatch_closed; [unfold inStep; now rewrite Ht|].
      unfold handleRedo. now rewrite Ht, Hr.
    + assert (Hne : redoStack s <> []) by (rewrite Hr; discriminate).
      destruct (snoc_of_nonempty _ Hne) as [rs' [next Hsnoc]].
      rewrite (dispatch_handleRedo s t rs' next Ht Hsnoc).
      unfold inStep. simpl.
      erewrite entriesAt_written
        by (try reflexivity; intros; apply written_at).
      eapply all_written, Hstep.
  - intros outcome. destruct (isBlank (prompt s)) eqn:Hp.
    + rewrite dispatch_closed; [unfold inStep; now rewrite Ht|].
      unfold handleRegenerate. now rewrite Ht, Hp.
    + destruct outcome as [v|message].
      * rewrite (dispatch_handleRegenerate_ok s t v Ht Hp).
        unfold inStep. simpl.
        erewrite entriesAt_written
          by (try reflexivity; intros; apply replaced_at).
        eapply all_written, Hstep.
      * rewrite (dispatch_handleRegenerate_failed s t message Ht Hp).
        unfold inStep. simpl. now rewrite Ht.
  - intros v. rewrite (dispatch_applyToThis s t v Ht).
    unfold inStep. simpl.
    erewrite entriesAt_written
      by (try reflexivity; intros; apply written_at).
    eapply all_written, Hstep.
  - intros t0 v Ht0 Hv Hne. injection Ht0 as <-.
    rewrite (dispatch_applyToAll s t v Ht).
    unfold inStep. simpl. rewrite Ht.
    erewrite entriesAt_written
      by (try reflexivity; intros; apply written_at).
    destruct (entriesAt t (batches s)) as [|e es]; [contradiction|].
    inversion Hstep as [|? ? He _]; subst. simpl. intros Hall.
    inversion Hall as [|? ? Hbad _]. congruence.
Qed.

Lemma editor_stays_in_step_witness :
  inStep Sample.editing /\
  inStep (dispatch handleUndo Sample.editing) /\
  ~ inStep (dispatch (applyToAll Sample.imageB) Sample.editing).
Proof.
  assert (H : inStep Sample.editing) by (vm_compute; repeat constructor).
  destruct (editor_stays_in_step Sample.editing H)
    as [Hundo [_ [_ [_ Hall]]]].
  split; [exact H|]. split; [exact Hundo|].
  apply (Hall (EditTarget.mk (lit "b1") 0 Sample.imageA normal) Sample.imageB).
  - reflexivity.
  - vm_compute. discriminate.
  - vm_compute. discriminate.
Defined.

(* ================================================================== *)
(** * Input images: further results *)
(* ================================================================== *)

Lemma nth_error_mapById batchId f p j :
  nth_error (mapById batchId f p) j =
  option_map (fun b => if streq (BatchItem.id b) batchId then f b else b)
    (nth_error p j).
Proof. unfold mapById. apply nth_error_map. Qed.

Lemma firstn_snoc_short {A} (l : list A) (x : A) n :
  length l < n -> firstn n (l ++ [x]) = l ++ [x].
Proof.
  intros H. apply firstn_all2. rewrite length_app. simpl. lia.
Qed.

Lemma firstn_snoc_full {A} (l : list A) (x : A) n :
  length l = n -> firstn n (l ++ [x]) = l.
Proof.
  intros H. rewrite firstn_app, H, Nat.sub_diag. simpl.
  rewrite app_nil_r. apply firstn_all2. lia.
Qed.

(** X16.  A drop of a readable image file on one of the input slots of
    a batch.  On an occupied slot it replaces the file, preview and data of
    the image in that slot, which keeps its id and its place, and the ids
    of the batch's images stay as they were.  On a free slot, whichever of
    the free slots it is, the new image is appended right after the last
    image of the batch. *)
Theorem drop_on_slot B s j batch idx file k b64 :
  nth_error (batches s) j = Some batch ->
  idx < 5 ->
  startsWith (File.type file) IMAGE_SLASH = true ->
  fileToBase64 B file = Some b64 ->
  exists b',
    nth_error (batches (run undisturbed (onDrop B batch idx (Some file) k) s)) j
      = Some b' /\
    match nth_error (BatchItem.images batch) idx with
    | Some img =>
        nth_error (BatchItem.images b') idx =
          Some (ImageFile.mk (ImageFile.id img) file (createObjectURL B file)
                  b64) /\
        map ImageFile.id (BatchItem.images b') =
          map ImageFile.id (BatchItem.images batch)
    | None =>
        BatchItem.images b' =
          BatchItem.images batch ++
          [ImageFile.mk (randomId B k) file (createObjectURL B file) b64]
    end.
Proof.
  intros Hj Hidx Himg Hread. unfold onDrop.
  destruct (nth_error (BatchItem.images batch) idx) as [img|] eqn:Hslot.
  - unfold handleInputDropReplace. rewrite Himg, Hread. simpl.
    unfold run. simpl. rewrite nth_error_mapById, Hj. simpl.
    rewrite streq_refl. eexists. split; [reflexivity|]. simpl. split.
    + rewrite nth_error_map, Hslot. simpl. now rewrite streq_refl.
    + rewrite map_map. apply map_ext. intros i.
      destruct (streq (ImageFile.id i) (ImageFile.id img)); reflexivity.
  - unfold handleInputDropAdd. rewrite Himg, Hread. simpl.
    unfold run. simpl. rewrite nth_error_mapById, Hj. simpl.
    rewrite streq_refl. eexists. split; [reflexivity|]. simpl.
    apply firstn_snoc_short. apply nth_error_None in Hslot. lia.
Qed.

Lemma drop_on_slot_witness :
  nth_error (batches Sample.loaded) 0 = Some Sample.cats /\
  exists b',
    nth_error
      (batches (run undisturbed
                  (onDrop Sample.browser Sample.cats 3
                     (Some (Sample.png "new.png" 9)) 7) Sample.loaded)) 0
      = Some b' /\
    length (BatchItem.images b') = 2.
Proof.
  split; [reflexivity|].
  destruct (drop_on_slot Sample.browser Sample.loaded 0 Sample.cats 3
              (Sample.png "new.png" 9) 7
              (lit "data:image/png;base64," ++ [73%N]))
    as [b' [Hb' Himgs]]; try reflexivity; [lia|].
  exists b'. split; [exact Hb'|].
  change (nth_error (BatchItem.images Sample.cats) 3) with (@None ImageFile.t)
    in Himgs.
  rewrite Himgs. reflexivity.
Defined.

Lemma filter_all {A} (f : A -> bool) (l : list A) :
  (forall x, In x l -> f x = true) -> filter f l = l.
Proof.
  induction l as [|x l IH]; intros H; simpl; [reflexivity|].
  rewrite (H x) by now left. f_equal. apply IH. intros y Hy. apply H.
  now right.
Qed.

Lemma mapById_same batchId f p :
  (forall b, In b p -> streq (BatchItem.id b) batchId = true -> f b = b) ->
  mapById batchId f p = p.
Proof.
  intros H. unfold mapById. rewrite <- (map_id p) at 2.
  apply map_ext_in. intros b Hb.
  destruct (streq (BatchItem.id b) batchId) eqn:E; [now apply H | reflexivity].
Qed.

Lemma delete_absent batchId imgId p :
  (forall b, In b p -> streq (BatchItem.id b) batchId = true ->
             ~ In imgId (map ImageFile.id (BatchItem.images b))) ->
  applyUpdate (DeleteInput batchId imgId) p = p.
Proof.
  intros Hfresh. simpl. apply mapById_same. intros b Hb Hid.
  specialize (Hfresh b Hb Hid).
  destruct b as [bid bname imgs st pm rn rp cp er]; simpl in *.
  unfold BatchItem.withImages. simpl. f_equal.
  apply filter_all. intros img Himg.
  apply negb_true_iff, streq_neq. intros E.
  apply Hfresh. rewrite <- E. now apply in_map.
Qed.

(** X17.  Adding an image and then deleting it leaves the store as it
    was, provided the id drawn for the image is not the id of an image the
    batch already holds: a full batch ignores the image, any other batch
    gets it appended and loses it again. *)
Theorem add_then_delete B batchId file k s :
  imagesBounded (batches s) ->
  (forall b, In b (batches s) -> streq (BatchItem.id b) batchId = true ->
             ~ In (randomId B k) (map ImageFile.id (BatchItem.images b))) ->
  batches
    (run undisturbed (handleDeleteInput batchId (randomId B k))
       (run undisturbed (handleInputDropAdd B batchId file k) s)) =
  batches s.
Proof.
  intros Hbound Hfresh. unfold handleInputDropAdd, handleDeleteInput.
  destruct (negb (startsWith (File.type file) IMAGE_SLASH));
    [now apply delete_absent|].
  destruct (fileToBase64 B file) as [b64|]; [|now apply delete_absent].
  unfold run. simpl. rewrite mapById_mapById by reflexivity.
  apply mapById_same. intros b Hb Hid.
  unfold imagesBounded in Hbound. rewrite Forall_forall in Hbound.
  specialize (Hbound b Hb). specialize (Hfresh b Hb Hid).
  destruct b as [bid bname imgs st pm rn rp cp er]; simpl in *.
  unfold BatchItem.withImages. simpl. f_equal.
  assert (Hkeep : filter (fun i => negb (streq (ImageFile.id i) (randomId B k)))
                    imgs = imgs).
  { apply filter_all. intros img Himg.
    apply negb_true_iff, streq_neq. intros E.
    apply Hfresh. rewrite <- E. now apply in_map. }
  destruct (Nat.eq_dec (length imgs) 5) as [Hfull|Hroom].
  - rewrite firstn_snoc_full by exact Hfull. exact Hkeep.
  - rewrite firstn_snoc_short by lia.
    rewrite filter_app, Hkeep. simpl. rewrite streq_refl. simpl.
    apply app_nil_r.
Qed.

Lemma add_then_delete_witness :
  imagesBounded (batches Sample.loaded) /\
  batches
    (run undisturbed (handleDeleteInput (lit "b1") (randomId Sample.browser 7))
       (run undisturbed
          (handleInputDropAdd Sample.browser (lit "b1")
             (Sample.png "new.png" 9) 7) Sample.loaded)) =
  batches Sample.loaded.
Proof.
  assert (H : imagesBounded (batches Sample.loaded)).
  { repeat constructor; simpl; lia. }
  split; [exact H|].
  apply (add_then_delete Sample.browser (lit "b1") (Sample.png "new.png" 9) 7
           Sample.loaded H).
  intros b Hb Hid Hin.
  destruct Hb as [<-|[<-|[]]]; vm_compute in Hid; try discriminate.
  vm_compute in Hin. destruct Hin as [Hin|[]]. discriminate.
Defined.

(** X18.  No update of the store other than a folder import and the
    removal of a batch changes how many batches there are, their order,
    their ids or their names. *)
Theorem updates_keep_batch_identity u p :
  isAppend u = false ->
  (forall id, u <> RemoveBatch id) ->
  map BatchItem.id (applyUpdate u p) = map BatchItem.id p /\
  map BatchItem.name (applyUpdate u p) = map BatchItem.name p.
Proof.
  intros Ha Hr.
  destruct u; simpl in *; try discriminate;
    try (exfalso; eapply Hr; reflexivity);
    unfold mapById; rewrite !map_map; split; apply map_ext; intros b;
    destruct (streq (BatchItem.id b) batchId); try reflexivity;
    try (destruct isPro; reflexivity).
Qed.

Lemma updates_keep_batch_identity_witness :
  map BatchItem.name
      (applyUpdate (MarkStopping (lit "b1")) (batches Sample.loaded)) =
  map BatchItem.name (batches Sample.loaded).
Proof.
  apply (updates_keep_batch_identity (MarkStopping (lit "b1"))
           (batches Sample.loaded)).
  - reflexivity.
  - discriminate.
Defined.

(* ================================================================== *)
(** * Folder import: further results *)
(* ================================================================== *)

Lemma prototype_name name :
  existsb (streq name) objectPrototypeKeys = true <->
  In name objectPrototypeKeys.
Proof.
  rewrite existsb_exists. split.
  - intros [n [Hn Hs]]. apply streq_eq in Hs. now subst.
  - intros H. exists name. split; [exact H | apply streq_refl].
Qed.

Lemma groupFiles_fails : forall files grouped,
  (forall n, In n (map fst grouped) -> ~ In n objectPrototypeKeys) ->
  (groupFiles files grouped = None <->
   exists f name, In f files /\ groupName f = Some name /\
                  In name objectPrototypeKeys).
Proof.
  induction files as [|f files IH]; intros grouped Hkeys; simpl.
  - split; [discriminate | intros [f [n [[] _]]]].
  - destruct (groupName f) as [name|] eqn:Hname.
    + unfold pushGrouped. destruct (hasOwn name grouped) eqn:Hown.
      * rewrite IH.
        -- split.
           ++ intros [f' [n [Hin H]]]. exists f', n. split; [now right|exact H].
           ++ intros [f' [n [[<-|Hin] [Hn Hp]]]].
              ** exfalso. apply hasOwn_In in Hown.
                 apply (Hkeys name Hown).
                 rewrite Hname in Hn. now injection Hn as <-.
              ** exists f', n. auto.
        -- intros n Hn. apply Hkeys.
           rewrite map_map in Hn. apply in_map_iff in Hn as [e [He Hin]].
           apply in_map_iff. exists e. split; [|exact Hin].
           destruct (streq (fst e) name); exact He.
      * destruct (existsb (streq name) objectPrototypeKeys) eqn:Hp.
        -- split; [intros _|reflexivity].
           exists f, name. split; [now left|]. split; [exact Hname|].
           now apply prototype_name.
        -- assert (Hnp : ~ In name objectPrototypeKeys).
           { intros H. apply prototype_name in H. congruence. }
           rewrite IH.
           ++ split.
              ** intros [f' [n [Hin H]]]. exists f', n.
                 split; [now right|exact H].
              ** intros [f' [n [[<-|Hin] [Hn Hpr]]]].
                 --- exfalso. apply Hnp.
                     rewrite Hname in Hn. now injection Hn as <-.
                 --- exists f', n. auto.
           ++ intros n Hn. rewrite map_app in Hn.
              apply in_app_or in Hn as [Hn|[<-|[]]]; [now apply Hkeys|].
              exact Hnp.
    + rewrite IH by exact Hkeys. split.
      * intros [f' [n [Hin H]]]. exists f', n. split; [now right|exact H].
      * intros [f' [n [[<-|Hin] [Hn Hp]]]]; [congruence|].
        exists f', n. auto.
Qed.

(** X19.  Grouping the files of an import fails exactly when one of the
    files to be filed lies in a folder named like a property that every
    object inherits (constructor, toString, ...).  In that case the import
    as a whole is abandoned: no batch is added, not even for the other
    folders. *)
Theorem import_fails_on_inherited_names B files k :
  (groupFiles files [] = None <->
   exists f name, In f files /\ groupName f = Some name /\
                  In name objectPrototypeKeys) /\
  ((exists f name, In f files /\ groupName f = Some name /\
                   In name objectPrototypeKeys) ->
   handleFolderUpload B files k = []).
Proof.
  assert (H : groupFiles files [] = None <->
              exists f name, In f files /\ groupName f = Some name /\
                             In name objectPrototypeKeys).
  { apply groupFiles_fails. intros n []. }
  split; [exact H|]. intros Hex. apply H in Hex.
  unfold handleFolderUpload, importedBatches. now rewrite Hex.
Qed.

Lemma import_fails_on_inherited_names_witness :
  handleFolderUpload Sample.browser
    (Sample.threeSegmentFiles ++ [Sample.png "Designs/constructor/d.png" 4]) 0
  = [].
Proof.
  apply (proj2 (import_fails_on_inherited_names Sample.browser
                  (Sample.threeSegmentFiles ++
                   [Sample.png "Designs/constructor/d.png" 4]) 0)).
  exists (Sample.png "Designs/constructor/d.png" 4), (lit "constructor").
  split; [simpl; auto|]. split; [reflexivity|]. left. reflexivity.
Defined.

Lemma groupFiles_skips : forall files grouped,
  groupFiles files grouped =
  groupFiles (filter (fun f => match groupName f with
                               | Some _ => true
                               | None => false
                               end) files) grouped.
Proof.
  induction files as [|f files IH]; intros grouped; simpl; [reflexivity|].
  destruct (groupName f) as [name|] eqn:Hname; simpl.
  - rewrite Hname. destruct (pushGrouped name f grouped); [apply IH|reflexivity].
  - apply IH.
Qed.

(** X20.  Files that are not images, and files that lie in the picked
    folder itself rather than in a folder below it, have no influence on an
    import: with or without them the import builds the same batches, or
    fails alike. *)
Theorem import_ignores_unfiled_files B files k :
  importedBatches B files k =
  importedBatches B
    (filter (fun f =>
               startsWith (File.type f) IMAGE_SLASH &&
               Nat.ltb 2 (length (split 47%N (File.webkitRelativePath f))))
            files) k.
Proof.
  unfold importedBatches. rewrite (groupFiles_skips files []).
  replace (filter (fun f => match groupName f with
                            | Some _ => true
                            | None => false
                            end) files)
    with (filter (fun f =>
                    startsWith (File.type f) IMAGE_SLASH &&
                    Nat.ltb 2
                      (length (split 47%N (File.webkitRelativePath f))))
                 files); [reflexivity|].
  apply filter_ext. intros f. unfold groupName.
  destruct (startsWith (File.type f) IMAGE_SLASH); simpl; [|reflexivity].
  destruct (Nat.ltb_spec 2 (length (split 47%N (File.webkitRelativePath f))))
    as [Hlt|Hge]; [|reflexivity].
  destruct (nth_error _ _) eqn:E; [reflexivity|].
  apply nth_error_None in E. lia.
Qed.

(** ** The order of the new batches *)

Lemma groupFiles_keys : forall files grouped grouped',
  groupFiles files grouped = Some grouped' ->
  map fst grouped' =
  fold_left
    (fun seen name =>
       if existsb (fun n => streq n name) seen then seen else seen ++ [name])
    (filedNames files) (map fst grouped).
Proof.
  induction files as [|f files IH]; intros grouped grouped' H; simpl in H.
  - now injection H as <-.
  - unfold filedNames. simpl. fold (filedNames files).
    destruct (groupName f) as [name|] eqn:Hname; [|now apply IH].
    simpl. unfold pushGrouped in H.
    assert (Hown : existsb (fun n => streq n name) (map fst grouped) =
                   hasOwn name grouped).
    { unfold hasOwn. clear. induction grouped as [|e g IHg]; simpl;
        [reflexivity | now rewrite IHg]. }
    rewrite Hown.
    destruct (hasOwn name grouped) eqn:Hh.
    + rewrite (IH _ _ H).
      f_equal. rewrite map_map. apply map_ext. intros e.
      destruct (streq (fst e) name); reflexivity.
    + destruct (existsb (streq name) objectPrototypeKeys) eqn:Hp;
        [discriminate|].
      rewrite (IH _ _ H). now rewrite map_app.
Qed.

Lemma objectEntries_plain grouped :
  (forall n, In n (map fst grouped) -> isArrayIndex n = false) ->
  objectEntries grouped = grouped.
Proof.
  intros H. unfold objectEntries.
  rewrite (filter_none (fun e => isArrayIndex (fst e))).
  - simpl. apply filter_all. intros e He. apply negb_true_iff, H.
    now apply in_map.
  - intros e He. apply H. now apply in_map.
Qed.

(** X21.  When no folder to be filed has a name that is an array index
    (a canonical decimal numeral), the batches of an import come in the
    order in which their folders first appear in the file list. *)
Theorem import_keeps_folder_order B files k newBatches :
  (forall name, In name (filedNames files) -> isArrayIndex name = false) ->
  importedBatches B files k = Some newBatches ->
  map BatchItem.name newBatches = firstOccurrences (filedNames files).
Proof.
  intros Hplain H. unfold importedBatches in H.
  destruct (groupFiles files []) as [grouped|] eqn:G; [|discriminate].
  pose proof (groupFiles_keys files [] grouped G) as Hkeys.
  pose proof (groupFiles_grouped files [] [] grouped GroupedFor_start G)
    as [_ [Hent _]].
  simpl in Hkeys, Hent.
  rewrite objectEntries_plain in H.
  - destruct (makeBatches B grouped k) as [nb k'] eqn:E.
    simpl in H. subst nb. apply makeBatches_built in E.
    rewrite (built_names _ _ E). exact Hkeys.
  - intros n Hn. apply Hplain.
    apply in_map_iff in Hn as [[n' fs] [<- He]]. simpl.
    destruct (Hent n' fs He) as [Hfs Hne].
    destruct fs as [|f fs']; [contradiction|].
    assert (Hin : In f (filedUnder n' files)) by (rewrite <- Hfs; now left).
    unfold filedUnder in Hin. apply filter_In in Hin as [Hf Hkey].
    unfold filedNames. apply in_flat_map. exists f. split; [exact Hf|].
    destruct (groupName f) as [m|]; [|discriminate].
    apply streq_eq in Hkey. subst. now left.
Qed.

Lemma import_keeps_folder_order_witness :
  (forall name, In name (filedNames Sample.threeSegmentFiles) ->
                isArrayIndex name = false) /\
  importedBatches Sample.browser Sample.threeSegmentFiles 0 =
    Some Scenario.imported /\
  map BatchItem.name Scenario.imported = [lit "Cats"; lit "Dogs"].
Proof.
  assert (H1 : forall name, In name (filedNames Sample.threeSegmentFiles) ->
                            isArrayIndex name = false).
  { intros name Hn. vm_compute in Hn.
    repeat (destruct Hn as [<-|Hn]; [reflexivity|]). destruct Hn. }
  assert (H2 : importedBatches Sample.browser Sample.threeSegmentFiles 0 =
               Some Scenario.imported) by reflexivity.
  split; [exact H1|]. split; [exact H2|].
  rewrite (import_keeps_folder_order Sample.browser Sample.threeSegmentFiles 0
             Scenario.imported H1 H2).
  reflexivity.
Defined.

(* ================================================================== *)
(** * File names and the export *)
(* ================================================================== *)

Lemma words_alnum s :
  Forall (Forall (fun c => isAlnum c = true)) (words s).
Proof.
  induction s as [|c s IH]; simpl; [constructor|].
  destruct (isAlnum c) eqn:A; [|exact IH].
  destruct s as [|c' s']; [repeat constructor; exact A|].
  destruct (isAlnum c') eqn:A'.
  - destruct (words (c' :: s')) as [|w ws];
      [repeat constructor; exact A|].
    inversion IH; subst. constructor; [now constructor | assumption].
  - constructor; [repeat constructor; exact A | exact IH].
Qed.

Lemma words_of_word w :
  w <> [] -> Forall (fun c => isAlnum c = true) w -> words w = [w].
Proof.
  induction w as [|c w IH]; intros Hne Hall; [contradiction|].
  inversion Hall as [|? ? Hc Hw]; subst. simpl. rewrite Hc.
  destruct w as [|c' w']; [reflexivity|].
  inversion Hw as [|? ? Hc' _]; subst. rewrite Hc'.
  rewrite IH; [reflexivity | discriminate | exact Hw].
Qed.

Lemma words_word_sep w c s :
  w <> [] -> Forall (fun c => isAlnum c = true) w -> isAlnum c = false ->
  words (w ++ c :: s) = w :: words s.
Proof.
  induction w as [|x w IH]; intros Hne Hall Hc; [contradiction|].
  inversion Hall as [|? ? Hx Hw]; subst.
  destruct w as [|y w'].
  - simpl. now rewrite Hx, Hc.
  - inversion Hw as [|? ? Hy _]; subst.
    change ((x :: y :: w') ++ c :: s) with (x :: (y :: w') ++ c :: s).
    change (words (x :: (y :: w') ++ c :: s))
      with (if isAlnum x then
              if isAlnum y then
                match words ((y :: w') ++ c :: s) with
                | w0 :: ws => (x :: w0) :: ws
                | [] => [[x]]
                end
              else [x] :: words ((y :: w') ++ c :: s)
            else words ((y :: w') ++ c :: s)).
    rewrite Hx, Hy, IH; [reflexivity | discriminate | exact Hw | exact Hc].
Qed.

Lemma words_joinWords ws :
  Forall (fun w => w <> []) ws ->
  Forall (Forall (fun c => isAlnum c = true)) ws ->
  words (joinWords ws) = ws.
Proof.
  induction ws as [|w ws IH]; intros Hne Hall; [reflexivity|].
  inversion Hne; subst. inversion Hall; subst.
  destruct ws as [|w' ws'].
  - simpl. now apply words_of_word.
  - change (joinWords (w :: w' :: ws'))
      with (w ++ 32%N :: joinWords (w' :: ws')).
    rewrite words_word_sep by (auto; reflexivity).
    now rewrite IH.
Qed.

Lemma words_none s :
  words s = [] <-> Forall (fun c => isAlnum c = false) s.
Proof.
  induction s as [|c s IH]; simpl; [split; [constructor|reflexivity]|].
  destruct (isAlnum c) eqn:A.
  - split.
    + intros H. exfalso. destruct s as [|c' s']; [discriminate|].
      destruct (isAlnum c'); [|discriminate].
      destruct (words (c' :: s')); discriminate.
    + intros H. inversion H; subst. congruence.
  - rewrite IH. split; [now constructor | intros H; now inversion H].
Qed.

(** X22.  Sanitising a name twice gives what sanitising it once gives;
    and the sanitised name is empty exactly when the name holds no ASCII
    letter and no digit, so that a folder named in another script exports
    under an empty name. *)
Theorem cleanFileName_is_idempotent name :
  cleanFileName (cleanFileName name) = cleanFileName name /\
  (cleanFileName name = [] <-> Forall (fun c => isAlnum c = false) name).
Proof.
  rewrite !cleanFileName_words. split.
  - now rewrite words_joinWords by (apply words_nonempty || apply words_alnum).
  - rewrite <- words_none. split.
    + apply joinWords_nil, words_nonempty.
    + now intros ->.
Qed.

(** ** Numbering *)

Lemma lit_injective a b : lit a = lit b -> a = b.
Proof.
  unfold lit. intros H.
  rewrite <- (string_of_list_ascii_of_string a),
          <- (string_of_list_ascii_of_string b).
  f_equal. revert H.
  generalize (list_ascii_of_string a) (list_ascii_of_string b).
  induction l as [|x l IH]; intros [|y l'] H; simpl in H;
    try discriminate; [reflexivity|].
  injection H as Hxy Hl. f_equal; [|now apply IH].
  rewrite <- (ascii_N_embedding x), <- (ascii_N_embedding y). now f_equal.
Qed.

Lemma numberToString_injective m n :
  numberToString m = numberToString n -> m = n.
Proof.
  unfold numberToString. intros H. apply lit_injective in H.
  assert (Hu : Nat.to_uint m = Nat.to_uint n).
  { pose proof (DecimalString.NilEmpty.usu (Nat.to_uint m)) as Hm.
    pose proof (DecimalString.NilEmpty.usu (Nat.to_uint n)) as Hn.
    rewrite H in Hm. rewrite Hm in Hn. now injection Hn. }
  rewrite <- (DecimalNat.Unsigned.of_to m), <- (DecimalNat.Unsigned.of_to n).
  now rewrite Hu.
Qed.

Lemma numberToString_digits n :
  Forall (fun c => isAlnum c = true) (numberToString n).
Proof.
  unfold numberToString. generalize (Nat.to_uint n).
  induction u; simpl; constructor; try reflexivity; assumption.
Qed.

Lemma in_mapIndexedFrom {A B} (g : A -> nat -> B) z : forall l i,
  In z (mapIndexedFrom g i l) -> exists x j, i <= j /\ z = g x j.
Proof.
  induction l as [|x l IH]; intros i H; [contradiction|].
  destruct H as [<-|H].
  - exists x, i. split; [lia | reflexivity].
  - destruct (IH (S i) H) as [y [j [Hj Hz]]]. exists y, j. split; [lia|exact Hz].
Qed.

Lemma NoDup_mapIndexedFrom {A B} (g : A -> nat -> B) :
  (forall x y i j, g x i = g y j -> i = j) ->
  forall l i, NoDup (mapIndexedFrom g i l).
Proof.
  intros Hinj. induction l as [|x l IH]; intros i; simpl; constructor.
  - intros H. apply in_mapIndexedFrom in H as [y [j [Hj Hz]]].
    apply Hinj in Hz. lia.
  - apply IH.
Qed.

Lemma map_mapIndexedFrom {A B C} (f : B -> C) (g : A -> nat -> B) :
  forall l i,
    map f (mapIndexedFrom g i l) = mapIndexedFrom (fun x j => f (g x j)) i l.
Proof.
  induction l as [|x l IH]; intros i; simpl; [reflexivity|]. now rewrite IH.
Qed.

Lemma exportTier_inside batch isPro f :
  In f (exportTier batch isPro) ->
  batchFolder f = BatchItem.name batch /\ tierFolder f = tierName isPro.
Proof.
  unfold exportTier, mapIndexed. intros H.
  apply in_mapIndexedFrom in H as [res [j [_ ->]]]. now split.
Qed.

Lemma exportTier_names_distinct batch isPro :
  NoDup (map fileName (exportTier batch isPro)).
Proof.
  unfold exportTier, mapIndexed. rewrite map_mapIndexedFrom.
  apply NoDup_mapIndexedFrom. intros x y i j H. cbn [fileName] in H.
  do 4 apply app_inv_head in H. apply app_inv_tail in H.
  apply numberToString_injective in H. lia.
Qed.

(** X23.  The files that the export writes for one tier of one batch
    have pairwise distinct names, as many as the tier has results, and
    every name consists of ASCII letters, digits, spaces and the dot of
    the extension. *)
Theorem export_names_are_distinct_and_plain batch isPro :
  NoDup (map fileName (exportTier batch isPro)) /\
  length (exportTier batch isPro) =
    length (BatchItem.results isPro batch) /\
  Forall
    (fun f => Forall (fun c => isAlnumOrSpace c = true \/ c = 46%N)
                (fileName f))
    (exportTier batch isPro).
Proof.
  split; [apply exportTier_names_distinct|]. split.
  - unfold exportTier, mapIndexed. apply length_mapIndexedFrom.
  - apply Forall_forall. intros f Hf.
    unfold exportTier, mapIndexed in Hf.
    apply in_mapIndexedFrom in Hf as [res [j [_ ->]]]. cbn [fileName].
    repeat (apply Forall_app; split).
    + pose proof (replaceNonAlnum_alphabet (BatchItem.name batch)) as Ha.
      apply (collapseFrom_alphabet false) in Ha.
      apply (trim_alphabet (fun c => isAlnumOrSpace c = true)) in Ha.
      eapply Forall_impl; [|exact Ha]. intros c Hc. now left.
    + repeat constructor.
    + destruct isPro; repeat constructor.
    + repeat constructor.
    + eapply Forall_impl; [|apply numberToString_digits].
      intros c Hc. left. unfold isAlnumOrSpace. now rewrite Hc.
    + repeat constructor; now (left + right).
Qed.

(** ** Places in the archive *)

Lemma NoDup_map_finer {A B C} (f : A -> B) (g : A -> C) (l : list A) :
  (forall x y, g x = g y -> f x = f y) ->
  NoDup (map f l) -> NoDup (map g l).
Proof.
  intros Hfg. induction l as [|x l IH]; intros H; simpl; [constructor|].
  simpl in H. apply NoDup_cons_iff in H as [Hx Hl].
  constructor; [|now apply IH].
  intros Hin. apply Hx. apply in_map_iff in Hin as [y [Hy Hin]].
  apply in_map_iff. exists y. split; [now apply Hfg | exact Hin].
Qed.

Lemma NoDup_app_apart {A} (l1 l2 : list A) x :
  NoDup (l1 ++ l2) -> In x l1 -> In x l2 -> False.
Proof.
  induction l1 as [|a l1 IH]; intros H H1 H2; [contradiction|].
  simpl in H. apply NoDup_cons_iff in H as [Ha Hl].
  destruct H1 as [->|H1]; [|now apply IH].
  apply Ha. apply in_or_app. now right.
Qed.

Lemma exportTier_paths_distinct batch isPro :
  NoDup (map zipPath (exportTier batch isPro)).
Proof.
  apply (NoDup_map_finer fileName); [|apply exportTier_names_distinct].
  unfold zipPath. intros x y H. now injection H.
Qed.

Lemma batch_paths_distinct batch :
  NoDup (map zipPath (exportTier batch false ++ exportTier batch true)).
Proof.
  rewrite map_app.
  apply NoDup_app; try apply exportTier_paths_distinct.
  intros p Hn Hp.
  apply in_map_iff in Hn as [f [<- Hf]].
  apply in_map_iff in Hp as [f' [Heq Hf']].
  apply exportTier_inside in Hf as [_ Ht].
  apply exportTier_inside in Hf' as [_ Ht'].
  unfold zipPath in Heq. injection Heq as _ Htier _.
  rewrite Ht, Ht' in Htier. discriminate Htier.
Qed.

Lemma downloadProject_inside bs f :
  In f (downloadProject bs) ->
  exists batch, In batch bs /\ batchFolder f = BatchItem.name batch.
Proof.
  unfold downloadProject. intros H.
  apply in_flat_map in H as [batch [Hb Hf]]. exists batch. split; [exact Hb|].
  destruct (_ && _); [contradiction|].
  apply in_app_or in Hf as [Hf|Hf]; now apply exportTier_inside in Hf.
Qed.

(** X24.  When the batches have pairwise distinct names, no two files of
    the export are written to the same place of the archive.  When two
    batches that both hold normal results have the same name, their first
    normal results are written to one and the same place. *)
Theorem export_places_follow_batch_names :
  (forall bs,
     NoDup (map BatchItem.name bs) ->
     NoDup (map zipPath (downloadProject bs))) /\
  (forall before b1 between b2 after,
     BatchItem.name b1 = BatchItem.name b2 ->
     BatchItem.resultsNormal b1 <> [] ->
     BatchItem.resultsNormal b2 <> [] ->
     ~ NoDup (map zipPath
                (downloadProject
                   (before ++ b1 :: between ++ b2 :: after)))).
Proof.
  split.
  - induction bs as [|b bs IH]; intros Hnames; [constructor|].
    simpl in Hnames. apply NoDup_cons_iff in Hnames as [Hb Hbs].
    change (downloadProject (b :: bs))
      with ((if Nat.eqb (length (BatchItem.resultsNormal b)) 0 &&
                Nat.eqb (length (BatchItem.resultsPro b)) 0
             then []
             else exportTier b false ++ exportTier b true) ++
            downloadProject bs).
    rewrite map_app. apply NoDup_app.
    + destruct (_ && _); [constructor | apply batch_paths_distinct].
    + now apply IH.
    + intros p Hhere Hthere. apply Hb.
      apply in_map_iff in Hthere as [f' [Hp' Hf']].
      apply downloadProject_inside in Hf' as [b' [Hb' Hfolder]].
      apply in_map_iff in Hhere as [f [Hp Hf]].
      assert (Hfb : batchFolder f = BatchItem.name b).
      { destruct (_ && _); [contradiction|].
        apply in_app_or in Hf as [Hf|Hf]; now apply exportTier_inside in Hf. }
      rewrite <- Hp' in Hp. unfold zipPath in Hp. injection Hp as Hsame _ _.
      apply in_map_iff. exists b'. split; [congruence | exact Hb'].
  - intros before b1 between b2 after Hname H1 H2 Hnd.
    assert (Hfirst : forall b, BatchItem.resultsNormal b <> [] ->
              In (BatchItem.name b, lit "Normal",
                  cleanFileName (BatchItem.name b) ++ lit " " ++
                  lit "Normal" ++ lit " " ++ numberToString 1 ++ lit ".png")
                 (map zipPath (downloadProject [b]))).
    { intros b Hb. unfold downloadProject. simpl.
      destruct (BatchItem.resultsNormal b) as [|res rest] eqn:E;
        [contradiction|].
      simpl. rewrite app_nil_r, map_app. apply in_or_app. left.
      unfold exportTier, mapIndexed. simpl. rewrite E. simpl. now left. }
    unfold downloadProject in Hnd.
    rewrite flat_map_app in Hnd. simpl in Hnd.
    rewrite flat_map_app in Hnd. simpl in Hnd.
    rewrite !map_app in Hnd.
    apply NoDup_app_remove_l in Hnd.
    pose proof (Hfirst b1 H1) as Hin1. pose proof (Hfirst b2 H2) as Hin2.
    unfold downloadProject in Hin1, Hin2. simpl in Hin1, Hin2.
    rewrite app_nil_r in Hin1, Hin2. rewrite <- Hname in Hin2.
    eapply (NoDup_app_apart _ _ _ Hnd); [exact Hin1|].
    apply in_or_app. right. apply in_or_app. left. exact Hin2.
Qed.

Lemma export_places_follow_batch_names_witness :
  NoDup (map BatchItem.name (batches Scenario.generated)) /\
  length (downloadProject (batches Scenario.generated)) = 5 /\
  NoDup (map zipPath (downloadProject (batches Scenario.generated))) /\
  match batches Scenario.generated with
  | b :: rest =>
      BatchItem.resultsNormal b <> [] /\
      ~ NoDup (map zipPath (downloadProject ([] ++ b :: rest ++ b :: rest)))
  | [] => False
  end.
Proof.
  assert (H : NoDup (map BatchItem.name (batches Scenario.generated))).
  { vm_compute. repeat constructor; simpl; intuition discriminate. }
  split; [exact H|]. split; [reflexivity|].
  split; [exact (proj1 export_places_follow_batch_names _ H)|].
  destruct (batches Scenario.generated) as [|b rest] eqn:E;
    [vm_compute in E; discriminate E|].
  assert (Hb : BatchItem.resultsNormal b <> []).
  { vm_compute in E. injection E as <- _. discriminate. }
  split; [exact Hb|].
  exact (proj2 export_places_follow_batch_names [] b rest b rest
           eq_refl Hb Hb).
Defined.
